(** * Near-field orientation indexing: the quantizer, the confidence
      evaluator, the grand-loop scheduler and the result checker

    A shallow embedding of [scripts/new_simulate_nf.py] and of
    [hexrd/transforms/xf_numba.py]: [make_beam_rmat], the angle helpers
    and [unit_vector].

    Conventions of the embedding.
    - Python exceptions are values of [exn]; a computation that may raise
      has type [result A].
    - float64 values are exact rationals ([Q]): the development is about
      the integer indices, the counts and the control flow; rounding is
      outside the model.  [np.floor] is [Qfloor], and the index
      [int(np.floor(..))] is a mathematical integer.  A store into the
      [int32] result array of [_quant_and_clip] keeps the low 32 bits.
    - Array indexing follows Python/numpy: an index [i] of an axis of
      length [n] is valid when [-n <= i < n], a negative index counts from
      the end, anything else is an [IndexError].  The kernels that numba
      compiles (the quantizers, [_write_pixels], the confidence checks
      and the helpers of [xf_numba]) index in the same way, negative wrap
      included, but without the range check: what an access outside an
      array does there is not defined by the source.  The properties of
      these kernels are therefore stated for indices inside the arrays or
      for runs that return; none of them concludes an [IndexError] from
      an access of a compiled kernel. *)

From Stdlib Require Import QArith Qround Qabs Lqa.
From stdpp Require Import base list gmap strings.

Local Open Scope Z_scope.

(** ** Exceptions and the error monad *)

Inductive exn : Type :=
  | ZeroDivisionError
  | IndexError
  | AttributeError
  | UnboundLocalError
  | ValueError
  | TypeError
  | KeyError
  | IOError.

Inductive result (A : Type) : Type :=
  | Ok (a : A)
  | Raise (e : exn).
Arguments Ok {A} a.
Arguments Raise {A} e.

Definition result_bind {A B} (f : A → result B) (m : result A) : result B :=
  match m with
  | Ok a => f a
  | Raise e => Raise e
  end.

#[global] Instance result_ret : MRet result := @Ok.
#[global] Instance result_mbind : MBind result := @result_bind.

(** [for x in xs: s = body x s], stopping at the first exception. *)
Fixpoint for_each {A St} (xs : list A) (body : A → St → result St) (s : St)
  : result St :=
  match xs with
  | [] => Ok s
  | x :: xs' => s' ← body x s; for_each xs' body s'
  end.

(** [range(n)] *)
Definition range (n : nat) : list nat := seq 0 n.

(** [l[i]] for a loop index [i >= 0]. *)
Definition getitem {A} (l : list A) (i : nat) : result A :=
  match l !! i with
  | Some a => Ok a
  | None => Raise IndexError
  end.

(** numpy's index normalisation on one axis of length [n]. *)
Definition norm_index (n : nat) (i : Z) : result nat :=
  if bool_decide (0 ≤ i < Z.of_nat n) then Ok (Z.to_nat i)
  else if bool_decide (- Z.of_nat n ≤ i < 0) then Ok (Z.to_nat (i + Z.of_nat n))
  else Raise IndexError.

(** [l[i]] for an arbitrary integer [i]. *)
Definition getitem_Z {A} (l : list A) (i : Z) : result A :=
  k ← norm_index (length l) i; getitem l k.

(** [l[i] = x] for an arbitrary integer [i]. *)
Definition setitem_Z {A} (l : list A) (i : Z) (x : A) : result (list A) :=
  k ← norm_index (length l) i; Ok (<[k:=x]> l).

(** ** The image volume: [image[frame, row, column]] of booleans *)

Abbreviation frame := (list (list bool)).
Abbreviation volume := (list frame).

Definition volume_get (image : volume) (z y x : Z) : result bool :=
  f ← getitem_Z image z;
  r ← getitem_Z f y;
  getitem_Z r x.

Definition volume_set (image : volume) (z y x : Z) (b : bool) : result volume :=
  f ← getitem_Z image z;
  r ← getitem_Z f y;
  r' ← setitem_Z r x b;
  f' ← setitem_Z f y r';
  setitem_Z image z f'.

(** ** Quantizer *)

Record vec3 := Vec3 { v0 : Q; v1 : Q; v2 : Q }.
Record clip2 := Clip2 { c0 : Z; c1 : Z }.

(** [int(np.floor((c - base) * inv_delta))] *)
Definition quant (c base inv_delta : Q) : Z :=
  Qfloor ((c - base) * inv_delta)%Q.

(** [x < 0 or x >= clip] *)
Definition clipped (x clip : Z) : bool :=
  bool_decide (x < 0) || bool_decide (x >= clip).

(** A store into an [int32] array keeps the low 32 bits. *)
Definition int32 (v : Z) : Z :=
  (v + 2147483648) `mod` 4294967296 - 2147483648.

(** One iteration of the loop of [_quant_and_clip]: [a] is the list of the
    rows of the [int32] array written so far, so [curr = length a]. *)
Definition _quant_and_clip_body (coords : list (Q * Q)) (angles : list Q)
    (base inv_deltas : vec3) (clip_vals : clip2)
    (i : nat) (a : list (Z * Z * Z)) : result (list (Z * Z * Z)) :=
  xy ← getitem coords i;
  let x := quant xy.1 (v0 base) (v0 inv_deltas) in
  if clipped x (c0 clip_vals) then Ok a else
  let y := quant xy.2 (v1 base) (v1 inv_deltas) in
  if clipped y (c1 clip_vals) then Ok a else
  ang ← getitem angles i;
  let z := quant ang (v2 base) (v2 inv_deltas) in
  Ok (a ++ [(int32 x, int32 y, int32 z)]).

(** [_quant_and_clip]: the rows [a[:curr]]. *)
Definition _quant_and_clip (coords : list (Q * Q)) (angles : list Q)
    (base inv_deltas : vec3) (clip_vals : clip2) : result (list (Z * Z * Z)) :=
  let count := length coords in
  for_each (range count)
    (_quant_and_clip_body coords angles base inv_deltas clip_vals) [].

(** One iteration of [_write_pixels]. *)
Definition _write_pixels_body (coords : list (Q * Q)) (angles : list Q)
    (base inv_deltas : vec3) (clip_vals : clip2)
    (i : nat) (image : volume) : result volume :=
  xy ← getitem coords i;
  let x := quant xy.1 (v0 base) (v0 inv_deltas) in
  if clipped x (c0 clip_vals) then Ok image else
  let y := quant xy.2 (v1 base) (v1 inv_deltas) in
  if clipped y (c1 clip_vals) then Ok image else
  ang ← getitem angles i;
  let z := quant ang (v2 base) (v2 inv_deltas) in
  volume_set image z y x true.

(** [_write_pixels]: the image after the in-place writes. *)
Definition _write_pixels (coords : list (Q * Q)) (angles : list Q)
    (image : volume) (base inv_deltas : vec3) (clip_vals : clip2)
  : result volume :=
  let count := length coords in
  for_each (range count)
    (_write_pixels_body coords angles base inv_deltas clip_vals) image.

(** ** Confidence evaluator *)

(** One iteration of [_quant_and_clip_confidence]; the state is
    [(in_sensor, matches)]. *)
Definition _quant_and_clip_confidence_body (coords : list (Q * Q))
    (angles : list Q) (image : volume)
    (base inv_deltas : vec3) (clip_vals : clip2)
    (i : nat) (st : Z * Z) : result (Z * Z) :=
  let '(in_sensor, matches) := st in
  xy ← getitem coords i;
  let x := quant xy.1 (v0 base) (v0 inv_deltas) in
  if clipped x (c0 clip_vals) then Ok st else
  let y := quant xy.2 (v1 base) (v1 inv_deltas) in
  if clipped y (c1 clip_vals) then Ok st else
  ang ← getitem angles i;
  let z := quant ang (v2 base) (v2 inv_deltas) in
  b ← volume_get image z y x;
  Ok (in_sensor + 1, matches + (if b : bool then 1 else 0)).

(** [float(a)/float(b)] *)
Definition float_div (a b : Z) : result Q :=
  if bool_decide (b = 0) then Raise ZeroDivisionError
  else Ok (inject_Z a / inject_Z b)%Q.

(** [_quant_and_clip_confidence] *)
Definition _quant_and_clip_confidence (coords : list (Q * Q))
    (angles : list Q) (image : volume)
    (base inv_deltas : vec3) (clip_vals : clip2) : result Q :=
  let count := length coords in
  st ← for_each (range count)
         (_quant_and_clip_confidence_body coords angles image
            base inv_deltas clip_vals) (0, 0);
  float_div st.2 st.1.

(** ** Ranges and matrices *)

(** [xrange(start, stop)] *)
Definition xrange (start stop : nat) : list nat := seq start (stop - start).

(** [xrange(start, stop, step)]; a zero step is a [ValueError]. *)
Definition xrange_step (start stop step : nat) : result (list nat) :=
  if bool_decide (step = 0%nat) then Raise ValueError
  else Ok ((λ k, start + k * step)%nat
             <$> seq 0 ((stop - start + step - 1) / step)%nat).

(** The confidence matrix [confidence[grain, voxel]]. *)
Abbreviation matrix := (list (list Q)).

(** [np.empty((n_rows, n_cols))]: the cells hold whatever [junk] says. *)
Definition np_empty (junk : nat → nat → Q) (n_rows n_cols : nat) : matrix :=
  (λ i, junk i <$> seq 0 n_cols) <$> seq 0 n_rows.

(** [m[i, j] = c] for loop indices [i, j >= 0]. *)
Definition matrix_set (m : matrix) (i j : nat) (c : Q) : result matrix :=
  row ← getitem m i;
  if bool_decide (j < length row)%nat then Ok (<[i := <[j := c]> row]> m)
  else Raise IndexError.

Abbreviation mat3 := (list (list Q)).

(** ** Controller: the object that receives progress and results *)

Inductive artifact : Type :=
  | ImageStack (v : volume)
  | Confidence (m : matrix).

Inductive event : Type :=
  | EvStart (name : string) (count : nat)
  | EvUpdate (value : nat)
  | EvFinish (name : string)
  | EvResult (key : string) (value : artifact).

(** A controller is any object with the methods [start], [update],
    [finish], [handle_result], [limit], [get_chunk_size] and
    [get_process_count].  What the computation can observe of it are its
    limit functions and its two tunables; what it observes of the
    computation is the sequence of calls, recorded in [log]. *)
Record Controller := MkController {
  limits : gmap string (nat → nat);
  chunk_size : nat;
  process_count : nat;
  log : list event
}.

Definition emit (ev : event) (c : Controller) : Controller :=
  MkController (limits c) (chunk_size c) (process_count c) (log c ++ [ev]).

(** A method call on a controller argument that may be [None]. *)
Definition method (controller : option Controller) (ev : event)
  : result (option Controller) :=
  match controller with
  | None => Raise AttributeError
  | Some c => Ok (Some (emit ev c))
  end.

(** [ProcessController.limit]: a missing key leaves the value as it is. *)
Definition limit (c : Controller) (key : string) (value : nat) : nat :=
  match limits c !! key with
  | Some f => f value
  | None => value
  end.

(** The controller [build_controller] makes, with its constant tunables. *)
Definition ProcessController (lim : option nat) : Controller :=
  MkController
    (match lim with
     | Some n => {[ "coords"%string := λ x : nat, Nat.min x n ]}
     | None => ∅
     end) 100 8 [].

(** ** Experiment *)

Record Experiment {Distortion PlaneData : Type} := MkExperiment {
  n_grains : nat;
  rMat_c : list mat3;
  exp_maps : list (list Q);
  plane_data : PlaneData;
  ome_range : list (Q * Q);
  ncols : nat;
  nrows : nat;
  nframes : nat;
  rMat_d : mat3;
  tVec_d : list Q;
  chi : Q;
  tVec_s : list Q;
  row_dilation : nat;
  col_dilation : nat;
  distortion : option Distortion;
  base : vec3;
  inv_deltas : vec3;
  clip_vals : clip2
}.
Arguments Experiment : clear implicits.

(** ** Arrays that are shared by reference *)

Abbreviation loc := positive.
Abbreviation heap := (gmap loc volume).

(** The files [np.load] can read, by name. *)
Abbreviation files := (gmap string volume).

(** The array a reference points to. *)
Definition deref (h : heap) (l : loc) : volume := default [] (h !! l).

(** [np.empty_like(v)]: same shape, cells hold whatever [junk] says. *)
Definition np_empty_like (junk : nat → nat → nat → bool) (v : volume) : volume :=
  imap (λ z f, imap (λ y r, imap (λ x _, junk z y x) r) f) v.

(** [np.zeros((nframes, nrows, ncols), dtype=bool)] *)
Definition np_zeros3 (nf nr nc : nat) : volume :=
  replicate nf (replicate nr (replicate nc false)).

(** [np.ones((h, w), dtype=np.uint8)] *)
Definition np_ones2 (h w : nat) : list (list Z) := replicate h (replicate w 1).

(** The zero-initialised shared array of the worker pool, reshaped. *)
Definition shared_array (n_rows n_cols : nat) : matrix :=
  replicate n_rows (replicate n_cols 0%Q).

Section Core.

Context {Distortion PlaneData : Type}.
Abbreviation Exp := (Experiment Distortion PlaneData).

(** The collaborators that live outside this repository's core:
    [xrdutil._project_on_detector_plane], [skimage.morphology.dilation]
    and the chain [makeRotMatOfExpMap], [oscillAnglesOfHKLs],
    [_filter_hkls_eta_ome], [mapAngle] that yields a grain's angles. *)
Variable _project_on_detector_plane :
  list vec3 → mat3 → mat3 → Q → list Q → list Q → list Q →
  option Distortion → list (Q * Q) * list mat3.
Variable ski_dilation : frame → list (list Z) → frame.
Variable makeRotMatOfExpMap : list Q → mat3.
Variable filtered_angles :
  PlaneData → Q → mat3 → list Q → list (Q * Q) → list vec3.

(** The value [_grand_loop_inner] computes for one (voxel, grain) pair. *)
Definition cell_score (image_stack : volume) (angles : list (list vec3))
    (coords : list (list Q)) (experiment : Exp) (icrd igrn : nat) : result Q :=
  angs ← getitem angles igrn;
  rC ← getitem (rMat_c experiment) igrn;
  crd ← getitem coords icrd;
  let '(det_xy, rMat_ss) :=
    _project_on_detector_plane angs (rMat_d experiment) rC (chi experiment)
      (tVec_d experiment) crd (tVec_s experiment) (distortion experiment) in
  _quant_and_clip_confidence det_xy (v2 <$> angs) image_stack
    (base experiment) (inv_deltas experiment) (clip_vals experiment).

(** One iteration of [_grand_loop_inner], for the pair [(icrd, igrn)]. *)
Definition _grand_loop_inner_body (image_stack : volume)
    (angles : list (list vec3)) (coords : list (list Q)) (experiment : Exp)
    (p : nat * nat) (confidence : matrix) : result matrix :=
  let '(icrd, igrn) := p in
  c ← cell_score image_stack angles coords experiment icrd igrn;
  matrix_set confidence igrn icrd c.

(** [_grand_loop_inner]: the matrix after the in-place writes. *)
Definition _grand_loop_inner (confidence : matrix) (image_stack : volume)
    (angles : list (list vec3)) (coords : list (list Q)) (experiment : Exp)
    (start : nat) (stop : option nat) : result matrix :=
  let n_coords := length coords in
  let n_angles := length angles in
  let stop := default n_coords stop in
  for_each (list_prod (xrange start stop) (xrange 0 n_angles))
    (_grand_loop_inner_body image_stack angles coords experiment) confidence.

(** The tuple [multiproc_state] stores in the global [_mp_state]. *)
Record MpState := MkMpState {
  mp_chunk_size : nat;
  mp_confidence : matrix;
  mp_image_stack : volume;
  mp_angles : list (list vec3);
  mp_coords : list (list Q);
  mp_experiment : Exp
}.

(** [multiproc_inner_loop]: [confidence] is the current content of the
    shared array of [_mp_state]. *)
Definition multiproc_inner_loop (_mp_state : MpState) (confidence : matrix)
    (chunk : nat) : result matrix :=
  let chunk_size := mp_chunk_size _mp_state in
  let n_coords := length (mp_coords _mp_state) in
  let chunk_stop := (n_coords `min` (chunk + chunk_size))%nat in
  _grand_loop_inner confidence (mp_image_stack _mp_state)
    (mp_angles _mp_state) (mp_coords _mp_state) (mp_experiment _mp_state)
    chunk (Some chunk_stop).

(** *** The dilation pass of [_grand_loop_precomp] *)

(** One call [ski_dilation(image_stack[i], dilation_shape,
    out=image_stack_dilated[i])]: the frame is read through the input
    reference and the result is written through the output reference. *)
Definition dilate_body (image_stack image_stack_dilated : loc)
    (dilation_shape : list (list Z)) (i_image : nat)
    (st : heap * Controller) : result (heap * Controller) :=
  let '(h, controller) := st in
  src ← getitem (deref h image_stack) i_image;
  let out := deref h image_stack_dilated in
  _ ← getitem out i_image;
  let h := <[image_stack_dilated :=
               <[i_image := ski_dilation src dilation_shape]> out]> h in
  Ok (h, emit (EvUpdate (i_image + 1)) controller).

(** The pass: [np.empty_like] allocates the output at a reference that
    is not in use; [junk] is what the new memory holds. *)
Definition dilate_pass (junk : nat → nat → nat → bool) (h : heap)
    (image_stack : loc) (experiment : Exp) (controller : Controller)
  : result (loc * heap * Controller) :=
  let subprocess := "dilate image_stack"%string in
  let dilation_shape := np_ones2 (2 * row_dilation experiment + 1)
                                 (2 * col_dilation experiment + 1) in
  let image_stack_dilated := fresh (dom h) in
  let h := <[image_stack_dilated := np_empty_like junk (deref h image_stack)]> h in
  let n_images := length (deref h image_stack) in
  let controller := emit (EvStart subprocess n_images) controller in
  '(h, controller) ← for_each (range n_images)
      (dilate_body image_stack image_stack_dilated dilation_shape)
      (h, controller);
  let controller := emit (EvFinish subprocess) controller in
  Ok (image_stack_dilated, h, controller).

(** *** The chunk loop of [_grand_loop_precomp] *)

(** One iteration of the serial branch. *)
Definition serial_body (n_coords chunk_size : nat)
    (image_stack_dilated : volume) (all_angles : list (list vec3))
    (test_crds : list (list Q)) (experiment : Exp) (chunk_start : nat)
    (st : matrix * nat * Controller) : result (matrix * nat * Controller) :=
  let '(confidence, finished, controller) := st in
  let chunk_stop := (n_coords `min` (chunk_start + chunk_size))%nat in
  confidence ← _grand_loop_inner confidence image_stack_dilated all_angles
                  test_crds experiment chunk_start (Some chunk_stop);
  let finished := (finished + 1)%nat in
  Ok (confidence, finished, emit (EvUpdate finished) controller).

(** One result of [pool.imap_unordered(multiproc_inner_loop, chunks)]. *)
Definition parallel_body (_mp_state : MpState) (chunk : nat)
    (st : matrix * nat * Controller) : result (matrix * nat * Controller) :=
  let '(confidence, finished, controller) := st in
  confidence ← multiproc_inner_loop _mp_state confidence chunk;
  let finished := (finished + 1)%nat in
  Ok (confidence, finished, emit (EvUpdate finished) controller).

(** From [n_grains = experiment.n_grains] to the end of
    [_grand_loop_precomp].  [sched] is the order in which the pool hands
    the chunks to [multiproc_inner_loop] ([imap_unordered] promises none);
    [junk] is the content of the uninitialised matrix of the serial
    branch. *)
Definition chunk_loop (sched : list nat → list nat) (junk : nat → nat → Q)
    (image_stack_dilated : volume) (all_angles : list (list vec3))
    (test_crds : list (list Q)) (experiment : Exp) (controller : Controller)
  : result (matrix * Controller) :=
  let n_grains := n_grains experiment in
  let n_coords := limit controller "coords" (length test_crds) in
  let subprocess := "grand_loop"%string in
  let chunk_size := chunk_size controller in
  let ncpus := process_count controller in
  chunks ← xrange_step 0 n_coords chunk_size;
  let controller := emit (EvStart subprocess (length chunks)) controller in
  let finished := 0%nat in
  '(confidence, finished, controller) ←
    (if bool_decide (1 < ncpus)%nat then
       let confidence := shared_array n_grains n_coords in
       let _mp_state := MkMpState chunk_size confidence image_stack_dilated
                          all_angles test_crds experiment in
       for_each (sched chunks) (parallel_body _mp_state)
         (confidence, finished, controller)
     else
       let confidence := np_empty junk n_grains n_coords in
       for_each chunks
         (serial_body n_coords chunk_size image_stack_dilated all_angles
            test_crds experiment)
         (confidence, finished, controller));
  let controller := emit (EvFinish subprocess) controller in
  let controller := emit (EvResult "confidence" (Confidence confidence))
                      controller in
  Ok (confidence, controller).

(** [_grand_loop_precomp]: the dilation pass, then the chunk loop on the
    dilated stack. *)
Definition _grand_loop_precomp (sched : list nat → list nat)
    (junkV : nat → nat → nat → bool) (junkM : nat → nat → Q) (h : heap)
    (image_stack : loc) (all_angles : list (list vec3))
    (test_crds : list (list Q)) (experiment : Exp) (controller : Controller)
  : result (heap * Controller) :=
  '(image_stack_dilated, h, controller) ←
    dilate_pass junkV h image_stack experiment controller;
  '(_, controller) ←
    chunk_loop sched junkM (deref h image_stack_dilated) all_angles
      test_crds experiment controller;
  Ok (h, controller).

(** *** Forward simulation and its cache *)

(** The work of [simulate_diffractions] for grain [i]. *)
Definition simulate_body (grain_params : list (list Q)) (experiment : Exp)
    (i : nat) (st : volume * option Controller)
  : result (volume * option Controller) :=
  let '(image_stack, controller) := st in
  gp ← getitem grain_params i;
  let rC := makeRotMatOfExpMap (take 3 gp) in
  let tC := take 3 (drop 3 gp) in
  let vInv_s := take 6 (drop 6 gp) in
  let all_angs := filtered_angles (plane_data experiment) (chi experiment)
                    rC vInv_s (ome_range experiment) in
  let '(det_xy, _) :=
    _project_on_detector_plane all_angs (rMat_d experiment) rC
      (chi experiment) (tVec_d experiment) tC (tVec_s experiment)
      (distortion experiment) in
  image_stack ← _write_pixels det_xy (v2 <$> all_angs) image_stack
                  (base experiment) (inv_deltas experiment)
                  (clip_vals experiment);
  controller ← method controller (EvUpdate (i + 1));
  Ok (image_stack, controller).

(** [simulate_diffractions] *)
Definition simulate_diffractions (grain_params : list (list Q))
    (experiment : Exp) (controller : option Controller)
  : result (volume * option Controller) :=
  let image_stack := np_zeros3 (nframes experiment) (nrows experiment)
                       (ncols experiment) in
  let count := length grain_params in
  let subprocess := "simulate diffractions"%string in
  controller ← method controller (EvStart subprocess count);
  '(image_stack, controller) ←
    for_each (range count) (simulate_body grain_params experiment)
      (image_stack, controller);
  controller ← method controller (EvFinish subprocess);
  Ok (image_stack, controller).

(** [np.load(cache_file)] *)
Definition np_load (fs : files) (cache_file : string) : result volume :=
  match fs !! cache_file with
  | Some v => Ok v
  | None => Raise IOError
  end.

(** [s.endswith(suffix)] *)
Definition endswith (s suffix : string) : bool :=
  bool_decide (String.length suffix ≤ String.length s)%nat &&
  String.eqb (String.substring (String.length s - String.length suffix)
                (String.length suffix) s) suffix.

(** [np.save(file, arr)]: numpy appends the extension [.npy] to a file
    name that does not end in it. *)
Definition np_save (fs : files) (file : string) (arr : volume) : files :=
  let file := if endswith file ".npy" then file else (file +:+ ".npy")%string in
  <[file := arr]> fs.

(** [get_simulate_diffractions]; [controller] defaults to [None]. *)
Definition get_simulate_diffractions (fs : files)
    (grain_params : list (list Q)) (experiment : Exp)
    (cache_file : string) (controller : option Controller)
  : result (volume * files * option Controller) :=
  '(image_stack, fs, controller) ←
    match np_load fs cache_file with
    | Ok image_stack => Ok (image_stack, fs, controller)
    | Raise _ =>
        '(image_stack, controller) ←
          simulate_diffractions grain_params experiment controller;
        Ok (image_stack, np_save fs cache_file image_stack, controller)
    end;
  controller ← method controller (EvResult "image_stack" (ImageStack image_stack));
  Ok (image_stack, fs, controller).

End Core.

(** ** The checking result handler *)

(** The artifacts that are checked, [confidence] and [grain_params], are
    two-dimensional: [len] is the number of rows, a slice [a[:n]] keeps
    the first [n] rows, and every row has [width] entries. *)
Record array2 := MkArray2 { width : nat; rows : list (list Q) }.

Definition len (a : array2) : nat := length (rows a).

(** [a[:n]] *)
Definition slice_to (n : nat) (a : array2) : array2 :=
  MkArray2 (width a) (take n (rows a)).

(** [abs(a - b) <= atol + rtol * abs(b)] with numpy's default tolerances. *)
Definition isclose (a b : Q) : bool :=
  Qle_bool (Qabs (a - b)) ((1 # 100000000) + (1 # 100000) * Qabs b)%Q.

(** [f] holds of every pair of entries at the same position. *)
Fixpoint all2 (f : Q → Q → bool) (xs ys : list Q) : bool :=
  match xs, ys with
  | x :: xs', y :: ys' => f x y && all2 f xs' ys'
  | _, _ => true
  end.

(** Two rows whose widths broadcast against each other. *)
Definition rows_close (wa wb : nat) (ra rb : list Q) : bool :=
  if bool_decide (wa = wb) then all2 isclose ra rb
  else if bool_decide (wa = 1%nat) then
    match ra with a :: _ => forallb (isclose a) rb | [] => true end
  else
    match rb with b :: _ => forallb (λ a, isclose a b) ra | [] => true end.

Fixpoint all_rows_close (wa wb : nat) (xs ys : list (list Q)) : bool :=
  match xs, ys with
  | x :: xs', y :: ys' => rows_close wa wb x y && all_rows_close wa wb xs' ys'
  | _, _ => true
  end.

(** Shapes [(n, wa)] and [(n, wb)] broadcast when the widths agree or one
    of them is 1. *)
Definition broadcastable (a b : array2) : bool :=
  bool_decide (len a = len b) &&
  (bool_decide (width a = width b) || bool_decide (width a = 1%nat)
   || bool_decide (width b = 1%nat)).

(** [np.allclose(a, b)] *)
Definition np_allclose (a b : array2) : result bool :=
  if broadcastable a b
  then Ok (all_rows_close (width a) (width b) (rows a) (rows b))
  else Raise ValueError.

(** What the handler writes to the log. *)
Inductive report : Type :=
  | KeyWarning        (* the KeyError of the reference lookup *)
  | NoReference       (* 'key': No reference result. *)
  | FAIL
  | PARTIAL_PASS
  | FULL_PASS
  | CheckFailure.     (* key: Failure trying to check the results. *)

(** The body of the second [try] of [handle_result]. *)
Definition check_against (reference : option array2) (value : array2)
  : result (list report) :=
  reference ← match reference with
              | Some r => Ok r
              | None => Raise TypeError     (* len(None) *)
              end;
  let check_len := (len reference `min` len value)%nat in
  test_passed ← np_allclose (slice_to check_len value)
                            (slice_to check_len reference);
  if negb test_passed then Ok [FAIL; FAIL]
  else if bool_decide (check_len < len value)%nat then Ok [PARTIAL_PASS]
  else Ok [FULL_PASS].

(** [CheckingResultHandler.handle_result]: the messages it logs. *)
Definition handle_result (reference_results : gmap string array2)
    (key : string) (value : array2) : list report :=
  if bool_decide (key ∈ ["experiment"; "image_stack"]%string) then []
  else
    let '(reference, log1) :=
      match reference_results !! key with
      | Some r => (Some r, [])
      | None => (None, [KeyWarning])
      end in
    let log2 := match reference with
                | None => [NoReference]
                | Some _ => []
                end in
    let log3 := match check_against reference value with
                | Ok msgs => msgs
                | Raise _ => [CheckFailure]
                end in
    log1 ++ log2 ++ log3.

(** ** [make_beam_rmat] *)

Section BeamRmat.

(** float64 and its operations.  Division is the one operation whose
    behaviour at zero depends on how the function is run (numpy yields
    inf or nan, compiled code may raise), so [fdiv] returns a [result].
    [sqrt_epsf] is [constants.sqrt_epsf]. *)
Variable float : Type.
Variables fadd fsub fmul : float → float → float.
Variable fneg fsqrt : float → float.
Variable fdiv : float → float → result float.
Variable flt : float → float → bool.
Variable sqrt_epsf : float.

Record fvec3 := FVec3 { f0 : float; f1 : float; f2 : float }.

(** [v[i]] on a 3-vector *)
Definition fvec_get (v : fvec3) (i : nat) : result float :=
  match i with
  | 0%nat => Ok (f0 v)
  | 1%nat => Ok (f1 v)
  | 2%nat => Ok (f2 v)
  | _ => Raise IndexError
  end.

Definition fmat := list (list float).

(** Reading a local variable that is assigned somewhere in the function:
    before its first assignment it is unbound. *)
Definition load {A} (var : option A) : result A :=
  match var with
  | Some a => Ok a
  | None => Raise UnboundLocalError
  end.

Definition fmat_get (m : fmat) (i j : nat) : result float :=
  r ← getitem m i; getitem r j.

Definition fmat_set (m : fmat) (i j : nat) (x : float) : result fmat :=
  r ← getitem m i;
  if bool_decide (j < length r)%nat then Ok (<[i := <[j := x]> r]> m)
  else Raise IndexError.

(** [np.empty((3,3))] *)
Definition np_empty33 (junk : float) : fmat := replicate 3 (replicate 3 junk).

Definition sq (x : float) : float := fmul x x.

(** [out[i, 2] = -bvec_l[i] / bvec_mag]: the right-hand side is evaluated
    first, then the target [out] is loaded. *)
Definition assign_Ze_body (bvec_l : fvec3) (bvec_mag : float) (i : nat)
    (out : option fmat) : result (option fmat) :=
  b ← fvec_get bvec_l i;
  q ← fdiv (fneg b) bvec_mag;
  m ← load out;
  m ← fmat_set m i 2 q;
  Ok (Some m).

Definition make_beam_rmat (junk : float) (bvec_l evec_l : fvec3) : result fmat :=
  let out : option fmat := None in
  let bvec_mag := fsqrt (fadd (fadd (sq (f0 bvec_l)) (sq (f1 bvec_l)))
                              (sq (f2 bvec_l))) in
  let _ := if flt bvec_mag sqrt_epsf then tt else tt in
  out ← for_each (range 3) (assign_Ze_body bvec_l bvec_mag) out;
  Ze0 ← fdiv (fneg (f0 bvec_l)) bvec_mag;
  Ze1 ← fdiv (fneg (f1 bvec_l)) bvec_mag;
  Ze2 ← fdiv (fneg (f2 bvec_l)) bvec_mag;
  let Ye0 := fsub (fmul Ze1 (f2 evec_l)) (fmul (f1 evec_l) Ze2) in
  let Ye1 := fsub (fmul Ze2 (f0 evec_l)) (fmul (f2 evec_l) Ze0) in
  let Ye2 := fsub (fmul Ze0 (f1 evec_l)) (fmul (f0 evec_l) Ze1) in
  let Ye_mag := fsqrt (fadd (fadd (sq Ye0) (sq Ye1)) (sq Ye2)) in
  let _ := if flt Ye_mag sqrt_epsf then tt else tt in
  let out := Some (np_empty33 junk) in
  Ye0 ← fdiv Ye0 Ye_mag;
  Ye1 ← fdiv Ye1 Ye_mag;
  Ye2 ← fdiv Ye2 Ye_mag;
  let Xe0 := fsub (fmul Ye1 Ze2) (fmul Ze1 Ye2) in
  let Xe1 := fsub (fmul Ye2 Ze0) (fmul Ze2 Ye0) in
  let Xe2 := fsub (fmul Ye0 Ze1) (fmul Ze0 Ye1) in
  q ← fdiv Ye0 Ye_mag; m ← load out; m ← fmat_set m 0 1 q;
  q ← fdiv Ye1 Ye_mag; m ← fmat_set m 1 1 q;
  q ← fdiv Ye2 Ye_mag; m ← fmat_set m 2 1 q;
  a ← fmat_get m 1 1; b ← fmat_get m 2 2;
  c ← fmat_get m 1 2; d ← fmat_get m 2 1;
  m ← fmat_set m 0 0 (fsub (fmul a b) (fmul c d));
  a ← fmat_get m 2 1; b ← fmat_get m 0 2;
  c ← fmat_get m 2 2; d ← fmat_get m 0 1;
  m ← fmat_set m 1 0 (fsub (fmul a b) (fmul c d));
  a ← fmat_get m 0 1; b ← fmat_get m 1 2;
  c ← fmat_get m 0 2; d ← fmat_get m 1 1;
  m ← fmat_set m 2 0 (fsub (fmul a b) (fmul c d));
  Ok m.

End BeamRmat.

(** ** The neighbourhood check of the first grand loop *)

(** [for x in xs: if test(x): return True], and [False] after the loop. *)
Fixpoint first_hit {A} (xs : list A) (test : A → result bool) : result bool :=
  match xs with
  | [] => Ok false
  | x :: xs' => b ← test x; if b : bool then Ok true else first_hit xs' test
  end.

(** [range(a, b)] over the integers *)
Definition rangeZ (a b : Z) : list Z := seqZ a (b - a).

(** [_check_with_dilation]: 1.0 at the first lit pixel of the window. *)
Definition _check_with_dilation (image_stack : volume)
    (frame_index row_index col_index : Z)
    (row_dilation col_dilation nrows ncols : Z) : result Q :=
  let min_row := Z.max (row_index - row_dilation) 0 in
  let max_row := Z.min (row_index + row_dilation + 1) nrows in
  let min_col := Z.max (col_index - col_dilation) 0 in
  let max_col := Z.min (col_index + col_dilation + 1) ncols in
  found ← first_hit (rangeZ min_row max_row) (λ r,
             first_hit (rangeZ min_col max_col) (λ c,
               volume_get image_stack frame_index r c));
  Ok (if found : bool then 1 else 0)%Q.

(** [acc_confidence/float(count)] *)
Definition over_count (acc : Q) (count : nat) : result Q :=
  if bool_decide (count = 0%nat) then Raise ZeroDivisionError
  else Ok (acc / inject_Z (Z.of_nat count))%Q.

(** One iteration of [_confidence_check]. *)
Definition _confidence_check_body (image_stack : volume)
    (frame_indices row_indices col_indices : list Z)
    (row_dilation col_dilation nrows ncols : Z)
    (current : nat) (acc_confidence : Q) : result Q :=
  f ← getitem frame_indices current;
  r ← getitem row_indices current;
  c ← getitem col_indices current;
  val ← _check_with_dilation image_stack f r c row_dilation col_dilation
          nrows ncols;
  Ok (acc_confidence + val)%Q.

(** [_confidence_check] *)
Definition _confidence_check (image_stack : volume)
    (frame_indices row_indices col_indices : list Z)
    (row_dilation col_dilation nrows ncols : Z) : result Q :=
  let count := length frame_indices in
  acc_confidence ← for_each (range count)
      (_confidence_check_body image_stack frame_indices row_indices
         col_indices row_dilation col_dilation nrows ncols) 0%Q;
  over_count acc_confidence count.

(** One iteration of [_confidence_check_dilated]: a boolean added to a
    float counts 1.0 or 0.0. *)
Definition _confidence_check_dilated_body (image_stack_dilated : volume)
    (frame_indices row_indices col_indices : list Z)
    (current : nat) (acc_confidence : Q) : result Q :=
  f ← getitem frame_indices current;
  r ← getitem row_indices current;
  c ← getitem col_indices current;
  b ← volume_get image_stack_dilated f r c;
  Ok (acc_confidence + (if b : bool then 1 else 0))%Q.

(** [_confidence_check_dilated] *)
Definition _confidence_check_dilated (image_stack_dilated : volume)
    (frame_indices row_indices col_indices : list Z) : result Q :=
  let count := length frame_indices in
  acc_confidence ← for_each (range count)
      (_confidence_check_dilated_body image_stack_dilated frame_indices
         row_indices col_indices) 0%Q;
  over_count acc_confidence count.

Section FirstGrandLoop.

Context {Distortion PlaneData : Type}.
Variable _project_on_detector_plane :
  list vec3 → mat3 → mat3 → Q → list Q → list Q → list Q →
  option Distortion → list (Q * Q) * list mat3.

(** The body of the inner loop of [_grand_loop]. *)
Definition _grand_loop_cell (image_stack : volume)
    (all_angles : list (list vec3)) (test_crds : list (list Q))
    (experiment : Experiment Distortion PlaneData) (icrd igrn : nat)
    (confidence : matrix) : result matrix :=
  angles ← getitem all_angles igrn;
  rC ← getitem (rMat_c experiment) igrn;
  crd ← getitem test_crds icrd;
  let '(det_xy, rMat_ss) :=
    _project_on_detector_plane angles (rMat_d experiment) rC (chi experiment)
      (tVec_d experiment) crd (tVec_s experiment) (distortion experiment) in
  indices ← _quant_and_clip det_xy (v2 <$> angles) (base experiment)
               (inv_deltas experiment) (clip_vals experiment);
  let col_indices := (λ p : Z * Z * Z, p.1.1) <$> indices in
  let row_indices := (λ p : Z * Z * Z, p.1.2) <$> indices in
  let frame_indices := (λ p : Z * Z * Z, p.2) <$> indices in
  c ← _confidence_check image_stack frame_indices row_indices col_indices
         (Z.of_nat (row_dilation experiment))
         (Z.of_nat (col_dilation experiment))
         (Z.of_nat (nrows experiment)) (Z.of_nat (ncols experiment));
  matrix_set confidence igrn icrd c.

(** The body of the outer loop of [_grand_loop]. *)
Definition _grand_loop_body (image_stack : volume)
    (all_angles : list (list vec3)) (test_crds : list (list Q))
    (experiment : Experiment Distortion PlaneData) (n_grains icrd : nat)
    (st : matrix * Controller) : result (matrix * Controller) :=
  let '(confidence, controller) := st in
  confidence ← for_each (range n_grains)
      (_grand_loop_cell image_stack all_angles test_crds experiment icrd)
      confidence;
  Ok (confidence, emit (EvUpdate (icrd * n_grains)) controller).

(** [_grand_loop]; [junk] is the content of the uninitialised matrix. *)
Definition _grand_loop (junk : nat → nat → Q) (image_stack : volume)
    (all_angles : list (list vec3)) (test_crds : list (list Q))
    (experiment : Experiment Distortion PlaneData) (controller : Controller)
  : result (matrix * Controller) :=
  let n_grains := n_grains experiment in
  let n_coords := limit controller "coords" (length test_crds) in
  let confidence := np_empty junk n_grains n_coords in
  let subprocess := "grand_loop"%string in
  let controller := emit (EvStart subprocess (n_coords * n_grains)) controller in
  '(confidence, controller) ← for_each (range n_coords)
      (_grand_loop_body image_stack all_angles test_crds experiment n_grains)
      (confidence, controller);
  let controller := emit (EvFinish subprocess) controller in
  let controller := emit (EvResult "confidence" (Confidence confidence))
                      controller in
  Ok (confidence, controller).

End FirstGrandLoop.

(** ** The [ProcessController] class *)

(** The calls a progress observer receives. *)
Inductive po_call : Type :=
  | PoStart (name : string) (count : nat)
  | PoUpdate (value : nat)
  | PoFinish.

(** The three result handlers of the script, with what they hold. *)
Inductive result_handler : Type :=
  | ForgetfulResultHandler
  | SavingResultHandler (filename : string) (arrays : gmap string artifact)
  | CheckingResultHandler (reference_results : gmap string array2).

(** The records the controller's methods send to [logging]. *)
Inductive log_record : Type :=
  | Took (name : string) (total per_item : Q)   (* info *)
  | HandleResult (key : string)                 (* debug *)
  | Overwriting (key : string)                  (* warn *)
  | CouldNotLimit (key : string)                (* warn *)
  | GenerateAndCheck.                           (* warn, build_controller *)

(** An instance: the handler and observer it was built with ([None] when
    the argument was left out), the observer's received calls, the limit
    functions, the timing stack with its top at the end as [append] and
    [pop] have it, and the log records written so far. *)
Record process_controller := MkProcessController {
  rh : option result_handler;
  po : option (list po_call);
  pc_limits : gmap string (nat → result nat);
  timing : list (string * nat * Q);
  logging : list log_record
}.

(** [ProcessController.__init__] *)
Definition new_controller (result_handler : option result_handler)
    (progress_observer : option (list po_call)) : process_controller :=
  MkProcessController result_handler progress_observer ∅ [] [].

(** What a method can raise: the builtin exceptions and the [assert] of
    [finish]. *)
Inductive pyexn : Type :=
  | AssertionError
  | Builtin (e : exn).

(** A method call ends with the object as the call left it and, if it
    raised, the exception. *)
Abbreviation outcome := (process_controller * option pyexn)%type.

(** [self.po.<method>(..)] *)
Definition observe (self : process_controller) (call : po_call)
  : option process_controller :=
  match po self with
  | None => None
  | Some calls =>
      Some (MkProcessController (rh self) (Some (calls ++ [call]))
              (pc_limits self) (timing self) (logging self))
  end.

(** [list.pop()] *)
Definition pop {A} (l : list A) : option (list A * A) :=
  match reverse l with
  | [] => None
  | x :: r => Some (reverse r, x)
  end.

(** [ProcessController.start]; [t] is the reading of [time.time()]. *)
Definition start (self : process_controller) (name : string) (count : nat)
    (t : Q) : outcome :=
  match observe self (PoStart name count) with
  | None => (self, Some (Builtin AttributeError))
  | Some self =>
      (MkProcessController (rh self) (po self) (pc_limits self)
         (timing self ++ [(name, count, t)]) (logging self), None)
  end.

(** [ProcessController.finish] *)
Definition finish (self : process_controller) (name : string) (t : Q)
  : outcome :=
  match observe self PoFinish with
  | None => (self, Some (Builtin AttributeError))
  | Some self =>
      match pop (timing self) with
      | None => (self, Some (Builtin IndexError))
      | Some (rest, entry) =>
          let self := MkProcessController (rh self) (po self)
                        (pc_limits self) rest (logging self) in
          if negb (String.eqb name entry.1.1) then (self, Some AssertionError)
          else
            let total := (t - entry.2)%Q in
            if bool_decide (entry.1.2 = 0%nat)
            then (self, Some (Builtin ZeroDivisionError))
            else
              (MkProcessController (rh self) (po self) (pc_limits self)
                 (timing self)
                 (logging self ++
                    [Took entry.1.1 total
                       (total / inject_Z (Z.of_nat entry.1.2))%Q]),
               None)
      end
  end.

(** [ProcessController.update] *)
Definition update (self : process_controller) (value : nat) : outcome :=
  match observe self (PoUpdate value) with
  | None => (self, Some (Builtin AttributeError))
  | Some self => (self, None)
  end.

(** What [handle_result] does to each kind of handler: the saving one
    stores the value under its key, the others keep nothing (what the
    checking one reports is [handle_result] above). *)
Definition rh_handle_result (h : result_handler) (key : string)
    (value : artifact) : result_handler :=
  match h with
  | SavingResultHandler filename arrays =>
      SavingResultHandler filename (<[key := value]> arrays)
  | _ => h
  end.

(** [ProcessController.handle_result] *)
Definition pc_handle_result (self : process_controller) (key : string)
    (value : artifact) : outcome :=
  let self := MkProcessController (rh self) (po self) (pc_limits self)
                (timing self) (logging self ++ [HandleResult key]) in
  match rh self with
  | None => (self, Some (Builtin AttributeError))
  | Some h =>
      (MkProcessController (Some (rh_handle_result h key value)) (po self)
         (pc_limits self) (timing self) (logging self), None)
  end.

(** [ProcessController.set_limit] *)
Definition set_limit (self : process_controller) (key : string)
    (limit_function : nat → result nat) : process_controller :=
  let logging :=
    if bool_decide (is_Some (pc_limits self !! key))
    then logging self ++ [Overwriting key] else logging self in
  MkProcessController (rh self) (po self)
    (<[key := limit_function]> (pc_limits self)) (timing self) logging.

(** [ProcessController.limit]: the object after the call and the value
    returned.  A KeyError, of the lookup or of the limit function, is
    passed over in silence; any other exception is logged. *)
Definition pc_limit (self : process_controller) (key : string) (value : nat)
  : process_controller * nat :=
  match pc_limits self !! key with
  | None => (self, value)
  | Some f =>
      match f value with
      | Ok v => (self, v)
      | Raise KeyError => (self, value)
      | Raise _ =>
          (MkProcessController (rh self) (po self) (pc_limits self)
             (timing self) (logging self ++ [CouldNotLimit key]), value)
      end
  end.

(** [get_process_count], [get_chunk_size] *)
Definition get_process_count (self : process_controller) : nat := 8.
Definition get_chunk_size (self : process_controller) : nat := 100.

(** The command line, as [parse_args] returns it. *)
Record Args := MkArgs {
  inst_profile : option (list string);
  generate : option string;
  check : option string;
  args_limit : option nat
}.

(** [checking_result_handler]: the reference file is loaded when the
    handler is made. *)
Definition checking_result_handler
    (reference_files : gmap string (gmap string array2)) (filename : string)
  : result result_handler :=
  match reference_files !! filename with
  | Some reference_results => Ok (CheckingResultHandler reference_results)
  | None => Raise IOError
  end.

(** [saving_result_handler] *)
Definition saving_result_handler (filename : string) : result_handler :=
  SavingResultHandler filename ∅.

(** [build_controller]; the progress bar starts with no calls received,
    and the warning about [--generate] beside [--check] goes to the same
    log as the controller's records. *)
Definition build_controller
    (reference_files : gmap string (gmap string array2)) (args : Args)
  : result process_controller :=
  let progress_handler : list po_call := [] in
  let warned := match check args, generate args with
                | Some _, Some _ => [GenerateAndCheck]
                | _, _ => []
                end in
  result_handler ←
    match check args, generate args with
    | Some filename, _ => checking_result_handler reference_files filename
    | None, Some filename => Ok (saving_result_handler filename)
    | None, None => Ok ForgetfulResultHandler
    end;
  let controller := new_controller (Some result_handler)
                      (Some progress_handler) in
  let controller := MkProcessController (rh controller) (po controller)
                      (pc_limits controller) (timing controller)
                      (warned ++ logging controller) in
  match args_limit args with
  | Some n => Ok (set_limit controller "coords" (λ x, Ok (x `min` n)%nat))
  | None => Ok controller
  end.

(** ** [xf_numba]: the row-wise helpers *)

Section XfNumba.

(** float64 and its operations, as for [make_beam_rmat]: [epsf] is
    [constants.epsf], [half] and [fzero] are the literals 0.5 and 0.0. *)
Variable float : Type.
Variables fadd fmul : float → float → float.
Variables fneg fsqrt fcos fsin : float → float.
Variable fdiv : float → float → result float.
Variable fgt : float → float → bool.
Variables epsf half fzero : float.

(** A two-dimensional array with its shape, which it has also when it
    holds no row. *)
Record ndarray2 := NdArray2 {
  shape0 : nat;
  shape1 : nat;
  items : list (list float)
}.

(** [np.empty((n_rows, n_cols))] *)
Definition np_empty_f (junk : nat → nat → float) (n_rows n_cols : nat)
  : list (list float) :=
  (λ i, junk i <$> seq 0 n_cols) <$> seq 0 n_rows.

(** One iteration of [_angles_to_gvec_helper]. *)
Definition _angles_to_gvec_helper_body (angs : list (list float)) (i : nat)
    (out : list (list float)) : result (list (list float)) :=
  a0 ← fmat_get float angs i 0;
  let ca0 := fcos (fmul half a0) in
  let sa0 := fsin (fmul half a0) in
  a1 ← fmat_get float angs i 1;
  let ca1 := fcos a1 in
  let sa1 := fsin a1 in
  out ← fmat_set float out i 0 (fmul ca0 ca1);
  out ← fmat_set float out i 1 (fmul ca0 sa1);
  fmat_set float out i 2 sa0.

(** [_angles_to_gvec_helper]: the output array, when none is passed, has
    as many rows as [angs] has columns. *)
Definition _angles_to_gvec_helper (junk : nat → nat → float)
    (angs : ndarray2) (out : option (list (list float)))
  : result (list (list float)) :=
  let dim := shape1 angs in
  let out := match out with
             | Some out => out
             | None => np_empty_f junk dim 3
             end in
  for_each (range (shape0 angs)) (_angles_to_gvec_helper_body (items angs))
    out.

(** One iteration of [_angles_to_dvec_helper]. *)
Definition _angles_to_dvec_helper_body (angs : list (list float)) (i : nat)
    (out : list (list float)) : result (list (list float)) :=
  a0 ← fmat_get float angs i 0;
  let ca0 := fcos a0 in
  let sa0 := fsin a0 in
  a1 ← fmat_get float angs i 1;
  let ca1 := fcos a1 in
  let sa1 := fsin a1 in
  out ← fmat_set float out i 0 (fmul sa0 ca1);
  out ← fmat_set float out i 1 (fmul sa0 sa1);
  fmat_set float out i 2 (fneg ca0).

(** [_angles_to_dvec_helper] *)
Definition _angles_to_dvec_helper (junk : nat → nat → float)
    (angs : ndarray2) (out : option (list (list float)))
  : result (list (list float)) :=
  let dim := shape1 angs in
  let out := match out with
             | Some out => out
             | None => np_empty_f junk dim 3
             end in
  for_each (range (shape0 angs)) (_angles_to_dvec_helper_body (items angs))
    out.

(** [b[i] = x] on a vector *)
Definition fvec_set (b : list float) (i : nat) (x : float)
  : result (list float) :=
  if bool_decide (i < length b)%nat then Ok (<[i := x]> b)
  else Raise IndexError.

(** [_unit_vector_single] *)
Definition _unit_vector_single (a b : list float) : result (list float) :=
  let n := length a in
  nrm ← for_each (range n)
           (λ i nrm, x ← getitem a i; Ok (fadd nrm (fmul x x))) fzero;
  let nrm := fsqrt nrm in
  if fgt nrm epsf then
    for_each (range n)
      (λ i b, x ← getitem a i; q ← fdiv x nrm; fvec_set b i q) b
  else
    for_each (range n) (λ i b, x ← getitem a i; fvec_set b i x) b.

(** One iteration of the outer loop of [_unit_vector_multi].  The two
    inner loops over the rows bind [i] again, which does not disturb the
    outer iteration, and use [j] as the loop before them left it: the
    last column, or unbound when there is no column. *)
Definition _unit_vector_multi_body (a : list (list float)) (n dim : nat)
    (i : nat) (b : list (list float)) : result (list (list float)) :=
  nrm ← for_each (range dim)
           (λ j nrm, x ← fmat_get float a i j; Ok (fadd nrm (fmul x x)))
           fzero;
  let j := if bool_decide (dim = 0%nat) then None else Some (dim - 1)%nat in
  let nrm := fsqrt nrm in
  if fgt nrm epsf then
    for_each (range n)
      (λ i b, j ← load j; x ← fmat_get float a i j; q ← fdiv x nrm;
              fmat_set float b i j q) b
  else
    for_each (range n)
      (λ i b, j ← load j; x ← fmat_get float a i j;
              fmat_set float b i j x) b.

(** [_unit_vector_multi] *)
Definition _unit_vector_multi (a : ndarray2) (b : list (list float))
  : result (list (list float)) :=
  let n := shape0 a in
  let dim := shape1 a in
  for_each (range n) (_unit_vector_multi_body (items a) n dim) b.

(** The arguments of [unit_vector] by their number of dimensions. *)
Inductive ndarray : Type :=
  | Arr1 (v : list float)
  | Arr2 (a : ndarray2)
  | ArrN (ndim : nat).

(** [unit_vector]; [junk1] and [junk2] are what [np.empty_like] finds in
    memory. *)
Definition unit_vector (junk1 : nat → float) (junk2 : nat → nat → float)
    (a : ndarray) : result ndarray :=
  match a with
  | Arr1 v =>
      let result := junk1 <$> seq 0 (length v) in
      result ← _unit_vector_single v result;
      Ok (Arr1 result)
  | Arr2 a =>
      let result := np_empty_f junk2 (shape0 a) (shape1 a) in
      result ← _unit_vector_multi a result;
      Ok (Arr2 (NdArray2 (shape0 a) (shape1 a) result))
  | ArrN _ => Raise ValueError
  end.

End XfNumba.

(** * Definitions used to state the properties *)

(** A point survives clipping, in the words of the specification, exactly
    when both of its indices are inside the half-open clip range; the
    loops of the source are compared with this. *)
Definition survives (base inv_deltas : vec3) (clip_vals : clip2)
    (p : Q * Q * Q) : option (Z * Z * Z) :=
  let x := quant p.1.1 (v0 base) (v0 inv_deltas) in
  let y := quant p.1.2 (v1 base) (v1 inv_deltas) in
  let z := quant p.2 (v2 base) (v2 inv_deltas) in
  if decide (0 ≤ x < c0 clip_vals ∧ 0 ≤ y < c1 clip_vals)
  then Some (x, y, z) else None.

(** An index triple as an [int32] row holds it. *)
Definition as_int32 (p : Z * Z * Z) : Z * Z * Z :=
  (int32 p.1.1, int32 p.1.2, int32 p.2).

(** The index triples of the surviving points, in the order of the input. *)
Definition surviving (coords : list (Q * Q)) (angles : list Q)
    (base inv_deltas : vec3) (clip_vals : clip2) : list (Z * Z * Z) :=
  omap (survives base inv_deltas clip_vals) (zip coords angles).

(** What the confidence evaluator does with one surviving point. *)
Definition tally (image : volume) (p : Z * Z * Z) (st : Z * Z) : result (Z * Z) :=
  let '(x, y, z) := p in
  b ← volume_get image z y x;
  Ok (st.1 + 1, st.2 + (if b : bool then 1 else 0)).

(** What the rasterizer does with one surviving point. *)
Definition light (p : Z * Z * Z) (image : volume) : result volume :=
  let '(x, y, z) := p in volume_set image z y x true.

(** [image.shape == (nf, nr, nc)] *)
Definition volume_shape (image : volume) (nf nr nc : nat) : Prop :=
  length image = nf ∧
  Forall (λ f, length f = nr ∧ Forall (λ r : list bool, length r = nc) f) image.

(** The entry [m[g, v]], if there is one. *)
Definition cell (m : matrix) (g v : nat) : option Q := m !! g ≫= (.!! v).

(** Two matrices with as many rows, and rows of the same lengths. *)
Definition same_shape (m1 m2 : matrix) : Prop :=
  Forall2 (λ r1 r2 : list Q, length r1 = length r2) m1 m2.

(** The voxel indices [_grand_loop_inner] visits for the chunk that starts
    at [chunk_start], as the serial branch calls it ... *)
Definition chunk_range_serial (n_coords chunk_size chunk_start : nat) : list nat :=
  xrange chunk_start (n_coords `min` (chunk_start + chunk_size))%nat.

(** ... and as [multiproc_inner_loop] calls it, where the stop is taken
    against [len(coords)]. *)
Definition chunk_range_parallel (len_coords chunk_size chunk : nat) : list nat :=
  xrange chunk (len_coords `min` (chunk + chunk_size))%nat.

(** The cells one chunk writes, in the order of [it.product]. *)
Definition cells_serial (angles : list (list vec3))
    (n_coords chunk_size chunk_start : nat) : list (nat * nat) :=
  list_prod (chunk_range_serial n_coords chunk_size chunk_start)
            (xrange 0 (length angles)).

(** The same for a chunk of the worker pool. *)
Definition cells_parallel (angles : list (list vec3)) (coords : list (list Q))
    (chunk_size chunk : nat) : list (nat * nat) :=
  list_prod (chunk_range_parallel (length coords) chunk_size chunk)
            (xrange 0 (length angles)).

(** Two runs have the same outcome when they return the same value or
    both raise. *)
Definition same_outcome {A} (r1 r2 : result A) : Prop :=
  ∀ a, r1 = Ok a ↔ r2 = Ok a.

(** The controller after [k] more chunks have reported completion. *)
Fixpoint progress (finished k : nat) (c : Controller) : Controller :=
  match k with
  | O => c
  | S k' => progress (finished + 1) k' (emit (EvUpdate (finished + 1)) c)
  end.

(** A small concrete experiment: one grain, one reflection that projects
    to the detector point (0, 0) at angle 0, a detector of one pixel, a
    volume of one lit voxel. *)
Definition toy_project (angs : list vec3) (rD rC : mat3) (chi : Q)
    (tD crd tS : list Q) (distortion : option unit)
  : list (Q * Q) * list mat3 :=
  ((λ a, (v0 a, v1 a)) <$> angs, []).

Definition toy_experiment : Experiment unit unit :=
  MkExperiment unit unit 1 [[]] [[0; 0; 0]%Q] tt [(0, 1)%Q] 1 1 1 [] [] 0 []
    0 0 None (Vec3 0 0 0) (Vec3 1 1 1) (Clip2 1 1).

Definition toy_angles : list (list vec3) := [[Vec3 0 0 0]].
Definition toy_volume : volume := [[[true]]].

(** The run [--limit 150] asks for: 200 test coordinates, of which the
    controller admits 150, in chunks of 100. *)
Definition limited_coords : list (list Q) := replicate 200 [0; 0; 0]%Q.

(** A produced array with rows of width 2 and a reference with rows of
    width 3. *)
Definition mismatch_value : array2 := MkArray2 2 [[1; 2]]%Q.
Definition mismatch_reference : array2 := MkArray2 3 [[1; 2; 3]]%Q.

(** The same limit and chunk size with a single process. *)
Definition serial_controller : Controller :=
  MkController (limits (ProcessController (Some 150%nat))) 100 1 [].

(** The pixel [fr[r, c]] and the voxel [v[k, j, i]], if there is one. *)
Definition pixel (fr : frame) (r c : nat) : option bool := fr !! r ≫= (.!! c).

Definition voxel (v : volume) (k j i : nat) : option bool :=
  v !! k ≫= (λ fr, pixel fr j i).

(** A lit pixel of the frame [fr] at most [rd] rows and [cd] columns away
    from [(row, col)]. *)
Definition window_lit (fr : frame) (row col rd cd : Z) : Prop :=
  ∃ r c : nat,
    row - rd ≤ Z.of_nat r ≤ row + rd ∧ col - cd ≤ Z.of_nat c ≤ col + cd ∧
    pixel fr r c = Some true.

(** [dilated] holds, frame by frame, the dilation of [image] by the
    rectangle of [2*rd+1] rows and [2*cd+1] columns. *)
Definition dilation_of (rd cd : Z) (image dilated : volume) : Prop :=
  length dilated = length image ∧
  ∀ (k j i : nat) (fr : frame) (row : list bool) (b : bool),
    image !! k = Some fr → fr !! j = Some row → (i < length row)%nat →
    voxel dilated k j i = Some b →
    (b = true ↔ window_lit fr (Z.of_nat j) (Z.of_nat i) rd cd).

(** The voxel [(frame, row, column)] that the index triple [(x, y, z)]
    addresses in a volume of shape [(nf, nr, nc)]. *)
Definition address (nf nr nc : nat) (p : Z * Z * Z) : nat * nat * nat :=
  (Z.to_nat (p.2 `mod` Z.of_nat nf), Z.to_nat (p.1.2 `mod` Z.of_nat nr),
   Z.to_nat (p.1.1 `mod` Z.of_nat nc)).

(** The float64 values of the literal [0.09] and of [1.0/0.09], the
    inverse step [mockup_experiment] computes as [inv_deltas = 1.0/deltas]
    for a step of 0.09. *)
Definition double_0_09 : Q := (3242591731706757 # 36028797018963968)%Q.
Definition double_inv_0_09 : Q := (3127499741229511 # 281474976710656)%Q.




(** The calls a function of the pipeline makes on its controller, made on
    a [ProcessController] one after the other until one of them raises;
    [clock n] is the n-th reading of [time.time()]. *)
Definition dispatch (self : process_controller) (ev : event) (t : Q)
  : outcome :=
  match ev with
  | EvStart name count => start self name count t
  | EvUpdate value => update self value
  | EvFinish name => finish self name t
  | EvResult key value => pc_handle_result self key value
  end.

Fixpoint replay (clock : nat → Q) (tick : nat) (calls : list event)
    (self : process_controller) : outcome :=
  match calls with
  | [] => (self, None)
  | ev :: calls' =>
      match dispatch self ev (clock tick) with
      | (self', None) => replay clock (S tick) calls' self'
      | raised => raised
      end
  end.

(** What the progress observer sees of a call. *)
Definition po_of (ev : event) : option po_call :=
  match ev with
  | EvStart name count => Some (PoStart name count)
  | EvUpdate value => Some (PoUpdate value)
  | EvFinish _ => Some PoFinish
  | EvResult _ _ => None
  end.

(** Call sequences in which every [start] has its [finish], blocks are
    nested or follow each other, and no block is started with a count of
    zero. *)
Inductive nested : list event → Prop :=
  | nested_nil : nested []
  | nested_update value calls :
      nested calls → nested (EvUpdate value :: calls)
  | nested_result key value calls :
      nested calls → nested (EvResult key value :: calls)
  | nested_block name count body calls :
      count ≠ 0%nat → nested body → nested calls →
      nested (EvStart name count :: body ++ EvFinish name :: calls).

(** The entry [m[i, j]] of a float array, if there is one. *)
Definition fcell {float : Type} (m : list (list float)) (i j : nat)
  : option float :=
  m !! i ≫= (.!! j).

(** The rows of [m] are [n], each of [dim] entries. *)
Definition fshape {float : Type} (m : list (list float)) (n dim : nat)
  : Prop :=
  length m = n ∧ Forall (λ r : list float, length r = dim) m.

(** * Properties *)

(** ** The error monad and loops *)

Lemma bind_Ok {A B} (m : result A) (f : A → result B) (b : B) :
  m ≫= f = Ok b ↔ ∃ a, m = Ok a ∧ f a = Ok b.
Proof.
  destruct m as [a|e]; simpl.
  - split; [intros H; by exists a | by intros (a' & [= <-] & H)].
  - split; [done | by intros (a' & [=] & _)].
Qed.

Lemma bind_Raise {A B} (m : result A) (f : A → result B) (e : exn) :
  m ≫= f = Raise e ↔ m = Raise e ∨ ∃ a, m = Ok a ∧ f a = Raise e.
Proof.
  destruct m as [a|e']; simpl.
  - split; [intros H; right; by exists a | by intros [?|(a' & [= <-] & H)]].
  - split; [intros [= <-]; by left|].
    intros [[= ->]|(a' & [=] & _)]. done.
Qed.

Lemma bind_assoc {A B C} (r : result A) (f : A → result B) (g : B → result C) :
  (r ≫= f) ≫= g = r ≫= (λ a, f a ≫= g).
Proof. by destruct r. Qed.

Lemma for_each_app {A St} (xs ys : list A) (body : A → St → result St) (s : St) :
  for_each (xs ++ ys) body s = for_each xs body s ≫= for_each ys body.
Proof.
  revert s. induction xs as [|x xs IH]; intros s; simpl; [done|].
  destruct (body x s) as [s'|e]; simpl; [apply IH | done].
Qed.

Lemma for_each_ext {A St} (xs : list A) (f g : A → St → result St) (s : St) :
  (∀ x s, x ∈ xs → f x s = g x s) →
  for_each xs f s = for_each xs g s.
Proof.
  revert s. induction xs as [|x xs IH]; intros s Hfg; simpl; [done|].
  rewrite Hfg by left. destruct (g x s) as [s'|e]; simpl; [|done].
  apply IH. intros y t Hy. apply Hfg. by right.
Qed.

(** A loop over the indices of a list is a loop over its elements. *)
Lemma for_each_seq_lookup {A St} (l : list A) (k : nat)
    (body : nat → St → result St) (g : A → St → result St) (s : St) :
  (∀ i x s, l !! i = Some x → body (k + i)%nat s = g x s) →
  for_each (seq k (length l)) body s = for_each l g s.
Proof.
  revert k s. induction l as [|x l IH]; intros k s Hb; simpl; [done|].
  rewrite <- (Nat.add_0_r k) at 1. rewrite (Hb 0%nat x s) by done.
  destruct (g x s) as [s'|e]; simpl; [|done].
  apply IH. intros i y t Hi.
  replace (Datatypes.S k + i)%nat with (k + Datatypes.S i)%nat by lia.
  by apply Hb.
Qed.

Lemma for_each_range_lookup {A St} (l : list A)
    (body : nat → St → result St) (g : A → St → result St) (s : St) :
  (∀ i x s, l !! i = Some x → body i s = g x s) →
  for_each (range (length l)) body s = for_each l g s.
Proof. intros Hb. by apply for_each_seq_lookup. Qed.

(** An invariant of the body is an invariant of the loop. *)
Lemma for_each_invariant {A St} (P : St → Prop) (xs : list A)
    (body : A → St → result St) (s s' : St) :
  (∀ x s s', P s → body x s = Ok s' → P s') →
  P s → for_each xs body s = Ok s' → P s'.
Proof.
  intros Hb. revert s. induction xs as [|x xs IH]; intros s Hs; simpl.
  - by intros [= <-].
  - intros (s1 & H1 & H2)%bind_Ok. eapply IH; [|done]. by eapply Hb.
Qed.

Lemma for_each_omap {A B St} (f : A → option B) (g : B → St → result St)
    (l : list A) (s : St) :
  for_each l (λ p s, match f p with Some q => g q s | None => Ok s end) s =
  for_each (omap f l) g s.
Proof.
  revert s. induction l as [|p l IH]; intros s; simpl; [done|].
  destruct (f p) as [q|]; simpl; [|apply IH].
  destruct (g q s); simpl; [apply IH | done].
Qed.

Lemma for_each_skip {A St} (l : list A) (s : St) :
  for_each l (λ _ s, Ok s) s = Ok s.
Proof. induction l; [done | simpl; done]. Qed.

(** ** Indexing *)

Lemma getitem_Some {A} (l : list A) i x : l !! i = Some x → getitem l i = Ok x.
Proof. unfold getitem. by intros ->. Qed.

Lemma norm_index_Ok (n : nat) (i : Z) :
  - Z.of_nat n ≤ i < Z.of_nat n →
  norm_index n i = Ok (Z.to_nat (i `mod` Z.of_nat n)) ∧
  (Z.to_nat (i `mod` Z.of_nat n) < n)%nat.
Proof.
  intros Hi. unfold norm_index.
  assert (0 ≤ i `mod` Z.of_nat n < Z.of_nat n) by (apply Z.mod_pos_bound; lia).
  split; [|lia].
  case_bool_decide as H1.
  - by rewrite Z.mod_small.
  - rewrite bool_decide_eq_true_2 by lia.
    assert (i `mod` Z.of_nat n = i + Z.of_nat n) as ->; [|done].
    rewrite <- (Z.mod_add i 1) by lia. rewrite Z.mul_1_l.
    apply Z.mod_small. lia.
Qed.

Lemma norm_index_Raise (n : nat) (i : Z) :
  ¬ (- Z.of_nat n ≤ i < Z.of_nat n) → norm_index n i = Raise IndexError.
Proof.
  intros Hi. unfold norm_index.
  rewrite !bool_decide_eq_false_2 by lia. done.
Qed.

Lemma getitem_Z_Ok {A} (l : list A) (i : Z) :
  - Z.of_nat (length l) ≤ i < Z.of_nat (length l) →
  ∃ a, getitem_Z l i = Ok a ∧
       l !! Z.to_nat (i `mod` Z.of_nat (length l)) = Some a.
Proof.
  intros Hi. destruct (norm_index_Ok _ _ Hi) as [Hn Hlt].
  destruct (lookup_lt_is_Some_2 l _ Hlt) as [a Ha].
  exists a. split; [|done]. unfold getitem_Z. rewrite Hn. simpl.
  by apply getitem_Some.
Qed.

(** Inside the shape every access succeeds and reads the cell that the
    index, taken modulo the axis length, names. *)
Lemma volume_get_Ok image nf nr nc z y x :
  volume_shape image nf nr nc →
  - Z.of_nat nf ≤ z < Z.of_nat nf →
  - Z.of_nat nr ≤ y < Z.of_nat nr →
  - Z.of_nat nc ≤ x < Z.of_nat nc →
  ∃ f r b,
    image !! Z.to_nat (z `mod` Z.of_nat nf) = Some f ∧
    f !! Z.to_nat (y `mod` Z.of_nat nr) = Some r ∧
    r !! Z.to_nat (x `mod` Z.of_nat nc) = Some b ∧
    volume_get image z y x = Ok b.
Proof.
  intros [Hf Hall] Hz Hy Hx. subst nf.
  destruct (getitem_Z_Ok image z Hz) as (f & Hgf & Hlf).
  pose proof (proj1 (Forall_lookup _ _) Hall _ _ Hlf) as [Hnr Hrows].
  subst nr.
  destruct (getitem_Z_Ok f y Hy) as (r & Hgr & Hlr).
  pose proof (proj1 (Forall_lookup _ _) Hrows _ _ Hlr) as Hnc.
  simpl in Hnc. subst nc.
  destruct (getitem_Z_Ok r x Hx) as (b & Hgb & Hlb).
  exists f, r, b. repeat split; try done.
  unfold volume_get. rewrite Hgf. simpl. rewrite Hgr. simpl. done.
Qed.

(** ** The confidence matrix *)

Lemma matrix_set_Ok (m m' : matrix) (i j : nat) (c : Q) :
  matrix_set m i j c = Ok m' ↔
  ∃ row, m !! i = Some row ∧ (j < length row)%nat ∧
         m' = <[i := <[j := c]> row]> m.
Proof.
  unfold matrix_set, getitem. destruct (m !! i) as [row|]; simpl.
  - case_bool_decide; split.
    + intros [= <-]. by exists row.
    + by intros (? & [= <-] & _ & ->).
    + done.
    + intros (? & [= <-] & ? & _). lia.
  - split; [done | by intros (? & [=] & _)].
Qed.

Lemma matrix_set_twice (m m2 : matrix) i j c i' j' c' :
  (i ≠ i' ∨ j ≠ j') →
  matrix_set m i j c ≫= (λ m1, matrix_set m1 i' j' c') = Ok m2 →
  matrix_set m i' j' c' ≫= (λ m1, matrix_set m1 i j c) = Ok m2.
Proof.
  intros Hne (m1 & H1 & H2)%bind_Ok.
  apply matrix_set_Ok in H1 as (r & Hr & Hj & ->).
  apply matrix_set_Ok in H2 as (r' & Hr' & Hj' & ->).
  pose proof (lookup_lt_Some _ _ _ Hr) as Hi.
  apply bind_Ok. destruct (decide (i = i')) as [<-|Hii].
  - rewrite list_lookup_insert_eq in Hr' by done. injection Hr' as <-.
    rewrite length_insert in Hj'.
    exists (<[i := <[j' := c']> r]> m). split.
    + apply matrix_set_Ok. by exists r.
    + apply matrix_set_Ok. exists (<[j' := c']> r).
      rewrite list_lookup_insert_eq by done. rewrite length_insert.
      repeat split; try done.
      rewrite !list_insert_insert_eq. f_equal.
      apply list_insert_insert_ne. destruct Hne; congruence.
  - rewrite list_lookup_insert_ne in Hr' by done.
    exists (<[i' := <[j' := c']> r']> m). split.
    + apply matrix_set_Ok. by exists r'.
    + apply matrix_set_Ok. exists r.
      rewrite list_lookup_insert_ne by done. repeat split; try done.
      by apply list_insert_insert_ne.
Qed.

Lemma cell_insert (m : matrix) (row : list Q) (g v g' v' : nat) (c : Q) :
  m !! g = Some row → (v < length row)%nat →
  cell (<[g := <[v := c]> row]> m) g' v' =
  if decide (g = g' ∧ v = v') then Some c else cell m g' v'.
Proof.
  intros Hrow Hv. unfold cell.
  pose proof (lookup_lt_Some _ _ _ Hrow) as Hg.
  destruct (decide (g = g')) as [<-|Hgg].
  - rewrite list_lookup_insert_eq by done. simpl. rewrite Hrow. simpl.
    destruct (decide (v = v')) as [<-|Hvv].
    + rewrite decide_True by done. by apply list_lookup_insert_eq.
    + rewrite decide_False by tauto. by apply list_lookup_insert_ne.
  - rewrite list_lookup_insert_ne by done. by rewrite decide_False by tauto.
Qed.

Lemma same_shape_ext (m1 m2 : matrix) :
  same_shape m1 m2 → (∀ g v, cell m1 g v = cell m2 g v) → m1 = m2.
Proof.
  induction 1 as [|r1 r2 m1 m2 Hlen _ IH]; intros Hcell; [done|].
  f_equal.
  - apply list_eq. intros v. apply (Hcell 0%nat v).
  - apply IH. intros g v. apply (Hcell (S g) v).
Qed.

Lemma same_shape_insert (m1 m2 : matrix) (g : nat) (r1 r2 : list Q) :
  same_shape m1 m2 → length r1 = length r2 →
  same_shape (<[g := r1]> m1) (<[g := r2]> m2).
Proof. intros. by apply Forall2_insert. Qed.

Lemma np_empty_shared_same_shape junk n_rows n_cols :
  same_shape (np_empty junk n_rows n_cols) (shared_array n_rows n_cols).
Proof.
  unfold same_shape, np_empty, shared_array.
  apply Forall2_same_length_lookup. split.
  - by rewrite length_fmap, length_seq, length_replicate.
  - intros i r1 r2 H1 H2.
    apply list_lookup_fmap_Some in H1 as (k & -> & _).
    apply lookup_replicate in H2 as [-> _].
    by rewrite length_fmap, length_seq, length_replicate.
Qed.

Lemma np_empty_shared_cell_outside junk n_rows n_cols g v :
  ¬ (g < n_rows ∧ v < n_cols)%nat →
  cell (np_empty junk n_rows n_cols) g v = cell (shared_array n_rows n_cols) g v.
Proof.
  intros Hout. unfold cell, np_empty, shared_array.
  destruct (decide (g < n_rows)%nat) as [Hg|Hg].
  - rewrite list_lookup_fmap, lookup_seq_lt by done. simpl.
    rewrite lookup_replicate_2 by done. simpl.
    rewrite !lookup_ge_None_2; [done | |].
    + rewrite length_replicate. lia.
    + rewrite length_fmap, length_seq. lia.
  - rewrite !lookup_ge_None_2; [done | |].
    + rewrite length_replicate. lia.
    + rewrite length_fmap, length_seq. lia.
Qed.

(** ** The quantizer *)

Lemma clipped_false x clip : clipped x clip = false ↔ 0 ≤ x < clip.
Proof.
  unfold clipped. rewrite orb_false_iff, !bool_decide_eq_false. lia.
Qed.

Lemma clipped_true x clip : clipped x clip = true ↔ ¬ (0 ≤ x < clip).
Proof. rewrite <- clipped_false. destruct (clipped x clip); naive_solver. Qed.

Lemma zip_lookup_Some {A B} (l : list A) (k : list B) i x y :
  zip l k !! i = Some (x, y) → l !! i = Some x ∧ k !! i = Some y.
Proof.
  revert k i. induction l as [|a l IH]; intros [|b k] [|i]; simpl; try done.
  - by intros [= -> ->].
  - apply IH.
Qed.

Lemma length_zip_le {A B} (l : list A) (k : list B) :
  (length l ≤ length k)%nat → length (zip l k) = length l.
Proof. intros H. rewrite length_zip_with. lia. Qed.

(** The three loops visit the surviving points, in order. *)
Lemma quant_and_clip_body_survives coords angles base inv clip i p a :
  zip coords angles !! i = Some p →
  _quant_and_clip_body coords angles base inv clip i a =
  Ok (a ++ option_list (as_int32 <$> survives base inv clip p)).
Proof.
  destruct p as [xy ang]. intros [Hc Ha]%zip_lookup_Some.
  unfold _quant_and_clip_body, survives. rewrite (getitem_Some _ _ _ Hc). simpl.
  destruct (clipped (quant xy.1 _ _) _) eqn:Hx.
  { apply clipped_true in Hx. rewrite decide_False by tauto.
    simpl. by rewrite app_nil_r. }
  apply clipped_false in Hx.
  destruct (clipped (quant xy.2 _ _) _) eqn:Hy.
  { apply clipped_true in Hy. rewrite decide_False by tauto.
    simpl. by rewrite app_nil_r. }
  apply clipped_false in Hy. rewrite decide_True by done.
  by rewrite (getitem_Some _ _ _ Ha).
Qed.

Lemma quant_and_clip_surviving coords angles base inv clip :
  (length coords ≤ length angles)%nat →
  _quant_and_clip coords angles base inv clip =
  Ok (as_int32 <$> surviving coords angles base inv clip).
Proof.
  intros Hlen. unfold _quant_and_clip, surviving.
  rewrite <- (length_zip_le coords angles Hlen).
  rewrite (for_each_range_lookup _ _
             (λ p a, Ok (a ++ option_list
                                (as_int32 <$> survives base inv clip p))))
    by (intros; by apply quant_and_clip_body_survives).
  generalize (zip coords angles) as l. intros l.
  change (as_int32 <$> omap (survives base inv clip) l)
    with ([] ++ (as_int32 <$> omap (survives base inv clip) l)).
  generalize (@nil (Z * Z * Z)) as a.
  induction l as [|p l IH]; intros a; simpl.
  - by rewrite app_nil_r.
  - rewrite IH. destruct (survives base inv clip p); simpl.
    + by rewrite <- app_assoc.
    + by rewrite app_nil_r.
Qed.

Lemma confidence_body_survives coords angles image base inv clip i p st :
  zip coords angles !! i = Some p →
  _quant_and_clip_confidence_body coords angles image base inv clip i st =
  match survives base inv clip p with
  | Some q => tally image q st
  | None => Ok st
  end.
Proof.
  destruct p as [xy ang], st as [n m]. intros [Hc Ha]%zip_lookup_Some.
  unfold _quant_and_clip_confidence_body, survives.
  rewrite (getitem_Some _ _ _ Hc). simpl.
  destruct (clipped (quant xy.1 _ _) _) eqn:Hx.
  { apply clipped_true in Hx. by rewrite decide_False by tauto. }
  apply clipped_false in Hx.
  destruct (clipped (quant xy.2 _ _) _) eqn:Hy.
  { apply clipped_true in Hy. by rewrite decide_False by tauto. }
  apply clipped_false in Hy. rewrite decide_True by done.
  by rewrite (getitem_Some _ _ _ Ha).
Qed.

Lemma write_pixels_body_survives coords angles base inv clip i p image :
  zip coords angles !! i = Some p →
  _write_pixels_body coords angles base inv clip i image =
  match survives base inv clip p with
  | Some q => light q image
  | None => Ok image
  end.
Proof.
  destruct p as [xy ang]. intros [Hc Ha]%zip_lookup_Some.
  unfold _write_pixels_body, survives.
  rewrite (getitem_Some _ _ _ Hc). simpl.
  destruct (clipped (quant xy.1 _ _) _) eqn:Hx.
  { apply clipped_true in Hx. by rewrite decide_False by tauto. }
  apply clipped_false in Hx.
  destruct (clipped (quant xy.2 _ _) _) eqn:Hy.
  { apply clipped_true in Hy. by rewrite decide_False by tauto. }
  apply clipped_false in Hy. rewrite decide_True by done.
  by rewrite (getitem_Some _ _ _ Ha).
Qed.

Lemma quant_and_clip_confidence_surviving coords angles image base inv clip :
  (length coords ≤ length angles)%nat →
  _quant_and_clip_confidence coords angles image base inv clip =
  st ← for_each (surviving coords angles base inv clip) (tally image) (0, 0);
  float_div st.2 st.1.
Proof.
  intros Hlen. unfold _quant_and_clip_confidence, surviving.
  rewrite <- (length_zip_le coords angles Hlen).
  rewrite (for_each_range_lookup _ _
             (λ p st, match survives base inv clip p with
                      | Some q => tally image q st
                      | None => Ok st
                      end))
    by (intros; by apply confidence_body_survives).
  by rewrite for_each_omap.
Qed.

Lemma write_pixels_surviving coords angles image base inv clip :
  (length coords ≤ length angles)%nat →
  _write_pixels coords angles image base inv clip =
  for_each (surviving coords angles base inv clip) light image.
Proof.
  intros Hlen. unfold _write_pixels, surviving.
  rewrite <- (length_zip_le coords angles Hlen).
  rewrite (for_each_range_lookup _ _
             (λ p im, match survives base inv clip p with
                      | Some q => light q im
                      | None => Ok im
                      end))
    by (intros; by apply write_pixels_body_survives).
  by rewrite for_each_omap.
Qed.

(** The quantized index at the two ends of an axis. *)
Lemma quant_at_base (b inv : Q) : quant b b inv = 0.
Proof.
  unfold quant.
  assert (Heq : ((b - b) * inv == inject_Z 0)%Q) by (unfold inject_Z; ring).
  rewrite (Qfloor_comp _ _ Heq). apply Qfloor_Z.
Qed.

Lemma quant_at_end (b delta : Q) (clip : Z) :
  ¬ (delta == 0)%Q →
  quant (b + inject_Z clip * delta) b (/ delta) = clip.
Proof.
  intros Hd. unfold quant.
  assert (Heq : ((b + inject_Z clip * delta - b) * / delta == inject_Z clip)%Q)
    by (field; exact Hd).
  rewrite (Qfloor_comp _ _ Heq). apply Qfloor_Z.
Qed.

Lemma surviving_in_clip coords angles base inv clip q :
  q ∈ surviving coords angles base inv clip →
  0 ≤ q.1.1 < c0 clip ∧ 0 ≤ q.1.2 < c1 clip.
Proof.
  unfold surviving. intros (p & _ & Hp)%list_elem_of_omap.
  unfold survives in Hp. case_decide; [|done]. by injection Hp as <-.
Qed.

Lemma surviving_nil_iff coords angles base inv clip :
  (length coords ≤ length angles)%nat →
  Forall (λ xy : Q * Q,
            ¬ (0 ≤ quant xy.1 (v0 base) (v0 inv) < c0 clip ∧
               0 ≤ quant xy.2 (v1 base) (v1 inv) < c1 clip)) coords →
  surviving coords angles base inv clip = [].
Proof.
  unfold surviving. revert angles.
  induction coords as [|xy coords IH]; intros [|a angles] Hlen Hall;
    simpl in *; try done; try lia.
  apply Forall_cons in Hall as [Hxy Hall].
  unfold survives at 1. simpl. rewrite decide_False by done.
  apply IH; [lia | done].
Qed.

(** C2, as stated, fails at the upper boundary: with the step 0.09 and the
    inverse step [1.0/0.09] the program computes, the product of the two
    is below 1, so the coordinate [base + clip * delta] gets the index
    [clip - 1] and is kept, on either axis. *)
Lemma end_point_kept_with_rounded_inverse :
  (double_0_09 * double_inv_0_09 < 1)%Q ∧
  quant (0 + inject_Z 1 * double_0_09) 0 double_inv_0_09 = 0 ∧
  _quant_and_clip [((0 + inject_Z 1 * double_0_09)%Q, 0%Q)] [0%Q]
    (Vec3 0 0 0) (Vec3 double_inv_0_09 1 1) (Clip2 1 1) = Ok [(0, 0, 0)] ∧
  _quant_and_clip [(0%Q, (0 + inject_Z 1 * double_0_09)%Q)] [0%Q]
    (Vec3 0 0 0) (Vec3 1 double_inv_0_09 1) (Clip2 1 1) = Ok [(0, 0, 0)] ∧
  _write_pixels [((0 + inject_Z 1 * double_0_09)%Q, 0%Q)] [0%Q] [[[false]]]
    (Vec3 0 0 0) (Vec3 double_inv_0_09 1 1) (Clip2 1 1) = Ok [[[true]]].
Proof.
  split; [reflexivity|]. split; [reflexivity|].
  split; [reflexivity|]. split; reflexivity.
Qed.

(** C2, amended. The quantizer keeps a point exactly when its quantized
    x index lies in [0, clip[0]) and its quantized y index in
    [0, clip[1)): the output of [_quant_and_clip] is, in order, the index
    triples of those points, and [_write_pixels] lights exactly those
    voxels.  A coordinate at [base] has index 0 and is kept (for a
    positive clip size).  A coordinate at [base + clip * delta] has index
    [clip] and is dropped, on either axis, when the inverse step is the
    reciprocal of [delta] exactly. *)
Theorem quantizer_half_open_clipping
    (coords : list (Q * Q)) (angles : list Q) (image : volume)
    (base inv_deltas : vec3) (clip_vals : clip2) :
  (length coords ≤ length angles)%nat →
  let kept (p : Q * Q * Q) : option (Z * Z * Z) :=
    let x := quant p.1.1 (v0 base) (v0 inv_deltas) in
    let y := quant p.1.2 (v1 base) (v1 inv_deltas) in
    let z := quant p.2 (v2 base) (v2 inv_deltas) in
    if decide (0 ≤ x < c0 clip_vals ∧ 0 ≤ y < c1 clip_vals)
    then Some (x, y, z) else None in
  _quant_and_clip coords angles base inv_deltas clip_vals
    = Ok ((λ '(x, y, z), (int32 x, int32 y, int32 z))
            <$> omap kept (zip coords angles)) ∧
  _write_pixels coords angles image base inv_deltas clip_vals
    = for_each (omap kept (zip coords angles))
        (λ '(x, y, z) image, volume_set image z y x true) image ∧
  (∀ ang, 0 < c0 clip_vals → 0 < c1 clip_vals →
     _quant_and_clip [(v0 base, v1 base)] [ang] base inv_deltas clip_vals
       = Ok [(0, 0, int32 (quant ang (v2 base) (v2 inv_deltas)))]) ∧
  (∀ delta y ang, ¬ (delta == 0)%Q → (v0 inv_deltas == / delta)%Q →
     quant (v0 base + inject_Z (c0 clip_vals) * delta)
       (v0 base) (v0 inv_deltas) = c0 clip_vals ∧
     _quant_and_clip [((v0 base + inject_Z (c0 clip_vals) * delta)%Q, y)]
       [ang] base inv_deltas clip_vals = Ok []) ∧
  (∀ delta x ang, ¬ (delta == 0)%Q → (v1 inv_deltas == / delta)%Q →
     quant (v1 base + inject_Z (c1 clip_vals) * delta)
       (v1 base) (v1 inv_deltas) = c1 clip_vals ∧
     _quant_and_clip [(x, (v1 base + inject_Z (c1 clip_vals) * delta)%Q)]
       [ang] base inv_deltas clip_vals = Ok []).
Proof.
  intros Hlen kept.
  assert (Hend : ∀ b delta inv clip, ¬ (delta == 0)%Q → (inv == / delta)%Q →
            quant (b + inject_Z clip * delta) b inv = clip).
  { intros b delta inv clip Hd Hinv.
    etrans; [|apply (quant_at_end b delta clip Hd)].
    unfold quant. apply Qfloor_comp. rewrite Hinv. reflexivity. }
  split.
  { rewrite (quant_and_clip_surviving _ _ _ _ _ Hlen). f_equal.
    apply list_fmap_ext. by intros i [[x y] z] _. }
  split.
  { rewrite write_pixels_surviving by done. apply for_each_ext.
    by intros [[x y] z] im _. }
  split; [|split].
  - intros ang H0 H1. rewrite quant_and_clip_surviving by (simpl; lia).
    unfold surviving, survives. simpl. rewrite !quant_at_base.
    by rewrite decide_True by lia.
  - intros delta y ang Hd Hinv. split; [by apply Hend|].
    rewrite quant_and_clip_surviving by (simpl; lia).
    unfold surviving, survives. simpl. rewrite (Hend _ _ _ _ Hd Hinv).
    by rewrite decide_False by lia.
  - intros delta x ang Hd Hinv. split; [by apply Hend|].
    rewrite quant_and_clip_surviving by (simpl; lia).
    unfold surviving, survives. simpl. rewrite (Hend _ _ _ _ Hd Hinv).
    by rewrite decide_False by lia.
Qed.

Lemma quantizer_half_open_clipping_witness :
  let coords := [(0, 0); (2, 1); (-1 # 2, 0); (1, 3 # 2)]%Q in
  let angles := [0; 0; 0; 5]%Q in
  (length coords ≤ length angles)%nat ∧
  _quant_and_clip coords angles (Vec3 0 0 0) (Vec3 1 1 1) (Clip2 2 2)
    = Ok [(0, 0, 0); (1, 1, 5)].
Proof.
  intros coords angles.
  split; [simpl; lia|].
  exact (proj1 (quantizer_half_open_clipping coords angles []
                  (Vec3 0 0 0) (Vec3 1 1 1) (Clip2 2 2)
                  ltac:(simpl; lia))).
Defined.

(** ** The confidence evaluator *)

Lemma unit_ratio (m n : Z) :
  0 ≤ m ≤ n → 0 < n → (0 <= inject_Z m / inject_Z n <= 1)%Q.
Proof.
  intros [Hm Hmn] Hn.
  assert (Hn' : (0 < inject_Z n)%Q) by (unfold Qlt; simpl; lia).
  split.
  - apply Qle_shift_div_l; [done|]. rewrite Qmult_0_l. unfold Qle; simpl; lia.
  - apply Qle_shift_div_r; [done|]. rewrite Qmult_1_l. unfold Qle; simpl; lia.
Qed.

Lemma float_div_Ok (m n : Z) (c : Q) :
  float_div m n = Ok c ↔ n ≠ 0 ∧ c = (inject_Z m / inject_Z n)%Q.
Proof.
  unfold float_div. case_bool_decide as Hn.
  - split; [done | by intros [? _]].
  - split; [by intros [= <-] | by intros [_ ->]].
Qed.

(** The counters of the confidence loop: [matches] never exceeds
    [in_sensor], and neither is negative. *)
Lemma confidence_counters coords angles image base inv clip xs st :
  for_each xs
    (_quant_and_clip_confidence_body coords angles image base inv clip)
    (0, 0) = Ok st →
  0 ≤ st.2 ≤ st.1.
Proof.
  apply (for_each_invariant (λ st : Z * Z, 0 ≤ st.2 ≤ st.1)); [|simpl; lia].
  intros i [n m] s' Hinv. unfold _quant_and_clip_confidence_body.
  intros (xy & _ & H)%bind_Ok. simpl in *.
  destruct (clipped _ _); [by injection H as <-|].
  destruct (clipped _ _); [by injection H as <-|].
  apply bind_Ok in H as (ang & _ & H).
  apply bind_Ok in H as (b & _ & [= <-]). simpl. destruct b; lia.
Qed.

Lemma tally_loop image l st0 :
  Forall (λ q : Z * Z * Z, ∃ b, volume_get image q.2 q.1.2 q.1.1 = Ok b) l →
  ∃ st, for_each l (tally image) st0 = Ok st ∧
        st.1 = st0.1 + Z.of_nat (length l).
Proof.
  revert st0. induction l as [|[[x y] z] l IH]; intros st0 Hall; simpl.
  - exists st0. split; [done | lia].
  - apply Forall_cons in Hall as [[b Hb] Hall]. simpl in Hb. rewrite Hb. simpl.
    destruct (IH (st0.1 + 1, st0.2 + (if b then 1 else 0)) Hall)
      as (st & Hst & Hn).
    exists st. split; [done|]. simpl in Hn. lia.
Qed.

Lemma confidence_value_bounds coords angles image base inv clip c :
  _quant_and_clip_confidence coords angles image base inv clip = Ok c →
  (0 <= c <= 1)%Q.
Proof.
  unfold _quant_and_clip_confidence. intros (st & Hloop & Hdiv)%bind_Ok.
  apply confidence_counters in Hloop.
  apply float_div_Ok in Hdiv as [Hn ->]. apply unit_ratio; lia.
Qed.

(** When every point is clipped the counters of the confidence loop stay
    at zero. *)
Lemma all_clipped_counters
    (coords : list (Q * Q)) (angles : list Q) (image : volume)
    (base inv_deltas : vec3) (clip_vals : clip2) :
  Forall (λ xy : Q * Q,
            ¬ (0 ≤ quant xy.1 (v0 base) (v0 inv_deltas) < c0 clip_vals ∧
               0 ≤ quant xy.2 (v1 base) (v1 inv_deltas) < c1 clip_vals))
         coords →
  for_each (range (length coords))
    (_quant_and_clip_confidence_body coords angles image base inv_deltas
       clip_vals) (0, 0) = Ok (0, 0).
Proof.
  intros Hall.
  rewrite (for_each_range_lookup coords _ (λ _ st, Ok st)).
  - apply for_each_skip.
  - intros i xy [n m] Hxy.
    pose proof (proj1 (Forall_lookup _ _) Hall _ _ Hxy) as Hout. simpl in Hout.
    unfold _quant_and_clip_confidence_body.
    rewrite (getitem_Some _ _ _ Hxy). simpl.
    destruct (clipped (quant xy.1 _ _) _) eqn:Hx; [done|].
    destruct (clipped (quant xy.2 _ _) _) eqn:Hy; [done|].
    apply clipped_false in Hx, Hy. tauto.
Qed.

(** [_grand_loop_inner] has no handler around the evaluator: for a voxel
    and grain whose reflections are all clipped, the iteration raises. *)
Lemma grand_loop_body_division_by_zero {Distortion PlaneData : Type}
    (project : list vec3 → mat3 → mat3 → Q → list Q → list Q → list Q →
               option Distortion → list (Q * Q) * list mat3)
    (image_stack : volume) (all_angles : list (list vec3))
    (test_crds : list (list Q)) (experiment : Experiment Distortion PlaneData)
    (icrd igrn : nat) (angs : list vec3) (rC : mat3) (crd : list Q)
    (confidence : matrix) :
  all_angles !! igrn = Some angs →
  rMat_c experiment !! igrn = Some rC →
  test_crds !! icrd = Some crd →
  Forall (λ xy : Q * Q,
            ¬ (0 ≤ quant xy.1 (v0 (base experiment))
                     (v0 (inv_deltas experiment)) < c0 (clip_vals experiment) ∧
               0 ≤ quant xy.2 (v1 (base experiment))
                     (v1 (inv_deltas experiment)) < c1 (clip_vals experiment)))
    (project angs (rMat_d experiment) rC (chi experiment) (tVec_d experiment)
       crd (tVec_s experiment) (distortion experiment)).1 →
  _grand_loop_inner_body project image_stack all_angles test_crds experiment
    (icrd, igrn) confidence = Raise ZeroDivisionError.
Proof.
  intros Ha Hr Hc Hall. unfold _grand_loop_inner_body, cell_score.
  rewrite (getitem_Some _ _ _ Ha), (getitem_Some _ _ _ Hr),
    (getitem_Some _ _ _ Hc). simpl.
  destruct (project _ _ _ _ _ _ _ _) as [det_xy rMat_ss]. simpl in Hall.
  unfold _quant_and_clip_confidence.
  by rewrite all_clipped_counters.
Qed.

(** C1. When every projected reflection falls outside the detector
    bounds, [_quant_and_clip_confidence] does not return a fallback value:
    both counters are still zero after the loop, and the final
    [float(matches)/float(in_sensor)] raises ZeroDivisionError. *)
Theorem confidence_zero_survivors_raises
    (coords : list (Q * Q)) (angles : list Q) (image : volume)
    (base inv_deltas : vec3) (clip_vals : clip2) :
  Forall (λ xy : Q * Q,
            ¬ (0 ≤ quant xy.1 (v0 base) (v0 inv_deltas) < c0 clip_vals ∧
               0 ≤ quant xy.2 (v1 base) (v1 inv_deltas) < c1 clip_vals))
         coords →
  _quant_and_clip_confidence coords angles image base inv_deltas clip_vals
    = Raise ZeroDivisionError.
Proof.
  intros Hall. unfold _quant_and_clip_confidence.
  rewrite all_clipped_counters by done.
  cbn [mbind result_mbind result_bind snd fst].
  unfold float_div. by rewrite bool_decide_eq_true_2.
Qed.

Lemma confidence_zero_survivors_raises_witness :
  _quant_and_clip_confidence [(5, 0); (0, -1)]%Q [0; 0]%Q [[[true]]]
    (Vec3 0 0 0) (Vec3 1 1 1) (Clip2 1 1) = Raise ZeroDivisionError.
Proof.
  apply confidence_zero_survivors_raises.
  repeat constructor; vm_compute; intros [[? ?] [? ?]]; congruence.
Defined.

(** C3. A confidence value that [_quant_and_clip_confidence] returns is a
    ratio [matches / in_sensor] with [0 <= matches <= in_sensor] and
    [in_sensor >= 1], so it lies in [0, 1]; it does return one whenever a
    reflection survives clipping and the surviving indices are inside the
    volume; and the entry [_grand_loop_inner] writes into the confidence
    matrix is such a value. *)
Theorem confidence_in_unit_interval
    (coords : list (Q * Q)) (angles : list Q) (image : volume)
    (base inv_deltas : vec3) (clip_vals : clip2) :
  (∀ c, _quant_and_clip_confidence coords angles image base inv_deltas
          clip_vals = Ok c → (0 <= c <= 1)%Q) ∧
  (∀ nf nr nc,
     (length coords ≤ length angles)%nat →
     surviving coords angles base inv_deltas clip_vals ≠ [] →
     volume_shape image nf nr nc →
     c0 clip_vals ≤ Z.of_nat nc → c1 clip_vals ≤ Z.of_nat nr →
     Forall (λ q : Z * Z * Z, - Z.of_nat nf ≤ q.2 < Z.of_nat nf)
       (surviving coords angles base inv_deltas clip_vals) →
     ∃ c, _quant_and_clip_confidence coords angles image base inv_deltas
            clip_vals = Ok c ∧ (0 <= c <= 1)%Q) ∧
  (∀ (Distortion PlaneData : Type)
     (project : list vec3 → mat3 → mat3 → Q → list Q → list Q → list Q →
                option Distortion → list (Q * Q) * list mat3)
     (image_stack : volume) (all_angles : list (list vec3))
     (test_crds : list (list Q)) (experiment : Experiment Distortion PlaneData)
     (icrd igrn : nat) (confidence confidence' : matrix),
     _grand_loop_inner_body project image_stack all_angles test_crds
       experiment (icrd, igrn) confidence = Ok confidence' →
     ∃ c, cell confidence' igrn icrd = Some c ∧ (0 <= c <= 1)%Q).
Proof.
  split; [intros c; apply confidence_value_bounds|]. split.
  - intros nf nr nc Hlen Hne Hshape Hc0 Hc1 Hz.
    cut (∃ c, _quant_and_clip_confidence coords angles image base inv_deltas
                clip_vals = Ok c).
    { intros [c Hc]. exists c. split; [done|].
      by eapply confidence_value_bounds. }
    rewrite quant_and_clip_confidence_surviving by done.
    destruct (tally_loop image
                (surviving coords angles base inv_deltas clip_vals) (0, 0))
      as (st & Hst & Hn).
    { apply Forall_forall. intros q Hq.
      pose proof (surviving_in_clip _ _ _ _ _ _ Hq) as [Hx Hy].
      pose proof (proj1 (Forall_forall _ _) Hz _ Hq) as Hzq. simpl in Hzq.
      destruct (volume_get_Ok image nf nr nc q.2 q.1.2 q.1.1)
        as (f & r & b & _ & _ & _ & Hb); try done; try lia.
      by exists b. }
    rewrite Hst. simpl.
    destruct (surviving coords angles base inv_deltas clip_vals) eqn:Hs;
      [done|].
    simpl in Hn. unfold float_div.
    rewrite bool_decide_eq_false_2 by (simpl in *; lia). by eexists.
  - intros D P project image_stack all_angles test_crds experiment icrd igrn
      confidence confidence'.
    unfold _grand_loop_inner_body. intros (c & Hc & Hset)%bind_Ok.
    apply matrix_set_Ok in Hset as (row & Hrow & Hlt & ->).
    exists c. split.
    + rewrite (cell_insert _ _ _ _ _ _ _ Hrow Hlt). by rewrite decide_True.
    + unfold cell_score in Hc.
      apply bind_Ok in Hc as (angs & _ & Hc).
      apply bind_Ok in Hc as (rC & _ & Hc).
      apply bind_Ok in Hc as (crd & _ & Hc).
      destruct (project _ _ _ _ _ _ _ _) as [det_xy rMat_ss].
      by eapply confidence_value_bounds.
Qed.

Lemma confidence_in_unit_interval_witness :
  _quant_and_clip_confidence [(0, 0); (1, 0); (7, 7)]%Q [0; 1; 0]%Q
    [[[true; false]]; [[false; false]]]
    (Vec3 0 0 0) (Vec3 1 1 1) (Clip2 2 1) = Ok (1 # 2)%Q ∧
  (0 <= 1 # 2 <= 1)%Q.
Proof.
  split; [reflexivity|].
  apply (proj1 (confidence_in_unit_interval
                  [(0, 0); (1, 0); (7, 7)]%Q [0; 1; 0]%Q
                  [[[true; false]]; [[false; false]]]
                  (Vec3 0 0 0) (Vec3 1 1 1) (Clip2 2 1))).
  reflexivity.
Defined.

(** ** The chunks of the grand loop *)

Lemma xrange_step_Ok (n cs : nat) :
  (1 ≤ cs)%nat →
  xrange_step 0 n cs = Ok ((λ k, k * cs)%nat <$> seq 0 ((n + cs - 1) / cs)%nat).
Proof.
  intros Hcs. unfold xrange_step. rewrite bool_decide_eq_false_2 by lia.
  by rewrite Nat.sub_0_r.
Qed.

Lemma chunk_count_bounds (n cs : nat) :
  (1 ≤ cs)%nat →
  let m := ((n + cs - 1) / cs)%nat in
  (n ≤ m * cs < n + cs)%nat.
Proof.
  intros Hcs m.
  pose proof (Nat.div_mod (n + cs - 1) cs ltac:(lia)) as Hdm.
  pose proof (Nat.mod_upper_bound (n + cs - 1) cs ltac:(lia)) as Hmod.
  fold m in Hdm. lia.
Qed.

(** Chunks cut against a bound [B]: as long as every chunk but the last
    starts below [B], their ranges concatenate to an initial segment. *)
Lemma chunk_ranges_concat (B cs j : nat) :
  (1 ≤ cs)%nat → (j = 0 ∨ (j - 1) * cs < B)%nat →
  concat ((λ k, xrange (k * cs) (B `min` (k * cs + cs)))%nat <$> seq 0 j) =
  seq 0 (B `min` (j * cs))%nat.
Proof.
  intros Hcs. induction j as [|j IH]; intros Hj.
  - simpl. by rewrite Nat.min_0_r.
  - rewrite seq_S, fmap_app, concat_app, IH by nia. simpl.
    rewrite app_nil_r. unfold xrange.
    assert (Hlt : (j * cs < B)%nat) by (destruct Hj; [lia | nia]).
    rewrite (Nat.min_r B (j * cs)) by lia.
    replace (B `min` (cs + j * cs))%nat
      with (j * cs + (B `min` (j * cs + cs) - j * cs))%nat by lia.
    by rewrite seq_app.
Qed.

Lemma chunk_ranges_cut (B n cs : nat) :
  (1 ≤ cs)%nat → (n ≤ B)%nat →
  concat ((λ s, xrange s (B `min` (s + cs))%nat)
            <$> ((λ k, k * cs)%nat <$> seq 0 ((n + cs - 1) / cs)%nat))
  = seq 0 (B `min` ((n + cs - 1) / cs * cs))%nat.
Proof.
  intros Hcs HB. rewrite <- list_fmap_compose.
  pose proof (chunk_count_bounds n cs Hcs) as Hm. simpl in Hm.
  apply (chunk_ranges_concat B cs _ Hcs).
  destruct ((n + cs - 1) / cs)%nat; [by left | right; nia].
Qed.

Lemma serial_ranges_concat (n cs : nat) (chunks : list nat) :
  xrange_step 0 n cs = Ok chunks →
  concat (chunk_range_serial n cs <$> chunks) = seq 0 n.
Proof.
  unfold xrange_step. case_bool_decide as Hcs; [done|]. intros [= <-].
  rewrite Nat.sub_0_r. unfold chunk_range_serial.
  rewrite chunk_ranges_cut by lia. f_equal.
  pose proof (chunk_count_bounds n cs ltac:(lia)) as Hm. simpl in Hm. lia.
Qed.

(** ** Order of the chunks *)

Lemma same_outcome_refl {A} (r : result A) : same_outcome r r.
Proof. by intros a. Qed.

Lemma same_outcome_trans {A} (r1 r2 r3 : result A) :
  same_outcome r1 r2 → same_outcome r2 r3 → same_outcome r1 r3.
Proof. intros H1 H2 a. by rewrite (H1 a). Qed.

Lemma same_outcome_bind_l {A B} (r1 r2 : result A) (k : A → result B) :
  same_outcome r1 r2 → same_outcome (r1 ≫= k) (r2 ≫= k).
Proof.
  intros H b. rewrite !bind_Ok. split; intros (a & Ha & Hk); exists a;
    (split; [by apply H | done]).
Qed.

Lemma same_outcome_bind_r {A B} (r : result A) (k1 k2 : A → result B) :
  (∀ a, same_outcome (k1 a) (k2 a)) → same_outcome (r ≫= k1) (r ≫= k2).
Proof.
  intros H b. rewrite !bind_Ok. split; intros (a & Ha & Hk); exists a;
    (split; [done | by apply (H a)]).
Qed.

(** A loop whose iterations commute gives the same outcome in any order. *)
Lemma for_each_Permutation {A St} (f : A → St → result St) (l1 l2 : list A) :
  (∀ x y s, same_outcome (f x s ≫= f y) (f y s ≫= f x)) →
  l1 ≡ₚ l2 →
  ∀ s, same_outcome (for_each l1 f s) (for_each l2 f s).
Proof.
  intros Hcomm Hperm.
  induction Hperm as [|x l l' _ IH|x y l|l l' l'' _ IH1 _ IH2]; intros s.
  - apply same_outcome_refl.
  - simpl. by apply same_outcome_bind_r.
  - simpl. rewrite <- !bind_assoc. by apply same_outcome_bind_l.
  - by eapply same_outcome_trans.
Qed.

Lemma concat_fmap_Permutation {A B} (f : A → list B) (l1 l2 : list A) :
  l1 ≡ₚ l2 → concat (f <$> l1) ≡ₚ concat (f <$> l2).
Proof.
  induction 1 as [|x l l' _ IH|x y l|l l' l'' _ IH1 _ IH2]; simpl.
  - done.
  - by rewrite IH.
  - rewrite !app_assoc. by rewrite (Permutation_app_comm (f y) (f x)).
  - by etrans.
Qed.

Section ChunkOrder.

Context {Distortion PlaneData : Type}.
Variable project :
  list vec3 → mat3 → mat3 → Q → list Q → list Q → list Q →
  option Distortion → list (Q * Q) * list mat3.
Variable image : volume.
Variable angles : list (list vec3).
Variable coords : list (list Q).
Variable experiment : Experiment Distortion PlaneData.

Let body := _grand_loop_inner_body project image angles coords experiment.

Lemma body_swap p1 p2 m m2 :
  body p1 m ≫= body p2 = Ok m2 → body p2 m ≫= body p1 = Ok m2.
Proof.
  destruct p1 as [v1 g1], p2 as [v2 g2]. unfold body, _grand_loop_inner_body.
  cbv beta iota.
  intros (m1 & (c1 & Hc1 & Hs1)%bind_Ok & (c2 & Hc2 & Hs2)%bind_Ok)%bind_Ok.
  destruct (decide ((v1, g1) = (v2, g2))) as [[= <- <-]|Hne].
  - rewrite Hc1. simpl. rewrite Hs1. simpl. congruence.
  - rewrite Hc2. simpl.
    assert (Htw : matrix_set m g2 v2 c2 ≫= (λ m1, matrix_set m1 g1 v1 c1)
                  = Ok m2).
    { apply (matrix_set_twice m m2 g1 v1 c1 g2 v2 c2).
      - destruct (decide (g1 = g2)); [|by left]. right. congruence.
      - rewrite Hs1. simpl. done. }
    apply bind_Ok in Htw as (m1' & Hm1' & Hm2). rewrite Hm1'. simpl.
    rewrite ?Hc1. simpl. done.
Qed.

Lemma body_comm p1 p2 m :
  same_outcome (body p1 m ≫= body p2) (body p2 m ≫= body p1).
Proof. intros m2. split; apply body_swap. Qed.

(** Any two orders of the same cells give the same matrix, or both fail. *)
Lemma cells_order_irrelevant (w1 w2 : list (nat * nat)) (m : matrix) :
  w1 ≡ₚ w2 → same_outcome (for_each w1 body m) (for_each w2 body m).
Proof. intros Hp. apply for_each_Permutation; [apply body_comm | done]. Qed.

(** The same cells written into two matrices of the same shape: the second
    run succeeds when the first does, and afterwards the two matrices agree
    on every written cell and wherever they agreed before. *)
Lemma two_runs (w : list (nat * nat)) (ma mb ma' : matrix) :
  same_shape ma mb →
  for_each w body ma = Ok ma' →
  ∃ mb', for_each w body mb = Ok mb' ∧ same_shape ma' mb' ∧
         ∀ g v, ((v, g) ∈ w ∨ cell ma g v = cell mb g v) →
                cell ma' g v = cell mb' g v.
Proof.
  revert ma mb. induction w as [|[v0 g0] w IH]; intros ma mb Hshape Hrun.
  - injection Hrun as <-. exists mb. repeat split; try done.
    intros g v [Hin|Heq]; [by apply elem_of_nil in Hin | done].
  - simpl in Hrun. apply bind_Ok in Hrun as (ma1 & Hstep & Hrun).
    unfold body, _grand_loop_inner_body in Hstep.
    apply bind_Ok in Hstep as (c & Hc & Hset).
    apply matrix_set_Ok in Hset as (ra & Hra & Hv & ->).
    destruct (Forall2_lookup_l _ _ _ _ _ Hshape Hra) as (rb & Hrb & Hlen).
    destruct (IH (<[g0 := <[v0 := c]> ra]> ma) (<[g0 := <[v0 := c]> rb]> mb))
      as (mb' & Hrunb & Hshape' & Hcells); [|done|].
    { apply same_shape_insert; [done|]. by rewrite !length_insert. }
    exists mb'. split; [|split; [done|]].
    + simpl. unfold body at 1, _grand_loop_inner_body. rewrite Hc. simpl.
      unfold matrix_set. rewrite (getitem_Some _ _ _ Hrb). simpl.
      rewrite bool_decide_eq_true_2 by lia. done.
    + intros g v Hgv. apply Hcells.
      rewrite !cell_insert by (done || lia).
      destruct (decide (g0 = g ∧ v0 = v)) as [[<- <-]|Hne]; [by right|].
      destruct Hgv as [Hin|Heq]; [|by right].
      apply elem_of_cons in Hin as [[= -> ->]|Hin]; [tauto | by left].
Qed.

Lemma cells_serial_covers (n chunk_size : nat) (chunks : list nat) (g v : nat) :
  concat (chunk_range_serial n chunk_size <$> chunks) = seq 0 n →
  (v < n)%nat → (g < length angles)%nat →
  (v, g) ∈ concat (cells_serial angles n chunk_size <$> chunks).
Proof.
  intros Hcat Hv Hg.
  assert (Hin : v ∈ concat (chunk_range_serial n chunk_size <$> chunks)).
  { rewrite Hcat. apply elem_of_seq. lia. }
  clear Hcat. induction chunks as [|chunk chunks IH]; simpl in *.
  - by apply elem_of_nil in Hin.
  - apply elem_of_app in Hin as [Hin|Hin]; apply elem_of_app.
    + left. unfold cells_serial. apply list_elem_of_In, in_prod.
      * by apply list_elem_of_In.
      * apply list_elem_of_In. unfold xrange. apply elem_of_seq. lia.
    + right. by apply IH.
Qed.

(** One chunk of either branch is a loop over its cells. *)
Lemma serial_body_cells (n_coords chunk_size chunk : nat)
    (confidence : matrix) (finished : nat) (controller : Controller) :
  serial_body project n_coords chunk_size image angles coords experiment
    chunk (confidence, finished, controller)
  = confidence' ← for_each (cells_serial angles n_coords chunk_size chunk) body
                    confidence;
    Ok (confidence', (finished + 1)%nat,
        emit (EvUpdate (finished + 1)) controller).
Proof. reflexivity. Qed.

Lemma parallel_body_cells (chunk_size chunk : nat) (shared : matrix)
    (confidence : matrix) (finished : nat) (controller : Controller) :
  parallel_body project
    (MkMpState chunk_size shared image angles coords experiment)
    chunk (confidence, finished, controller)
  = confidence' ← for_each (cells_parallel angles coords chunk_size chunk) body confidence;
    Ok (confidence', (finished + 1)%nat,
        emit (EvUpdate (finished + 1)) controller).
Proof. reflexivity. Qed.

(** The serial loop writes the cells of its chunks one after the other
    and counts the chunks. *)
Lemma serial_loop_cells (n_coords chunk_size : nat) (chunks : list nat)
    (confidence : matrix) (finished : nat) (controller : Controller) :
  for_each chunks
    (serial_body project n_coords chunk_size image angles coords experiment)
    (confidence, finished, controller)
  = confidence' ← for_each (concat (cells_serial angles n_coords chunk_size <$> chunks))
                    body confidence;
    Ok (confidence', (finished + length chunks)%nat,
        progress finished (length chunks) controller).
Proof.
  revert confidence finished controller.
  induction chunks as [|chunk chunks IH]; intros confidence finished controller.
  - simpl. by rewrite Nat.add_0_r.
  - cbn [for_each fmap list_fmap concat]. rewrite for_each_app.
    rewrite serial_body_cells.
    destruct (for_each (cells_serial angles n_coords chunk_size chunk) body confidence)
      as [confidence1|e]; [|done].
    cbn [mbind result_mbind result_bind]. rewrite IH.
    destruct (for_each _ body confidence1); [|done]. simpl.
    do 3 f_equal. lia.
Qed.

(** So does the worker pool, chunk by chunk as they are scheduled. *)
Lemma parallel_loop_cells (chunk_size : nat) (shared : matrix)
    (chunks : list nat)
    (confidence : matrix) (finished : nat) (controller : Controller) :
  for_each chunks
    (parallel_body project
       (MkMpState chunk_size shared image angles coords experiment))
    (confidence, finished, controller)
  = confidence' ← for_each (concat (cells_parallel angles coords chunk_size <$> chunks))
                    body confidence;
    Ok (confidence', (finished + length chunks)%nat,
        progress finished (length chunks) controller).
Proof.
  revert confidence finished controller.
  induction chunks as [|chunk chunks IH]; intros confidence finished controller.
  - simpl. by rewrite Nat.add_0_r.
  - cbn [for_each fmap list_fmap concat]. rewrite for_each_app.
    rewrite parallel_body_cells.
    destruct (for_each (cells_parallel angles coords chunk_size chunk) body confidence)
      as [confidence1|e]; [|done].
    cbn [mbind result_mbind result_bind]. rewrite IH.
    destruct (for_each _ body confidence1); [|done]. simpl.
    do 3 f_equal. lia.
Qed.

(** Executing [_grand_loop_inner] over the chunks in any order gives the
    same matrix, the same count and the same progress reports, or fails
    in every order: for the calls of the serial branch ... *)
Theorem serial_chunk_order_irrelevant (n_coords chunk_size : nat)
    (chunks order : list nat) (st : matrix * nat * Controller) :
  order ≡ₚ chunks →
  same_outcome
    (for_each order
       (serial_body project n_coords chunk_size image angles coords experiment)
       st)
    (for_each chunks
       (serial_body project n_coords chunk_size image angles coords experiment)
       st).
Proof.
  intros Hperm. destruct st as [[confidence finished] controller].
  rewrite !serial_loop_cells. rewrite (Permutation_length Hperm).
  apply same_outcome_bind_l, cells_order_irrelevant.
  by apply concat_fmap_Permutation.
Qed.

(** ... and for the calls of the worker pool. *)
Theorem parallel_chunk_order_irrelevant (chunk_size : nat) (shared : matrix)
    (chunks order : list nat) (st : matrix * nat * Controller) :
  order ≡ₚ chunks →
  same_outcome
    (for_each order
       (parallel_body project
          (MkMpState chunk_size shared image angles coords experiment)) st)
    (for_each chunks
       (parallel_body project
          (MkMpState chunk_size shared image angles coords experiment)) st).
Proof.
  intros Hperm. destruct st as [[confidence finished] controller].
  rewrite !parallel_loop_cells. rewrite (Permutation_length Hperm).
  apply same_outcome_bind_l, cells_order_irrelevant.
  by apply concat_fmap_Permutation.
Qed.

End ChunkOrder.

Lemma list_prod_app {A B} (l1 l2 : list A) (k : list B) :
  list_prod (l1 ++ l2) k = list_prod l1 k ++ list_prod l2 k.
Proof.
  induction l1 as [|a l1 IH]; simpl; [done|]. by rewrite IH, app_assoc.
Qed.

Lemma list_prod_concat {A B C} (r : C → list A) (chunks : list C)
    (k : list B) :
  concat ((λ c, list_prod (r c) k) <$> chunks)
  = list_prod (concat (r <$> chunks)) k.
Proof.
  induction chunks as [|c chunks IH]; [done|].
  cbn [fmap list_fmap concat]. rewrite list_prod_app. f_equal. exact IH.
Qed.

(** C4. For a chunk size of at least 1 the chunk loop of
    [_grand_loop_precomp] starts its chunks at [0, chunk_size,
    2*chunk_size, ...] below [n].  The ranges
    [[start, min(n, start + chunk_size))] of the serial branch, taken in
    order, are [0, 1, ..., n-1]: the calls of [_grand_loop_inner] the
    serial loop makes are together one pass of the loop body over the
    voxel indices [0 .. n-1], each once, with one progress report per
    chunk.  [multiproc_inner_loop] cuts its range at [len(coords)], not
    at [n]: the calls of the worker pool are together one pass over the
    voxel indices below [last = min(len(coords), chunks * chunk_size)],
    each once, in whatever order the pool runs them.  These are the
    indices [0 .. n-1] exactly when [len(coords) = n] or [n] is a
    multiple of the chunk size; otherwise the last range of the pool runs
    past [n]. *)
Theorem chunk_ranges_partition {Distortion PlaneData : Type}
    (project : list vec3 → mat3 → mat3 → Q → list Q → list Q → list Q →
               option Distortion → list (Q * Q) * list mat3)
    (image : volume) (angles : list (list vec3)) (coords : list (list Q))
    (experiment : Experiment Distortion PlaneData)
    (n chunk_size : nat) (shared confidence : matrix) (finished : nat)
    (controller : Controller) :
  (1 ≤ chunk_size)%nat →
  let body := _grand_loop_inner_body project image angles coords experiment in
  let grains := xrange 0 (length angles) in
  ∃ chunks,
    xrange_step 0 n chunk_size = Ok chunks ∧
    chunks = (λ k, k * chunk_size)%nat <$> seq 0 (length chunks) ∧
    concat ((λ chunk_start,
               xrange chunk_start (n `min` (chunk_start + chunk_size))%nat)
              <$> chunks) = seq 0 n ∧
    for_each chunks
      (serial_body project n chunk_size image angles coords experiment)
      (confidence, finished, controller)
    = (confidence' ← for_each (list_prod (seq 0 n) grains) body confidence;
       Ok (confidence', (finished + length chunks)%nat,
           progress finished (length chunks) controller)) ∧
    ((n ≤ length coords)%nat →
     let last := (length coords `min` (length chunks * chunk_size))%nat in
     concat ((λ chunk,
                xrange chunk (length coords `min` (chunk + chunk_size))%nat)
               <$> chunks) = seq 0 last ∧
     for_each chunks
       (parallel_body project
          (MkMpState chunk_size shared image angles coords experiment))
       (confidence, finished, controller)
     = (confidence' ← for_each (list_prod (seq 0 last) grains) body confidence;
        Ok (confidence', (finished + length chunks)%nat,
            progress finished (length chunks) controller)) ∧
     (∀ order, order ≡ₚ chunks →
        same_outcome
          (for_each order
             (parallel_body project
                (MkMpState chunk_size shared image angles coords experiment))
             (confidence, finished, controller))
          (for_each chunks
             (parallel_body project
                (MkMpState chunk_size shared image angles coords experiment))
             (confidence, finished, controller))) ∧
     (n ≤ last)%nat ∧
     (last = n ↔ length coords = n ∨ (n `mod` chunk_size)%nat = 0%nat)).
Proof.
  intros Hcs body grains.
  set (m := ((n + chunk_size - 1) / chunk_size)%nat).
  pose proof (chunk_count_bounds n chunk_size Hcs) as Hm. simpl in Hm.
  fold m in Hm.
  pose proof (xrange_step_Ok n chunk_size Hcs) as Hx. fold m in Hx.
  pose proof (serial_ranges_concat n chunk_size _ Hx) as Hser.
  exists ((λ k, k * chunk_size)%nat <$> seq 0 m).
  rewrite length_fmap, length_seq.
  split; [done|]. split; [done|]. split; [exact Hser|]. split.
  - rewrite serial_loop_cells. unfold cells_serial.
    rewrite (list_prod_concat (chunk_range_serial n chunk_size)), Hser.
    by rewrite length_fmap, length_seq.
  - intros Hlen last.
    assert (Hpar :
      concat ((λ chunk,
                 xrange chunk (length coords `min` (chunk + chunk_size))%nat)
                <$> ((λ k, k * chunk_size)%nat <$> seq 0 m)) = seq 0 last).
    { unfold m, last. by apply chunk_ranges_cut. }
    split; [exact Hpar|]. split.
    { rewrite parallel_loop_cells. unfold cells_parallel.
      rewrite (list_prod_concat
                 (chunk_range_parallel (length coords) chunk_size)).
      unfold chunk_range_parallel at 1. rewrite Hpar.
      by rewrite length_fmap, length_seq. }
    split.
    { intros order Hperm. by apply parallel_chunk_order_irrelevant. }
    split; [unfold last; lia|].
    pose proof (Nat.div_mod n chunk_size ltac:(lia)) as Hdm.
    pose proof (Nat.mod_upper_bound n chunk_size ltac:(lia)) as Hub.
    unfold last. split.
    + intros Hlast.
      destruct (decide (length coords = n)) as [|Hne]; [by left | right].
      assert (Hmn : (m * chunk_size = n)%nat) by lia.
      rewrite <- Hmn. apply Nat.Div0.mod_mul.
    + intros [Heq | Hmod]; [lia|].
      rewrite Hmod, Nat.add_0_r in Hdm.
      assert (Hq : m = (n / chunk_size)%nat) by nia. lia.
Qed.

(** With 5 test coordinates of which a limit admits 3, in chunks of 2:
    the serial ranges are [0, 1] and [2], the ranges of the pool are
    [0, 1] and [2, 3]. *)
Lemma chunk_ranges_partition_witness :
  xrange_step 0 3 2 = Ok [0; 2]%nat ∧
  concat ((λ chunk_start, xrange chunk_start (3 `min` (chunk_start + 2))%nat)
            <$> [0; 2]%nat) = [0; 1; 2]%nat ∧
  concat ((λ chunk, xrange chunk (5 `min` (chunk + 2))%nat)
            <$> [0; 2]%nat) = [0; 1; 2; 3]%nat.
Proof.
  destruct (chunk_ranges_partition toy_project toy_volume toy_angles
              (replicate 5 [0; 0; 0]%Q) toy_experiment 3 2 [] [[0; 0; 0]%Q]
              0%nat (MkController ∅ 2 1 []) ltac:(lia))
    as (chunks & Hx & _ & Hser & _ & Hpool).
  assert (chunks = [0; 2]%nat) as -> by (vm_compute in Hx; congruence).
  split; [exact Hx|]. split; [exact Hser|].
  destruct Hpool as (Hpar & _); [simpl; lia|]. exact Hpar.
Defined.

(** X6. The completion order of the pool does not show in what the chunk
    loop returns: the matrix, the progress reports and the reported result are
    the same for any two schedules, or the loop fails under both. *)
Theorem schedule_irrelevant {Distortion PlaneData : Type}
    (project : list vec3 → mat3 → mat3 → Q → list Q → list Q → list Q →
               option Distortion → list (Q * Q) * list mat3)
    (sched1 sched2 : list nat → list nat) (junk : nat → nat → Q)
    (image : volume) (angles : list (list vec3)) (coords : list (list Q))
    (experiment : Experiment Distortion PlaneData) (controller : Controller) :
  (∀ l, sched1 l ≡ₚ l) → (∀ l, sched2 l ≡ₚ l) →
  same_outcome
    (chunk_loop project sched1 junk image angles coords experiment controller)
    (chunk_loop project sched2 junk image angles coords experiment controller).
Proof.
  intros H1 H2. unfold chunk_loop.
  apply same_outcome_bind_r. intros chunks.
  apply same_outcome_bind_l.
  case_bool_decide; [|apply same_outcome_refl].
  eapply same_outcome_trans.
  - apply parallel_chunk_order_irrelevant, H1.
  - intros a. symmetry. revert a.
    apply parallel_chunk_order_irrelevant, H2.
Qed.

Lemma schedule_irrelevant_witness :
  same_outcome
    (chunk_loop toy_project id (λ _ _, 0%Q) toy_volume toy_angles
       (replicate 3 [0; 0; 0]%Q) toy_experiment (MkController ∅ 2 2 []))
    (chunk_loop toy_project reverse (λ _ _, 0%Q) toy_volume toy_angles
       (replicate 3 [0; 0; 0]%Q) toy_experiment (MkController ∅ 2 2 [])).
Proof.
  apply schedule_irrelevant.
  - done.
  - intros l. apply reverse_Permutation.
Defined.

(** ** Serial and parallel runs *)

Section Branches.

Context {Distortion PlaneData : Type}.
Variable project :
  list vec3 → mat3 → mat3 → Q → list Q → list Q → list Q →
  option Distortion → list (Q * Q) * list mat3.
Variable sched : list nat → list nat.
Variable junk : nat → nat → Q.
Variable image : volume.
Variable angles : list (list vec3).
Variable coords : list (list Q).
Variable experiment : Experiment Distortion PlaneData.

Let body := _grand_loop_inner_body project image angles coords experiment.

(** What the serial branch of the chunk loop returns ... *)
Lemma chunk_loop_serial_Ok (controller : Controller) (m : matrix) :
  (process_count controller ≤ 1)%nat →
  let n_coords := limit controller "coords" (length coords) in
  (∃ c, chunk_loop project sched junk image angles coords experiment
          controller = Ok (m, c)) ↔
  ∃ chunks,
    xrange_step 0 n_coords (chunk_size controller) = Ok chunks ∧
    for_each
      (concat (cells_serial angles n_coords (chunk_size controller) <$> chunks))
      body (np_empty junk (n_grains experiment) n_coords) = Ok m.
Proof.
  intros Hcpu n_coords. unfold chunk_loop. fold n_coords.
  rewrite bool_decide_eq_false_2 by lia.
  destruct (xrange_step 0 n_coords (chunk_size controller)) as [chunks|e];
    simpl.
  - rewrite serial_loop_cells. fold body.
    destruct (for_each _ body _) as [m'|e] eqn:Hrun; simpl.
    + split.
      * intros (c & [= <- _]). by exists chunks.
      * intros (chunks' & [= <-] & Hrun'). rewrite Hrun in Hrun'.
        injection Hrun' as <-. by eexists.
    + split; [by intros (c & [=])|].
      intros (chunks' & [= <-] & Hrun'). by rewrite Hrun in Hrun'.
  - split; [by intros (c & [=]) | by intros (chunks' & [=] & _)].
Qed.

(** ... and what the worker-pool branch returns. *)
Lemma chunk_loop_parallel_Ok (controller : Controller) (m : matrix) :
  (1 < process_count controller)%nat →
  let n_coords := limit controller "coords" (length coords) in
  (∃ c, chunk_loop project sched junk image angles coords experiment
          controller = Ok (m, c)) ↔
  ∃ chunks,
    xrange_step 0 n_coords (chunk_size controller) = Ok chunks ∧
    for_each
      (concat (cells_parallel angles coords (chunk_size controller)
                 <$> sched chunks))
      body (shared_array (n_grains experiment) n_coords) = Ok m.
Proof.
  intros Hcpu n_coords. unfold chunk_loop. fold n_coords.
  rewrite bool_decide_eq_true_2 by lia.
  destruct (xrange_step 0 n_coords (chunk_size controller)) as [chunks|e];
    simpl.
  - rewrite parallel_loop_cells. fold body.
    destruct (for_each _ body _) as [m'|e] eqn:Hrun; simpl.
    + split.
      * intros (c & [= <- _]). by exists chunks.
      * intros (chunks' & [= <-] & Hrun'). rewrite Hrun in Hrun'.
        injection Hrun' as <-. by eexists.
    + split; [by intros (c & [=])|].
      intros (chunks' & [= <-] & Hrun'). by rewrite Hrun in Hrun'.
  - split; [by intros (c & [=]) | by intros (chunks' & [=] & _)].
Qed.

(** X7. When the limit admits every coordinate and the matrix has one row
    per angle table, the serial branch and the worker pool return the same
    matrix, whatever the pool's completion order and whatever the
    uninitialised matrix of the serial branch held. *)
Theorem serial_parallel_agree_unclamped (serial pool : Controller) (m : matrix) :
  (∀ l, sched l ≡ₚ l) →
  limits serial = limits pool →
  chunk_size serial = chunk_size pool →
  (process_count serial ≤ 1)%nat → (1 < process_count pool)%nat →
  limit serial "coords" (length coords) = length coords →
  n_grains experiment = length angles →
  (∃ c, chunk_loop project sched junk image angles coords experiment serial
        = Ok (m, c)) ↔
  (∃ c, chunk_loop project sched junk image angles coords experiment pool
        = Ok (m, c)).
Proof.
  intros Hsched Hlim Hcs Hs Hp Hn Hrows.
  rewrite chunk_loop_serial_Ok, chunk_loop_parallel_Ok by done.
  assert (Hn' : limit pool "coords" (length coords) = length coords).
  { unfold limit in *. by rewrite <- Hlim. }
  rewrite Hn, Hn', <- Hcs.
  set (n := length coords). set (cs := chunk_size serial).
  set (R := n_grains experiment).
  assert (Hcells : ∀ chunks,
            concat (cells_parallel angles coords cs <$> sched chunks)
            ≡ₚ concat (cells_serial angles n cs <$> chunks)).
  { intros chunks. by apply concat_fmap_Permutation. }
  assert (Hagree : ∀ chunks ma mb,
            concat (chunk_range_serial n cs <$> chunks) = seq 0 n →
            same_shape ma mb →
            (∀ g v, ¬ (g < R ∧ v < n)%nat → cell ma g v = cell mb g v) →
            for_each (concat (cells_serial angles n cs <$> chunks)) body ma
              = Ok m →
            for_each (concat (cells_serial angles n cs <$> chunks)) body mb
              = Ok m).
  { intros chunks ma mb Hcat Hshape Hout Hrun.
    destruct (two_runs project image angles coords experiment _ ma mb m
                Hshape Hrun) as (mb' & Hrunb & Hshape' & Hc).
    fold body in Hrunb. rewrite Hrunb. f_equal. symmetry.
    apply same_shape_ext; [done|]. intros g v. apply Hc.
    destruct (decide (g < R ∧ v < n)%nat) as [[Hg Hv]|Hno].
    - left. apply cells_serial_covers; [done | done | ]. unfold R in Hg. lia.
    - right. by apply Hout. }
  split; intros (chunks & Hx & Hrun); exists chunks; (split; [done|]).
  - apply (cells_order_irrelevant project image angles coords experiment
             _ _ _ (Hcells chunks)). fold body.
    apply (Hagree chunks (np_empty junk R n)); try done.
    + by eapply serial_ranges_concat.
    + apply np_empty_shared_same_shape.
    + intros g v. apply np_empty_shared_cell_outside.
  - apply (cells_order_irrelevant project image angles coords experiment
             _ _ _ (Hcells chunks)) in Hrun. fold body in Hrun.
    apply (Hagree chunks (shared_array R n)); try done.
    + by eapply serial_ranges_concat.
    + apply Forall2_flip. eapply Forall2_impl;
        [apply np_empty_shared_same_shape | by intros].
    + intros g v Hgv. symmetry. by apply np_empty_shared_cell_outside.
Qed.

End Branches.

(** C5. With a voxel limit that is not a multiple of the chunk size the
    serial branch and the worker pool do not produce the same matrix: the
    serial branch fills the 150 admitted columns, while
    [multiproc_inner_loop] stops its last chunk at
    [min(len(coords), chunk + chunk_size) = 200] and raises IndexError at
    column 150, whichever chunk the pool runs first. *)
Theorem limited_run_serial_parallel_differ :
  (∃ controller',
     chunk_loop toy_project id (λ _ _, 0%Q) toy_volume toy_angles
       limited_coords toy_experiment serial_controller
     = Ok ([replicate 150 1%Q], controller')) ∧
  (∀ sched : list nat → list nat,
     sched [0; 100]%nat ≡ₚ [0; 100]%nat →
     chunk_loop toy_project sched (λ _ _, 0%Q) toy_volume toy_angles
       limited_coords toy_experiment (ProcessController (Some 150%nat))
     = Raise IndexError).
Proof.
  split.
  - eexists. vm_compute. reflexivity.
  - intros sched Hperm.
    assert (Hs : sched [0; 100]%nat = [0; 100]%nat
                 ∨ sched [0; 100]%nat = [100; 0]%nat).
    { by apply Permutation_length_2_inv, Permutation_sym. }
    unfold chunk_loop.
    change (limit (ProcessController (Some 150%nat)) "coords"
              (length limited_coords)) with 150%nat.
    change (chunk_size (ProcessController (Some 150%nat))) with 100%nat.
    change (process_count (ProcessController (Some 150%nat))) with 8%nat.
    change (xrange_step 0 150 100) with (Ok [0; 100]%nat).
    cbn [mbind result_mbind result_bind].
    rewrite bool_decide_eq_true_2 by lia.
    destruct Hs as [-> | ->]; by vm_compute.
Qed.

(** ** The dilation pass *)

Lemma np_empty_like_length junk v : length (np_empty_like junk v) = length v.
Proof. unfold np_empty_like. apply length_imap. Qed.

(** The frames [k, k+n) of the loop: the source array and every other
    array stay as they are, and the output array receives the dilated
    frames at those positions. *)
Lemma dilate_loop (ski_dilation : frame → list (list Z) → frame)
    (image_stack image_stack_dilated : loc) (shape : list (list Z))
    (src : volume) (n k : nat) (h : heap) (out : volume) (c : Controller) :
  image_stack_dilated ≠ image_stack →
  h !! image_stack = Some src →
  h !! image_stack_dilated = Some out →
  length out = length src →
  (k + n ≤ length src)%nat →
  ∃ h' out' c',
    for_each (seq k n)
      (dilate_body ski_dilation image_stack image_stack_dilated shape) (h, c)
      = Ok (h', c') ∧
    h' !! image_stack = Some src ∧
    h' !! image_stack_dilated = Some out' ∧
    length out' = length src ∧
    (∀ l, l ≠ image_stack_dilated → h' !! l = h !! l) ∧
    (∀ i, (k ≤ i < k + n)%nat →
       out' !! i = (λ f, ski_dilation f shape) <$> src !! i) ∧
    (∀ i, ¬ (k ≤ i < k + n)%nat → out' !! i = out !! i).
Proof.
  intros Hne. revert k h out c.
  induction n as [|n IH]; intros k h out c Hsrc Hout Hlen Hk.
  - exists h, out, c. simpl. repeat split; try done. intros i Hi. lia.
  - destruct (lookup_lt_is_Some_2 src k ltac:(lia)) as [f Hf].
    destruct (lookup_lt_is_Some_2 out k ltac:(lia)) as [g Hg].
    assert (Hstep :
      dilate_body ski_dilation image_stack image_stack_dilated shape k (h, c)
      = Ok (<[image_stack_dilated := <[k := ski_dilation f shape]> out]> h,
            emit (EvUpdate (k + 1)) c)).
    { unfold dilate_body, deref. rewrite Hsrc, Hout. simpl.
      by rewrite (getitem_Some _ _ _ Hf), (getitem_Some _ _ _ Hg). }
    cbn [seq for_each]. rewrite Hstep. simpl.
    destruct (IH (S k)
                (<[image_stack_dilated := <[k := ski_dilation f shape]> out]> h)
                (<[k := ski_dilation f shape]> out)
                (emit (EvUpdate (k + 1)) c))
      as (h' & out' & c' & Hrun & Hsrc' & Hout' & Hlen' & Hother & Hin & Hrest).
    + by rewrite lookup_insert_ne.
    + by rewrite lookup_insert_eq.
    + by rewrite length_insert.
    + lia.
    + exists h', out', c'. repeat split; try done.
      * intros l Hl. rewrite Hother by done. by rewrite lookup_insert_ne.
      * intros i Hi. destruct (decide (i = k)) as [->|Hik].
        -- rewrite Hrest by lia. rewrite list_lookup_insert_eq by lia.
           by rewrite Hf.
        -- apply Hin. lia.
      * intros i Hi. rewrite Hrest by lia.
        apply list_lookup_insert_ne. lia.
Qed.

(** C7. The dilation pass allocates its output at a fresh reference,
    different from the input's and from every array that exists; it runs
    to completion, leaves the input image stack and every other array as
    they were, and the new array holds the dilated frames. *)
Theorem dilation_does_not_touch_source
    {Distortion PlaneData : Type}
    (ski_dilation : frame → list (list Z) → frame)
    (junk : nat → nat → nat → bool) (h : heap) (image_stack : loc)
    (experiment : Experiment Distortion PlaneData) (controller : Controller)
    (src : volume) :
  h !! image_stack = Some src →
  ∃ image_stack_dilated h' controller',
    dilate_pass ski_dilation junk h image_stack experiment controller
      = Ok (image_stack_dilated, h', controller') ∧
    image_stack_dilated ≠ image_stack ∧
    h !! image_stack_dilated = None ∧
    h' !! image_stack = Some src ∧
    (∀ l, l ≠ image_stack_dilated → h' !! l = h !! l) ∧
    h' !! image_stack_dilated =
      Some ((λ f, ski_dilation f
                    (np_ones2 (2 * row_dilation experiment + 1)
                              (2 * col_dilation experiment + 1))) <$> src).
Proof.
  intros Hsrc.
  set (dst := fresh (dom h)).
  assert (Hfresh : h !! dst = None).
  { apply not_elem_of_dom. apply is_fresh. }
  assert (Hne : dst ≠ image_stack) by congruence.
  set (shape := np_ones2 (2 * row_dilation experiment + 1)
                         (2 * col_dilation experiment + 1)).
  destruct (dilate_loop ski_dilation image_stack dst shape src (length src) 0
              (<[dst := np_empty_like junk src]> h) (np_empty_like junk src)
              (emit (EvStart "dilate image_stack" (length src)) controller))
    as (h' & out' & c' & Hrun & Hsrc' & Hout' & Hlen' & Hother & Hin & _).
  - done.
  - by rewrite lookup_insert_ne.
  - by rewrite lookup_insert_eq.
  - apply np_empty_like_length.
  - lia.
  - exists dst, h', (emit (EvFinish "dilate image_stack") c').
    split; [|repeat split; try done].
    + unfold dilate_pass. fold dst shape. unfold deref.
      rewrite lookup_insert_ne by done. rewrite Hsrc. simpl. unfold range.
      by rewrite Hrun.
    + intros l Hl. rewrite Hother by done. by rewrite lookup_insert_ne.
    + rewrite Hout'. f_equal. apply list_eq. intros i.
      rewrite list_lookup_fmap.
      destruct (decide (i < length src)%nat) as [Hi|Hi].
      * apply Hin. lia.
      * rewrite !lookup_ge_None_2; [done | lia | lia].
Qed.

Lemma dilation_does_not_touch_source_witness :
  let h : heap := {[ 1%positive := toy_volume ]} in
  ∃ image_stack_dilated h' controller',
    dilate_pass (λ f _, f) (λ _ _ _, false) h 1%positive toy_experiment
      (ProcessController None)
      = Ok (image_stack_dilated, h', controller') ∧
    image_stack_dilated ≠ 1%positive ∧
    h' !! 1%positive = Some toy_volume.
Proof.
  intros h.
  destruct (dilation_does_not_touch_source (λ f _, f) (λ _ _ _, false) h
              1%positive toy_experiment (ProcessController None) toy_volume)
    as (dst & h' & c' & Hrun & Hne & _ & Hsrc & _).
  - apply lookup_singleton_eq.
  - by exists dst, h', c'.
Defined.

(** ** The checking result handler *)

Lemma len_slice_to n a : len (slice_to n a) = (n `min` len a)%nat.
Proof. unfold len, slice_to. simpl. by rewrite length_take. Qed.

(** C8, as stated, fails: a produced array and a reference whose rows
    have widths 2 and 3 cannot be compared element-wise; the handler
    catches the exception and logs a failure to check, none of the three
    verdicts. *)
Lemma checker_shape_mismatch_no_verdict :
  handle_result {[ "confidence"%string := mismatch_reference ]}
    "confidence" mismatch_value = [CheckFailure] ∧
  (FAIL ∉ handle_result {[ "confidence"%string := mismatch_reference ]}
            "confidence" mismatch_value) ∧
  (PARTIAL_PASS ∉ handle_result {[ "confidence"%string := mismatch_reference ]}
                    "confidence" mismatch_value) ∧
  (FULL_PASS ∉ handle_result {[ "confidence"%string := mismatch_reference ]}
                 "confidence" mismatch_value).
Proof.
  assert (Hlog : handle_result {[ "confidence"%string := mismatch_reference ]}
                   "confidence" mismatch_value = [CheckFailure])
    by (by vm_compute).
  rewrite Hlog. repeat split; try done; by intros [=]%list_elem_of_singleton.
Qed.

(** C8, amended. For a checked key whose reference is present and whose
    row widths broadcast against the produced value's (equal, or one of
    them 1), the handler compares the first [min(len(reference),
    len(value))] rows of both with tolerance and logs FAIL exactly when
    they differ, PARTIAL PASS exactly when they match and the produced
    value is longer than that window, FULL PASS otherwise; when the widths
    do not broadcast, it logs a failure to check instead. *)
Theorem checker_verdict
    (reference_results : gmap string array2) (key : string)
    (value reference : array2) :
  key ∉ ["experiment"; "image_stack"]%string →
  reference_results !! key = Some reference →
  let check_len := (len reference `min` len value)%nat in
  let close := all_rows_close (width value) (width reference)
                 (take check_len (rows value))
                 (take check_len (rows reference)) in
  let log := handle_result reference_results key value in
  if bool_decide (width value = width reference ∨ width value = 1%nat
                  ∨ width reference = 1%nat)
  then
    (FAIL ∈ log ↔ close = false) ∧
    (PARTIAL_PASS ∈ log ↔ close = true ∧ (check_len < len value)%nat) ∧
    (FULL_PASS ∈ log ↔ close = true ∧ ¬ (check_len < len value)%nat) ∧
    log = (if negb close then [FAIL; FAIL]
           else if bool_decide (len reference < len value)%nat
                then [PARTIAL_PASS] else [FULL_PASS])
  else log = [CheckFailure].
Proof.
  intros Hkey Href check_len close log.
  assert (Hlog : log =
    match np_allclose (slice_to check_len value) (slice_to check_len reference)
    with
    | Ok test_passed =>
        if negb test_passed then [FAIL; FAIL]
        else if bool_decide (check_len < len value)%nat
             then [PARTIAL_PASS] else [FULL_PASS]
    | Raise _ => [CheckFailure]
    end).
  { unfold log, handle_result. rewrite bool_decide_eq_false_2 by done.
    rewrite Href. simpl. unfold check_against. simpl. fold check_len.
    destruct (np_allclose _ _) as [b|e]; simpl; [|done].
    destruct b; simpl; [|done]. by case_bool_decide. }
  assert (Hb : broadcastable (slice_to check_len value)
                 (slice_to check_len reference)
               = bool_decide (width value = width reference
                              ∨ width value = 1%nat ∨ width reference = 1%nat)).
  { unfold broadcastable. rewrite !len_slice_to. simpl.
    rewrite (bool_decide_eq_true_2 (_ = _)) by (unfold check_len; lia). simpl.
    repeat case_bool_decide; simpl; try done; tauto. }
  unfold np_allclose in Hlog. rewrite Hb in Hlog.
  case_bool_decide as Hw; [|done].
  simpl in Hlog. fold close in Hlog. rewrite Hlog.
  destruct close; simpl.
  - case_bool_decide as Hlt.
    + rewrite bool_decide_eq_true_2 by (unfold check_len in Hlt; lia).
      rewrite !list_elem_of_singleton. split_and!; try done; split;
        try done; intros H; by destruct H.
    + rewrite bool_decide_eq_false_2 by (unfold check_len in Hlt; lia).
      rewrite !list_elem_of_singleton. split_and!; try done; split;
        try done; intros H; by destruct H.
  - rewrite !elem_of_cons, !elem_of_nil. clear. intuition congruence.
Qed.

Lemma checker_verdict_witness :
  let reference := MkArray2 2 [[1; 1]]%Q in
  let value := MkArray2 2 [[1; 1]; [0; 0]]%Q in
  handle_result {[ "confidence"%string := reference ]} "confidence" value
    = [PARTIAL_PASS].
Proof.
  intros reference value.
  pose proof (checker_verdict {[ "confidence"%string := reference ]}
                "confidence" value reference) as H.
  cbv zeta in H.
  rewrite bool_decide_eq_true_2 in H by (left; reflexivity).
  destruct H as (_ & _ & _ & H).
  - intros Hin. repeat (apply elem_of_cons in Hin as [Hin|Hin]; [discriminate|]).
    by apply elem_of_nil in Hin.
  - apply lookup_singleton_eq.
  - exact H.
Defined.

(** ** [make_beam_rmat] *)

(** C9. [make_beam_rmat] stores into [out] before [out] is allocated, so
    every call raises, a call with a zero-magnitude beam vector included;
    when the division itself does not raise, the exception is
    UnboundLocalError. *)
Theorem make_beam_rmat_always_raises
    (float : Type) (fadd fsub fmul : float → float → float)
    (fneg fsqrt : float → float) (fdiv : float → float → result float)
    (flt : float → float → bool) (sqrt_epsf junk : float)
    (bvec_l evec_l : fvec3 float) :
  ∃ e, make_beam_rmat float fadd fsub fmul fneg fsqrt fdiv flt sqrt_epsf
         junk bvec_l evec_l = Raise e ∧
       ((∀ a b, ∃ q, fdiv a b = Ok q) → e = UnboundLocalError).
Proof.
  set (bvec_mag := fsqrt (fadd (fadd (sq float fmul (f0 float bvec_l))
                                    (sq float fmul (f1 float bvec_l)))
                              (sq float fmul (f2 float bvec_l)))).
  assert (Hfirst : ∃ e,
            assign_Ze_body float fneg fdiv bvec_l bvec_mag 0 None = Raise e ∧
            ((∀ a b, ∃ q, fdiv a b = Ok q) → e = UnboundLocalError)).
  { unfold assign_Ze_body. simpl.
    destruct (fdiv (fneg (f0 float bvec_l)) bvec_mag) as [q|e] eqn:Hdiv; simpl.
    - by exists UnboundLocalError.
    - exists e. split; [done|]. intros Htotal.
      destruct (Htotal (fneg (f0 float bvec_l)) bvec_mag) as [q Hq].
      congruence. }
  destruct Hfirst as (e & He & Htotal). exists e. split; [|done].
  unfold make_beam_rmat, range. fold bvec_mag. cbn [seq for_each].
  by rewrite He.
Qed.

(** ** The default controller of [get_simulate_diffractions] *)

(** C10. With the default [controller=None], [get_simulate_diffractions]
    raises on both paths: when the cache file loads, at
    [controller.handle_result]; when it does not, already at
    [controller.start] inside [simulate_diffractions].  With a controller
    and a cache file that loads, it returns the cached stack. *)
Theorem get_simulate_diffractions_needs_controller
    {Distortion PlaneData : Type}
    (_project_on_detector_plane :
       list vec3 → mat3 → mat3 → Q → list Q → list Q → list Q →
       option Distortion → list (Q * Q) * list mat3)
    (makeRotMatOfExpMap : list Q → mat3)
    (filtered_angles : PlaneData → Q → mat3 → list Q → list (Q * Q) → list vec3)
    (fs : files) (grain_params : list (list Q))
    (experiment : Experiment Distortion PlaneData) (cache_file : string) :
  get_simulate_diffractions _project_on_detector_plane makeRotMatOfExpMap
    filtered_angles fs grain_params experiment cache_file None
  = Raise AttributeError ∧
  simulate_diffractions _project_on_detector_plane makeRotMatOfExpMap
    filtered_angles grain_params experiment None = Raise AttributeError ∧
  (∀ image_stack controller, fs !! cache_file = Some image_stack →
     get_simulate_diffractions _project_on_detector_plane makeRotMatOfExpMap
       filtered_angles fs grain_params experiment cache_file (Some controller)
     = Ok (image_stack, fs,
           Some (emit (EvResult "image_stack" (ImageStack image_stack))
                   controller))).
Proof.
  split; [|split].
  - unfold get_simulate_diffractions. by destruct (np_load fs cache_file).
  - done.
  - intros image_stack controller H.
    unfold get_simulate_diffractions, np_load. by rewrite H.
Qed.

(** ** The neighbourhood check *)

Lemma first_hit_spec {A} (xs : list A) (test : A → result bool) :
  (∀ x, x ∈ xs → ∃ b, test x = Ok b) →
  ∃ b, first_hit xs test = Ok b ∧
       (b = true ↔ ∃ x, x ∈ xs ∧ test x = Ok true).
Proof.
  induction xs as [|x xs IH]; intros Hok; simpl.
  - exists false. split; [done|]. split; [done|].
    intros (x & Hx & _). by apply elem_of_nil in Hx.
  - destruct (Hok x) as [b Hb]; [by left|]. rewrite Hb. simpl.
    destruct b.
    + exists true. split; [done|]. split; [|done]. intros _. exists x.
      split; [by left | done].
    + destruct IH as (b & Hrun & Hiff).
      { intros y Hy. apply Hok. by right. }
      exists b. split; [done|]. rewrite Hiff. split.
      * intros (y & Hy & Ht). exists y. split; [by right | done].
      * intros (y & Hy & Ht). apply elem_of_cons in Hy as [->|Hy].
        -- congruence.
        -- by exists y.
Qed.

Lemma elem_of_rangeZ (a b k : Z) : k ∈ rangeZ a b ↔ a ≤ k < b.
Proof. unfold rangeZ. rewrite elem_of_seqZ. lia. Qed.

Lemma volume_get_lookup image nf nr nc f fr (r c : Z) :
  volume_shape image nf nr nc →
  - Z.of_nat nf ≤ f < Z.of_nat nf →
  image !! Z.to_nat (f `mod` Z.of_nat nf) = Some fr →
  0 ≤ r < Z.of_nat nr → 0 ≤ c < Z.of_nat nc →
  ∃ b, volume_get image f r c = Ok b ∧
       pixel fr (Z.to_nat r) (Z.to_nat c) = Some b.
Proof.
  intros Hshape Hf Hfr Hr Hc.
  destruct (volume_get_Ok image nf nr nc f r c)
    as (fr' & row & b & Hfr' & Hrow & Hb & Hget); try done; try lia.
  rewrite Z.mod_small in Hrow by lia. rewrite Z.mod_small in Hb by lia.
  exists b. split; [done|].
  assert (fr' = fr) as -> by congruence. unfold pixel. rewrite Hrow. done.
Qed.

(** With a valid frame index the check returns 1.0 exactly when the
    window holds a lit pixel, and never raises. *)
Lemma check_with_dilation_valid image nf nr nc f fr row col rd cd :
  volume_shape image nf nr nc →
  - Z.of_nat nf ≤ f < Z.of_nat nf →
  image !! Z.to_nat (f `mod` Z.of_nat nf) = Some fr →
  ∃ b : bool,
    _check_with_dilation image f row col rd cd (Z.of_nat nr) (Z.of_nat nc)
      = Ok (if b then 1 else 0)%Q ∧
    (b = true ↔ window_lit fr row col rd cd).
Proof.
  intros Hshape Hf Hfr. unfold _check_with_dilation.
  set (rows := rangeZ (Z.max (row - rd) 0) (Z.min (row + rd + 1) (Z.of_nat nr))).
  set (cols := rangeZ (Z.max (col - cd) 0) (Z.min (col + cd + 1) (Z.of_nat nc))).
  assert (Hinner : ∀ r, r ∈ rows →
            ∃ b, first_hit cols (λ c, volume_get image f r c) = Ok b ∧
                 (b = true ↔ ∃ c, c ∈ cols ∧ volume_get image f r c = Ok true)).
  { intros r Hr%elem_of_rangeZ. apply first_hit_spec.
    intros c Hc%elem_of_rangeZ.
    destruct (volume_get_lookup image nf nr nc f fr r c) as (b & Hb & _);
      try done; try lia.
    by exists b. }
  destruct (first_hit_spec rows
              (λ r, first_hit cols (λ c, volume_get image f r c)))
    as (b & Hrun & Hiff).
  { intros r Hr. destruct (Hinner r Hr) as (b & Hb & _). by exists b. }
  exists b. rewrite Hrun. split; [done|]. rewrite Hiff. split.
  - intros (r & Hr & Hhit).
    destruct (Hinner r Hr) as (b' & Hb' & Hiff').
    assert (b' = true) as -> by congruence.
    destruct (proj1 Hiff' eq_refl) as (c & Hc & Hget).
    apply elem_of_rangeZ in Hr, Hc.
    destruct (volume_get_lookup image nf nr nc f fr r c) as (b'' & Hb'' & Hl);
      try done; try lia.
    assert (b'' = true) as -> by congruence.
    exists (Z.to_nat r), (Z.to_nat c). rewrite !Z2Nat.id by lia.
    split; [lia|]. split; [lia | done].
  - intros (r & c & Hr & Hc & Hl). unfold pixel in Hl.
    destruct (fr !! r) as [rw|] eqn:Hrw; [|done]. simpl in Hl.
    destruct Hshape as [Hnf Hall].
    pose proof (proj1 (Forall_lookup _ _) Hall _ _ Hfr) as [Hnr Hrows].
    pose proof (proj1 (Forall_lookup _ _) Hrows _ _ Hrw) as Hnc. simpl in Hnc.
    pose proof (lookup_lt_Some _ _ _ Hrw) as Hrlt.
    pose proof (lookup_lt_Some _ _ _ Hl) as Hclt.
    assert (Hrin : Z.of_nat r ∈ rows) by (apply elem_of_rangeZ; lia).
    assert (Hcin : Z.of_nat c ∈ cols) by (apply elem_of_rangeZ; lia).
    exists (Z.of_nat r). split; [done|].
    destruct (Hinner _ Hrin) as (b' & Hb' & Hiff'). rewrite Hb'. f_equal.
    apply Hiff'. exists (Z.of_nat c). split; [done|].
    destruct (volume_get_lookup image nf nr nc f fr (Z.of_nat r) (Z.of_nat c))
      as (b'' & Hb'' & Hl''); try done; try lia.
    unfold pixel in Hl''. rewrite !Nat2Z.id, Hrw in Hl''. simpl in Hl''.
    congruence.
Qed.

(** X1. For an image of shape (nf, nrows, ncols) and a valid frame index,
    [_check_with_dilation] returns 1.0 exactly when a lit pixel of that
    frame lies within [row_dilation] rows and [col_dilation] columns of
    the given position, and 0.0 otherwise: whatever the position and the
    radii are, the window is cut to the frame and no access is out of
    bounds.  A window that misses the frame is never read, whatever the
    frame index. *)
Theorem check_with_dilation_window
    (image : volume) (nf nr nc : nat) (f row col rd cd : Z) (fr : frame) :
  volume_shape image nf nr nc →
  (- Z.of_nat nf ≤ f < Z.of_nat nf →
   image !! Z.to_nat (f `mod` Z.of_nat nf) = Some fr →
   ∃ b : bool,
     _check_with_dilation image f row col rd cd (Z.of_nat nr) (Z.of_nat nc)
       = Ok (if b then 1 else 0)%Q ∧
     (b = true ↔ window_lit fr row col rd cd)) ∧
  (row + rd < 0 ∨ Z.of_nat nr ≤ row - rd →
   _check_with_dilation image f row col rd cd (Z.of_nat nr) (Z.of_nat nc)
     = Ok 0%Q).
Proof.
  intros Hshape. split.
  - intros Hf Hfr. by eapply check_with_dilation_valid.
  - intros Hout. unfold _check_with_dilation, rangeZ.
    rewrite seqZ_nil by lia. done.
Qed.

Lemma check_with_dilation_window_witness :
  _check_with_dilation [[[false; false; true]]] 0 0 1 0 1 1 3 = Ok 1%Q ∧
  _check_with_dilation [[[false; false; true]]] 0 0 0 0 1 1 3 = Ok 0%Q.
Proof.
  destruct (check_with_dilation_window [[[false; false; true]]] 1 1 3
              0 0 1 0 1 [[false; false; true]]) as [Hin _].
  { repeat constructor. }
  split; [|reflexivity].
  destruct Hin as (b & Hrun & Hiff); [lia | reflexivity |].
  assert (b = true) as ->; [|exact Hrun].
  apply Hiff. exists 0%nat, 2%nat. split; [lia|]. split; [lia | reflexivity].
Defined.

Lemma inject_Z_length_cons {A} (x : A) (xs : list A) :
  (inject_Z (Z.of_nat (length (x :: xs)))
   == inject_Z (Z.of_nat (length xs)) + 1)%Q.
Proof.
  simpl length. rewrite Nat2Z.inj_succ, <- Z.add_1_r, inject_Z_plus.
  reflexivity.
Qed.

(** A loop that adds at most 1 in each iteration adds at most the number
    of its iterations. *)
Lemma for_each_bounded_sum {A} (xs : list A) (body : A → Q → result Q)
    (acc acc' : Q) :
  (∀ x a a', body x a = Ok a' → (a <= a' <= a + 1)%Q) →
  for_each xs body acc = Ok acc' →
  (acc <= acc' <= acc + inject_Z (Z.of_nat (length xs)))%Q.
Proof.
  intros Hb. revert acc. induction xs as [|x xs IH]; intros acc.
  - intros [= <-]. change (inject_Z (Z.of_nat (length (@nil A)))) with 0%Q.
    split; [apply Qle_refl | rewrite Qplus_0_r; apply Qle_refl].
  - cbn [for_each]. intros (a1 & H1 & H2)%bind_Ok.
    apply Hb in H1. apply IH in H2.
    pose proof (inject_Z_length_cons x xs) as Hlen.
    revert H2 Hlen.
    generalize (inject_Z (Z.of_nat (length (x :: xs)))).
    generalize (inject_Z (Z.of_nat (length xs))).
    intros n m H2 Hlen. lra.
Qed.

Lemma over_count_unit (acc c : Q) (count : nat) :
  (0 <= acc <= inject_Z (Z.of_nat count))%Q →
  over_count acc count = Ok c → (0 <= c <= 1)%Q.
Proof.
  intros Hacc. unfold over_count. case_bool_decide as Hn; [done|].
  intros [= <-].
  assert (Hpos : (0 < inject_Z (Z.of_nat count))%Q).
  { unfold Qlt. simpl. lia. }
  revert Hacc Hpos. generalize (inject_Z (Z.of_nat count)). intros n ??.
  split.
  - apply Qle_shift_div_l; [done|]. lra.
  - apply Qle_shift_div_r; [done|]. lra.
Qed.

Lemma check_with_dilation_value image f r c rd cd nr nc v :
  _check_with_dilation image f r c rd cd nr nc = Ok v → v = 1%Q ∨ v = 0%Q.
Proof.
  unfold _check_with_dilation. intros (found & _ & [= <-])%bind_Ok.
  destruct found; auto.
Qed.

(** X2. [_confidence_check] and [_confidence_check_dilated] raise
    ZeroDivisionError on empty index arrays, and every value they return
    lies in [0, 1]. *)
Theorem confidence_checks_unit_interval
    (image : volume) (frame_indices row_indices col_indices : list Z)
    (row_dilation col_dilation nrows ncols : Z) :
  _confidence_check image [] row_indices col_indices row_dilation
    col_dilation nrows ncols = Raise ZeroDivisionError ∧
  _confidence_check_dilated image [] row_indices col_indices
    = Raise ZeroDivisionError ∧
  (∀ c, _confidence_check image frame_indices row_indices col_indices
          row_dilation col_dilation nrows ncols = Ok c → (0 <= c <= 1)%Q) ∧
  (∀ c, _confidence_check_dilated image frame_indices row_indices
          col_indices = Ok c → (0 <= c <= 1)%Q).
Proof.
  split; [done|]. split; [done|]. split.
  - intros c. unfold _confidence_check. intros (acc & Hloop & Hdiv)%bind_Ok.
    apply for_each_bounded_sum in Hloop.
    + unfold range in Hloop. rewrite length_seq in Hloop.
      eapply over_count_unit; [|done].
      revert Hloop. generalize (inject_Z (Z.of_nat (length frame_indices))).
      intros n ?. lra.
    + intros i a a'. unfold _confidence_check_body.
      intros (f & _ & (r & _ & (c' & _ & (v & Hv & [= <-])%bind_Ok)%bind_Ok)
                %bind_Ok)%bind_Ok.
      apply check_with_dilation_value in Hv as [-> | ->]; lra.
  - intros c. unfold _confidence_check_dilated.
    intros (acc & Hloop & Hdiv)%bind_Ok.
    apply for_each_bounded_sum in Hloop.
    + unfold range in Hloop. rewrite length_seq in Hloop.
      eapply over_count_unit; [|done].
      revert Hloop. generalize (inject_Z (Z.of_nat (length frame_indices))).
      intros n ?. lra.
    + intros i a a'. unfold _confidence_check_dilated_body.
      intros (f & _ & (r & _ & (c' & _ & (b & Hb & [= <-])%bind_Ok)%bind_Ok)
                %bind_Ok)%bind_Ok.
      destruct b; lra.
Qed.

Lemma getitem_Ok_lookup {A} (l : list A) i x :
  getitem l i = Ok x → l !! i = Some x.
Proof. unfold getitem. destruct (l !! i); congruence. Qed.

(** One sample: the neighbourhood check on the raw image is the lookup in
    the dilated image. *)
Lemma check_with_dilation_is_lookup image dilated nf nr nc f r c rd cd :
  volume_shape image nf nr nc → volume_shape dilated nf nr nc →
  dilation_of rd cd image dilated →
  0 ≤ rd → 0 ≤ cd →
  - Z.of_nat nf ≤ f < Z.of_nat nf →
  0 ≤ r < Z.of_nat nr → 0 ≤ c < Z.of_nat nc →
  _check_with_dilation image f r c rd cd (Z.of_nat nr) (Z.of_nat nc) =
  (b ← volume_get dilated f r c; Ok (if b : bool then 1 else 0)%Q).
Proof.
  intros Himg Hdil [_ Hd] Hrd Hcd Hf Hr Hc.
  destruct (volume_get_Ok image nf nr nc f r c)
    as (fr & row & b0 & Hfr & Hrow & Hb0 & _); try done; try lia.
  destruct (check_with_dilation_valid image nf nr nc f fr r c rd cd)
    as (b1 & -> & Hb1); try done.
  destruct (volume_get_Ok dilated nf nr nc f r c)
    as (frd & rowd & b2 & Hfrd & Hrowd & Hb2 & ->); try done; try lia.
  simpl. rewrite Z.mod_small in Hrow, Hrowd, Hb0, Hb2 by lia.
  assert (Hlen : (Z.to_nat c < length row)%nat)
    by (by apply lookup_lt_Some in Hb0).
  specialize (Hd (Z.to_nat (f `mod` Z.of_nat nf)) (Z.to_nat r) (Z.to_nat c)
                fr row b2 Hfr Hrow Hlen).
  rewrite !Z2Nat.id in Hd by lia.
  assert (Hvox : voxel dilated (Z.to_nat (f `mod` Z.of_nat nf)) (Z.to_nat r)
                   (Z.to_nat c) = Some b2).
  { unfold voxel, pixel. rewrite Hfrd. simpl. rewrite Hrowd. done. }
  apply Hd in Hvox. destruct b1, b2; try done.
  - destruct Hvox as [_ Hv]. by specialize (Hv (proj1 Hb1 eq_refl)).
  - destruct Hb1 as [_ Hv]. by specialize (Hv (proj1 Hvox eq_refl)).
Qed.

(** One iteration of the two confidence checks. *)
Lemma confidence_check_body_is_lookup image dilated nf nr nc F R C rd cd i acc :
  volume_shape image nf nr nc → volume_shape dilated nf nr nc →
  dilation_of rd cd image dilated →
  0 ≤ rd → 0 ≤ cd →
  Forall (λ f, - Z.of_nat nf ≤ f < Z.of_nat nf) F →
  Forall (λ r, 0 ≤ r < Z.of_nat nr) R →
  Forall (λ c, 0 ≤ c < Z.of_nat nc) C →
  _confidence_check_body image F R C rd cd (Z.of_nat nr) (Z.of_nat nc) i acc =
  _confidence_check_dilated_body dilated F R C i acc.
Proof.
  intros Himg Hdil Hd Hrd Hcd HF HR HC.
  unfold _confidence_check_body, _confidence_check_dilated_body.
  destruct (getitem F i) as [f|e] eqn:Hf; [simpl|done].
  destruct (getitem R i) as [r|e] eqn:Hr; [simpl|done].
  destruct (getitem C i) as [c|e] eqn:Hc; [simpl|done].
  apply getitem_Ok_lookup in Hf, Hr, Hc.
  pose proof (proj1 (Forall_lookup _ _) HF _ _ Hf) as Hfin.
  pose proof (proj1 (Forall_lookup _ _) HR _ _ Hr) as Hrin.
  pose proof (proj1 (Forall_lookup _ _) HC _ _ Hc) as Hcin.
  simpl in Hfin, Hrin, Hcin.
  rewrite (check_with_dilation_is_lookup image dilated nf nr nc f r c rd cd)
    by done.
  by destruct (volume_get dilated f r c).
Qed.

(** X3. On an image and a dilated image of the same shape, where the
    dilated image is the dilation of the image by the
    (2*row_dilation+1) x (2*col_dilation+1) window, the neighbourhood
    test of the first grand loop ([_confidence_check]) and the plain
    lookup of the precomputing one ([_confidence_check_dilated]) give the
    same result (the same value, or ZeroDivisionError for empty index
    arrays), for three index arrays of one length whose frame indices
    are valid indices of the stack, in [-nf, nf), and whose row and column
    indices lie inside the frame: every access of either check is then
    inside its array. *)
Theorem confidence_check_is_dilated_lookup
    (image dilated : volume) (nf nr nc : nat)
    (frame_indices row_indices col_indices : list Z) (rd cd : Z) :
  volume_shape image nf nr nc → volume_shape dilated nf nr nc →
  dilation_of rd cd image dilated →
  0 ≤ rd → 0 ≤ cd →
  length row_indices = length frame_indices →
  length col_indices = length frame_indices →
  Forall (λ f, - Z.of_nat nf ≤ f < Z.of_nat nf) frame_indices →
  Forall (λ r, 0 ≤ r < Z.of_nat nr) row_indices →
  Forall (λ c, 0 ≤ c < Z.of_nat nc) col_indices →
  _confidence_check image frame_indices row_indices col_indices rd cd
    (Z.of_nat nr) (Z.of_nat nc) =
  _confidence_check_dilated dilated frame_indices row_indices col_indices.
Proof.
  intros Himg Hdil Hd Hrd Hcd _ _ HF HR HC.
  unfold _confidence_check, _confidence_check_dilated.
  f_equal. apply for_each_ext. intros i acc _.
  by eapply confidence_check_body_is_lookup.
Qed.

Lemma confidence_check_is_dilated_lookup_witness :
  _confidence_check [[[false; true]]] [0] [0] [0] 0 1
    (Z.of_nat 1) (Z.of_nat 2) =
  _confidence_check_dilated [[[true; true]]] [0] [0] [0].
Proof.
  apply (confidence_check_is_dilated_lookup _ _ 1 1 2); try lia.
  - repeat constructor.
  - repeat constructor.
  - split; [reflexivity|].
    intros k j i fr row b Hk Hj Hi Hb.
    destruct k as [|k]; [|done]. injection Hk as <-.
    destruct j as [|j]; [|done]. injection Hj as <-.
    assert (b = true) as ->.
    { destruct i as [|[|i]]; simpl in Hi; [| |lia]; by injection Hb as <-. }
    split; [intros _ | done].
    exists 0%nat, 1%nat. simpl in Hi. split; [lia|]. split; [lia | done].
  - repeat constructor; lia.
  - repeat constructor; lia.
  - repeat constructor; lia.
Defined.

Lemma inject_Z_add_bit (m : Z) (b : bool) :
  (inject_Z m + (if b then 1 else 0))%Q = inject_Z (m + (if b then 1 else 0)).
Proof.
  destruct b; unfold Qplus, inject_Z; simpl; f_equal; lia.
Qed.

(** The float accumulator of [_confidence_check_dilated] holds the integer
    [matches] of [_quant_and_clip_confidence]. *)
Lemma tally_is_sum (image : volume) (l : list (Z * Z * Z)) (n m : Z) :
  for_each l (λ p acc, b ← volume_get image p.2 p.1.2 p.1.1;
                       Ok (acc + (if b : bool then 1 else 0))%Q) (inject_Z m)
  = (st ← for_each l (tally image) (n, m); Ok (inject_Z st.2)) ∧
  ∀ st, for_each l (tally image) (n, m) = Ok st →
        st.1 = n + Z.of_nat (length l).
Proof.
  revert n m. induction l as [|[[x y] z] l IH]; intros n m.
  - simpl. split; [done|]. intros st [= <-]. simpl. lia.
  - change (for_each ((x, y, z) :: l) (tally image) (n, m))
      with (st ← (b ← volume_get image z y x;
                  Ok (n + 1, m + (if b : bool then 1 else 0)));
            for_each l (tally image) st).
    change (for_each ((x, y, z) :: l) ?g (inject_Z m))
      with (acc ← (b ← volume_get image z y x;
                   Ok (inject_Z m + (if b : bool then 1 else 0))%Q);
            for_each l g acc).
    destruct (volume_get image z y x) as [b|e];
      cbn [mbind result_mbind result_bind]; [|done].
    rewrite inject_Z_add_bit.
    destruct (IH (n + 1) (m + (if b then 1 else 0))) as [IH1 IH2].
    split; [done|]. intros st Hst. rewrite (IH2 _ Hst).
    rewrite length_cons. lia.
Qed.

(** On the index triples of the surviving points, the lookup loop and
    the counters of the fused kernel give the same ratio. *)
Lemma dilated_check_is_tally (image : volume) (l : list (Z * Z * Z)) :
  _confidence_check_dilated image
    ((λ p : Z * Z * Z, p.2) <$> l) ((λ p : Z * Z * Z, p.1.2) <$> l)
    ((λ p : Z * Z * Z, p.1.1) <$> l) =
  (st ← for_each l (tally image) (0, 0); float_div st.2 st.1).
Proof.
  unfold _confidence_check_dilated. rewrite !length_fmap.
  rewrite (for_each_range_lookup l _
             (λ p acc, b ← volume_get image p.2 p.1.2 p.1.1;
                       Ok (acc + (if b : bool then 1 else 0))%Q)).
  - destruct (tally_is_sum image l 0 0) as [Hsum Hcount].
    change (inject_Z 0) with 0%Q in Hsum. rewrite Hsum.
    destruct (for_each l (tally image) (0, 0)) as [st|e]; [|done].
    specialize (Hcount st eq_refl). simpl.
    unfold float_div, over_count. rewrite Hcount, Z.add_0_l.
    destruct (length l) as [|k]; [done|].
    rewrite !bool_decide_eq_false_2 by lia. done.
  - intros i p acc Hp. unfold _confidence_check_dilated_body.
    rewrite !(getitem_Some _ i (_ p)) by (by rewrite list_lookup_fmap, Hp).
    done.
Qed.

Lemma fmap_as_int32_id (l : list (Z * Z * Z)) :
  Forall (λ p, as_int32 p = p) l → as_int32 <$> l = l.
Proof.
  induction 1 as [|p l Hp _ IH]; [done|]. by rewrite fmap_cons, Hp, IH.
Qed.

(** X4. The fused kernel of the precomputing grand loop,
    [_quant_and_clip_confidence], is the composition of the two kernels
    of the first grand loop: [_quant_and_clip], then
    [_confidence_check_dilated] on the columns of its index array
    (frame = column 2, row = column 1, col = column 0).  The two agree on
    the value and on the exception, as long as the indices fit the
    [int32] array of [_quant_and_clip]. *)
Theorem fused_kernel_is_quantize_then_check
    (coords : list (Q * Q)) (angles : list Q) (image : volume)
    (base inv_deltas : vec3) (clip_vals : clip2) :
  (length coords ≤ length angles)%nat →
  Forall (λ p, as_int32 p = p)
    (surviving coords angles base inv_deltas clip_vals) →
  _quant_and_clip_confidence coords angles image base inv_deltas clip_vals =
  (indices ← _quant_and_clip coords angles base inv_deltas clip_vals;
   _confidence_check_dilated image
     ((λ p : Z * Z * Z, p.2) <$> indices)
     ((λ p : Z * Z * Z, p.1.2) <$> indices)
     ((λ p : Z * Z * Z, p.1.1) <$> indices)).
Proof.
  intros Hlen Hfit.
  rewrite quant_and_clip_confidence_surviving, quant_and_clip_surviving
    by done.
  rewrite fmap_as_int32_id by done.
  cbn [mbind result_mbind result_bind].
  symmetry. apply dilated_check_is_tally.
Qed.

Lemma fused_kernel_is_quantize_then_check_witness :
  _quant_and_clip_confidence [(0, 0); (5, 0)]%Q [0; 0]%Q [[[true]]]
    (Vec3 0 0 0) (Vec3 1 1 1) (Clip2 1 1) =
  (indices ← _quant_and_clip [(0, 0); (5, 0)]%Q [0; 0]%Q
               (Vec3 0 0 0) (Vec3 1 1 1) (Clip2 1 1);
   _confidence_check_dilated [[[true]]]
     ((λ p : Z * Z * Z, p.2) <$> indices)
     ((λ p : Z * Z * Z, p.1.2) <$> indices)
     ((λ p : Z * Z * Z, p.1.1) <$> indices)).
Proof.
  apply fused_kernel_is_quantize_then_check.
  - simpl. lia.
  - assert (surviving [(0, 0); (5, 0)]%Q [0; 0]%Q (Vec3 0 0 0) (Vec3 1 1 1)
              (Clip2 1 1) = [(0, 0, 0)]) as -> by (vm_compute; reflexivity).
    constructor; [reflexivity | constructor].
Defined.

(** ** The progress reports of the chunk loop *)

Lemma log_progress (finished k : nat) (c : Controller) :
  log (progress finished k c) = log c ++ (EvUpdate <$> seq (finished + 1) k) ∧
  limits (progress finished k c) = limits c ∧
  chunk_size (progress finished k c) = chunk_size c ∧
  process_count (progress finished k c) = process_count c.
Proof.
  revert finished c. induction k as [|k IH]; intros finished c; simpl.
  - by rewrite app_nil_r.
  - destruct (IH (finished + 1)%nat (emit (EvUpdate (finished + 1)) c))
      as (-> & -> & -> & ->).
    simpl. rewrite <- app_assoc.
    by replace (finished + 1 + 1)%nat with (S (finished + 1)) by lia.
Qed.

Lemma xrange_step_length (n cs : nat) (chunks : list nat) :
  xrange_step 0 n cs = Ok chunks →
  cs ≠ 0%nat ∧ length chunks = ((n + cs - 1) / cs)%nat.
Proof.
  unfold xrange_step. case_bool_decide as Hcs; [done|]. intros [= <-].
  split; [done|]. rewrite length_fmap, length_seq. by rewrite Nat.sub_0_r.
Qed.

(** X5. A run of the chunk loop that returns has told its controller:
    [start('grand_loop', k)] with [k] the number of chunks,
    ceil(n_coords / chunk_size); [update(1)], ..., [update(k)], one per
    chunk and in this order whatever the order in which the pool finished
    them; [finish('grand_loop')]; and the result [confidence] with the
    matrix that is returned.  Nothing else of the controller changes. *)
Theorem chunk_loop_progress_reports {Distortion PlaneData : Type}
    (project : list vec3 → mat3 → mat3 → Q → list Q → list Q → list Q →
               option Distortion → list (Q * Q) * list mat3)
    (sched : list nat → list nat) (junk : nat → nat → Q)
    (image : volume) (angles : list (list vec3)) (coords : list (list Q))
    (experiment : Experiment Distortion PlaneData)
    (controller controller' : Controller) (m : matrix) :
  (∀ l, sched l ≡ₚ l) →
  chunk_loop project sched junk image angles coords experiment controller
    = Ok (m, controller') →
  let n_coords := limit controller "coords" (length coords) in
  let k := ((n_coords + chunk_size controller - 1)
            / chunk_size controller)%nat in
  chunk_size controller ≠ 0%nat ∧
  log controller' =
    log controller ++ [EvStart "grand_loop" k] ++ (EvUpdate <$> seq 1 k)
      ++ [EvFinish "grand_loop"; EvResult "confidence" (Confidence m)] ∧
  limits controller' = limits controller ∧
  chunk_size controller' = chunk_size controller ∧
  process_count controller' = process_count controller.
Proof.
  intros Hsched Hrun n_coords k. unfold chunk_loop in Hrun.
  fold n_coords in Hrun.
  apply bind_Ok in Hrun as (chunks & Hchunks & Hrun).
  apply xrange_step_length in Hchunks as [Hcs Hk]. fold k in Hk.
  split; [done|].
  set (c0 := emit (EvStart "grand_loop" (length chunks)) controller) in Hrun.
  assert (Hloop : ∃ finished c1,
            log c1 = log c0 ++ (EvUpdate <$> seq 1 k) ∧
            limits c1 = limits c0 ∧ chunk_size c1 = chunk_size c0 ∧
            process_count c1 = process_count c0 ∧
            Ok (m, controller') =
              Ok (m, emit (EvResult "confidence" (Confidence m))
                       (emit (EvFinish "grand_loop") c1)) ∧
            finished = k).
  { case_bool_decide as Hcpu.
    - rewrite parallel_loop_cells in Hrun.
      rewrite (Permutation_length (Hsched chunks)), Hk in Hrun.
      destruct (for_each _ _ _) as [m'|e]; [|done]. simpl in Hrun.
      injection Hrun as <- <-.
      destruct (log_progress 0 k c0) as (Hl & ? & ? & ?).
      by exists k, (progress 0 k c0).
    - rewrite serial_loop_cells in Hrun. rewrite Hk in Hrun.
      destruct (for_each _ _ _) as [m'|e]; [|done]. simpl in Hrun.
      injection Hrun as <- <-.
      destruct (log_progress 0 k c0) as (Hl & ? & ? & ?).
      by exists k, (progress 0 k c0). }
  destruct Hloop as (finished & c1 & Hl & Hlim & Hcsz & Hpc & Hc' & _).
  injection Hc' as ->. simpl. rewrite Hl, Hlim, Hcsz, Hpc.
  subst c0. simpl. rewrite Hk. rewrite <- !app_assoc. done.
Qed.

Lemma chunk_loop_progress_reports_witness :
  let controller' :=
    MkController ∅ 2 2
      [EvStart "grand_loop" 2; EvUpdate 1; EvUpdate 2; EvFinish "grand_loop";
       EvResult "confidence" (Confidence [[1; 1; 1]%Q])] in
  chunk_loop toy_project reverse (λ _ _, 0%Q) toy_volume toy_angles
    (replicate 3 [0; 0; 0]%Q) toy_experiment (MkController ∅ 2 2 [])
    = Ok ([[1; 1; 1]%Q], controller') ∧
  log controller' =
    [EvStart "grand_loop" 2; EvUpdate 1; EvUpdate 2; EvFinish "grand_loop";
     EvResult "confidence" (Confidence [[1; 1; 1]%Q])].
Proof.
  intros controller'.
  assert (Hrun : chunk_loop toy_project reverse (λ _ _, 0%Q) toy_volume
                   toy_angles (replicate 3 [0; 0; 0]%Q) toy_experiment
                   (MkController ∅ 2 2 [])
                 = Ok ([[1; 1; 1]%Q], controller'))
    by (vm_compute; reflexivity).
  split; [exact Hrun|].
  destruct (chunk_loop_progress_reports toy_project reverse (λ _ _, 0%Q)
              toy_volume toy_angles (replicate 3 [0; 0; 0]%Q) toy_experiment
              (MkController ∅ 2 2 []) controller' [[1; 1; 1]%Q])
    as (_ & Hlog & _).
  - intros l. apply reverse_Permutation.
  - exact Hrun.
  - exact Hlog.
Defined.

(** ** Serial branch and worker pool on an unlimited run *)

Lemma serial_parallel_agree_unclamped_witness :
  (∃ c, chunk_loop toy_project reverse (λ _ _, 0%Q) toy_volume toy_angles
          (replicate 3 [0; 0; 0]%Q) toy_experiment (MkController ∅ 2 1 [])
        = Ok ([[1; 1; 1]%Q], c)) ↔
  (∃ c, chunk_loop toy_project reverse (λ _ _, 0%Q) toy_volume toy_angles
          (replicate 3 [0; 0; 0]%Q) toy_experiment (MkController ∅ 2 2 [])
        = Ok ([[1; 1; 1]%Q], c)).
Proof.
  apply serial_parallel_agree_unclamped.
  - intros l. apply reverse_Permutation.
  - reflexivity.
  - reflexivity.
  - simpl. lia.
  - simpl. lia.
  - reflexivity.
  - reflexivity.
Defined.

(** ** A fully clipped cell aborts [_grand_loop_inner] *)

Lemma for_each_raises_at {A St} (g : A → St → result St) (l : list A)
    (q : A) (s : St) :
  (∀ s, ∃ e, g q s = Raise e) → q ∈ l → ∃ e, for_each l g s = Raise e.
Proof.
  intros Hq. revert s. induction l as [|x l IH]; intros s Hin.
  - by apply elem_of_nil in Hin.
  - simpl. destruct (g x s) as [s'|e] eqn:Hg; simpl; [|by exists e].
    apply elem_of_cons in Hin as [<-|Hin].
    + destruct (Hq s) as [e He]. congruence.
    + by apply IH.
Qed.

(** X8. [_grand_loop_inner] does not return when its range holds one
    (voxel, grain) pair all of whose reflections are projected outside
    the detector: the division by zero of the fused kernel is not handled,
    so the call raises and the cells after that pair are not written. *)
Theorem grand_loop_inner_clipped_cell_aborts {Distortion PlaneData : Type}
    (project : list vec3 → mat3 → mat3 → Q → list Q → list Q → list Q →
               option Distortion → list (Q * Q) * list mat3)
    (confidence : matrix) (image_stack : volume)
    (angles : list (list vec3)) (coords : list (list Q))
    (experiment : Experiment Distortion PlaneData)
    (start : nat) (stop : option nat)
    (icrd igrn : nat) (angs : list vec3) (rC : mat3) (crd : list Q) :
  (start ≤ icrd < default (length coords) stop)%nat →
  angles !! igrn = Some angs →
  rMat_c experiment !! igrn = Some rC →
  coords !! icrd = Some crd →
  Forall (λ xy : Q * Q,
            ¬ (0 ≤ quant xy.1 (v0 (base experiment))
                     (v0 (inv_deltas experiment)) < c0 (clip_vals experiment) ∧
               0 ≤ quant xy.2 (v1 (base experiment))
                     (v1 (inv_deltas experiment)) < c1 (clip_vals experiment)))
    (project angs (rMat_d experiment) rC (chi experiment) (tVec_d experiment)
       crd (tVec_s experiment) (distortion experiment)).1 →
  ∃ e, _grand_loop_inner project confidence image_stack angles coords
         experiment start stop = Raise e.
Proof.
  intros Hicrd Ha Hr Hc Hall. unfold _grand_loop_inner.
  apply (for_each_raises_at _ _ (icrd, igrn)).
  - intros m. exists ZeroDivisionError.
    by eapply grand_loop_body_division_by_zero.
  - apply lookup_lt_Some in Ha.
    apply list_elem_of_In, in_prod; apply list_elem_of_In; unfold xrange;
      apply elem_of_seq; lia.
Qed.

Lemma grand_loop_inner_clipped_cell_aborts_witness :
  ∃ e, _grand_loop_inner toy_project [[0; 0]%Q] toy_volume
         [[Vec3 0 0 0]; [Vec3 5 0 0]] [[0; 0; 0]%Q; [0; 0; 0]%Q]
         (MkExperiment unit unit 2 [[]; []] [] tt [] 1 1 1 [] [] 0 []
            0 0 None (Vec3 0 0 0) (Vec3 1 1 1) (Clip2 1 1))
         0 None = Raise e.
Proof.
  apply (grand_loop_inner_clipped_cell_aborts _ _ _ _ _ _ _ _ 0 1
           [Vec3 5 0 0] [] [0; 0; 0]%Q).
  - simpl. lia.
  - reflexivity.
  - reflexivity.
  - reflexivity.
  - repeat constructor; vm_compute; intros [[? ?] [? ?]]; congruence.
Defined.

(** ** The rasterizer *)

Lemma norm_index_inv (n : nat) (i : Z) (k : nat) :
  norm_index n i = Ok k →
  - Z.of_nat n ≤ i < Z.of_nat n ∧ k = Z.to_nat (i `mod` Z.of_nat n) ∧
  (k < n)%nat.
Proof.
  intros Hk.
  destruct (decide (- Z.of_nat n ≤ i < Z.of_nat n)) as [Hi|Hi].
  - destruct (norm_index_Ok n i Hi) as [Hn Hlt]. split; [done|].
    rewrite Hn in Hk. injection Hk as <-. done.
  - rewrite norm_index_Raise in Hk by done. done.
Qed.

Lemma volume_shape_lookup image nf nr nc k f :
  volume_shape image nf nr nc → image !! k = Some f →
  length f = nr ∧ Forall (λ r : list bool, length r = nc) f.
Proof. intros [_ Hall] Hk. exact (proj1 (Forall_lookup _ _) Hall _ _ Hk). Qed.

(** A store [image[z, y, x] = b] inside the shape changes the addressed
    voxel and nothing else. *)
Lemma volume_set_spec image nf nr nc z y x b image' :
  volume_shape image nf nr nc →
  volume_set image z y x b = Ok image' →
  (- Z.of_nat nf ≤ z < Z.of_nat nf ∧ - Z.of_nat nr ≤ y < Z.of_nat nr ∧
   - Z.of_nat nc ≤ x < Z.of_nat nc) ∧
  volume_shape image' nf nr nc ∧
  ∀ k j i, voxel image' k j i =
    if decide ((k, j, i) = address nf nr nc (x, y, z)) then Some b
    else voxel image k j i.
Proof.
  intros Hshape. pose proof Hshape as [Hnf Hall]. unfold volume_set.
  intros (f & Hf & (r & Hr & (r' & Hr' & (f' & Hf' & Him)%bind_Ok)%bind_Ok)
            %bind_Ok)%bind_Ok.
  unfold getitem_Z, setitem_Z in *.
  apply bind_Ok in Hf as (k0 & Hk0 & Hf). apply getitem_Ok_lookup in Hf.
  apply bind_Ok in Hr as (j0 & Hj0 & Hr). apply getitem_Ok_lookup in Hr.
  apply bind_Ok in Hr' as (i0 & Hi0 & [= <-]).
  apply bind_Ok in Hf' as (j1 & Hj1 & [= <-]).
  apply bind_Ok in Him as (k1 & Hk1 & [= <-]).
  assert (k1 = k0) as -> by congruence. assert (j1 = j0) as -> by congruence.
  destruct (volume_shape_lookup _ _ _ _ _ _ Hshape Hf) as [Hnr Hrows].
  pose proof (proj1 (Forall_lookup _ _) Hrows _ _ Hr) as Hnc. simpl in Hnc.
  rewrite Hnf in Hk0. rewrite Hnr in Hj0. rewrite Hnc in Hi0.
  apply norm_index_inv in Hk0 as (Hz & Hk0 & Hk0lt).
  apply norm_index_inv in Hj0 as (Hy & Hj0 & Hj0lt).
  apply norm_index_inv in Hi0 as (Hx & Hi0 & Hi0lt).
  split; [done|]. split.
  - split; [by rewrite length_insert|].
    apply Forall_insert; [done|]. split; [by rewrite length_insert|].
    apply Forall_insert; [done|]. by rewrite length_insert.
  - intros k j i. unfold address. cbn [fst snd].
    rewrite <- Hk0, <- Hj0, <- Hi0. unfold voxel, pixel.
    destruct (decide (k = k0)) as [->|Hk].
    + rewrite list_lookup_insert_eq by lia. rewrite Hf. simpl.
      destruct (decide (j = j0)) as [->|Hj].
      * rewrite list_lookup_insert_eq by lia. rewrite Hr. simpl.
        destruct (decide (i = i0)) as [->|Hi].
        -- rewrite list_lookup_insert_eq by lia. by rewrite decide_True.
        -- rewrite list_lookup_insert_ne by done.
           rewrite decide_False by congruence. done.
      * rewrite list_lookup_insert_ne by done.
        rewrite decide_False by congruence. done.
    + rewrite list_lookup_insert_ne by done.
      rewrite decide_False by congruence. done.
Qed.

(** The stores of the surviving points, one after the other. *)
Lemma light_loop (l : list (Z * Z * Z)) (image image' : volume) nf nr nc :
  volume_shape image nf nr nc →
  for_each l light image = Ok image' →
  volume_shape image' nf nr nc ∧
  Forall (λ p, - Z.of_nat nf ≤ p.2 < Z.of_nat nf ∧
               - Z.of_nat nr ≤ p.1.2 < Z.of_nat nr ∧
               - Z.of_nat nc ≤ p.1.1 < Z.of_nat nc) l ∧
  ∀ k j i, voxel image' k j i = Some true ↔
    voxel image k j i = Some true ∨
    ∃ p, p ∈ l ∧ address nf nr nc p = (k, j, i).
Proof.
  revert image. induction l as [|[[x y] z] l IH]; intros image Hshape.
  - simpl. intros [= <-]. split; [done|]. split; [done|].
    intros k j i. split; [by left|].
    intros [H|(p & Hp & _)]; [done | by apply elem_of_nil in Hp].
  - cbn [for_each]. intros (image1 & Hset & Hrun)%bind_Ok.
    unfold light in Hset.
    destruct (volume_set_spec _ _ _ _ _ _ _ _ _ Hshape Hset)
      as (Hin & Hshape1 & Hvox).
    destruct (IH _ Hshape1 Hrun) as (Hshape' & Hall & Hiff).
    split; [done|]. split; [by constructor|].
    intros k j i. rewrite Hiff, Hvox.
    destruct (decide ((k, j, i) = address nf nr nc (x, y, z))) as [Heq|Hne].
    + split; [|by left]. intros _. right. exists (x, y, z).
      split; [by left | done].
    + split.
      * intros [H|(p & Hp & Ha)]; [by left|]. right. exists p.
        split; [by right | done].
      * intros [H|(p & Hp & Ha)]; [by left|].
        apply elem_of_cons in Hp as [->|Hp]; [congruence|].
        right. by exists p.
Qed.

(** X9. [_write_pixels] keeps the shape of the image, and a voxel is lit
    afterwards exactly when it was lit before or its address is the index
    triple of a point that survives clipping (a negative frame index
    counting from the last frame): the rasterizer never clears a voxel
    and lights nothing but the surviving points. *)
Theorem write_pixels_lights_exactly_survivors
    (coords : list (Q * Q)) (angles : list Q) (image image' : volume)
    (base inv_deltas : vec3) (clip_vals : clip2) (nf nr nc : nat) :
  (length coords ≤ length angles)%nat →
  volume_shape image nf nr nc →
  _write_pixels coords angles image base inv_deltas clip_vals = Ok image' →
  volume_shape image' nf nr nc ∧
  ∀ k j i, voxel image' k j i = Some true ↔
    voxel image k j i = Some true ∨
    ∃ p, p ∈ surviving coords angles base inv_deltas clip_vals ∧
         address nf nr nc p = (k, j, i).
Proof.
  intros Hlen Hshape Hrun. rewrite write_pixels_surviving in Hrun by done.
  destruct (light_loop _ _ _ _ _ _ Hshape Hrun) as (Hshape' & _ & Hiff).
  split; [exact Hshape' | exact Hiff].
Qed.

Lemma write_pixels_lights_exactly_survivors_witness :
  voxel [[[false; true]]; [[false; false]]] 0 0 1 = Some true ∧
  voxel [[[false; true]]; [[false; false]]] 1 0 0 = Some false.
Proof.
  destruct (write_pixels_lights_exactly_survivors
              [(1, 0); (7, 0)]%Q [0; 0]%Q
              [[[false; false]]; [[false; false]]]
              [[[false; true]]; [[false; false]]]
              (Vec3 0 0 0) (Vec3 1 1 1) (Clip2 2 1) 2 1 2) as [_ Hiff].
  - simpl. lia.
  - repeat constructor.
  - vm_compute. reflexivity.
  - split; [|reflexivity]. apply Hiff. right. exists (1, 0, 0).
    split; [|reflexivity].
    assert (surviving [(1, 0); (7, 0)]%Q [0; 0]%Q (Vec3 0 0 0) (Vec3 1 1 1)
              (Clip2 2 1) = [(1, 0, 0)]) as -> by (vm_compute; reflexivity).
    by left.
Defined.

(** A read inside the shape returns the addressed voxel. *)
Lemma volume_get_voxel image nf nr nc z y x b :
  volume_shape image nf nr nc →
  - Z.of_nat nf ≤ z < Z.of_nat nf →
  - Z.of_nat nr ≤ y < Z.of_nat nr →
  - Z.of_nat nc ≤ x < Z.of_nat nc →
  (let '(k, j, i) := address nf nr nc (x, y, z) in voxel image k j i) = Some b →
  volume_get image z y x = Ok b.
Proof.
  intros Hshape Hz Hy Hx. unfold address. cbn [fst snd].
  destruct (volume_get_Ok image nf nr nc z y x Hshape Hz Hy Hx)
    as (f & r & b' & Hf & Hr & Hb & ->).
  unfold voxel, pixel. rewrite Hf. simpl. rewrite Hr. simpl. rewrite Hb.
  by intros [= ->].
Qed.

(** X21. Round trip of the rasterizer and the evaluator: on the image
    that [_write_pixels] returns for a list of reflections, the
    confidence [_quant_and_clip_confidence] gives the same reflections is
    1, as soon as one of them survives clipping.  (With none the
    evaluator divides by zero, see C1.) *)
Theorem rasterized_reflections_score_one
    (coords : list (Q * Q)) (angles : list Q) (image image' : volume)
    (base inv_deltas : vec3) (clip_vals : clip2) (nf nr nc : nat) :
  (length coords ≤ length angles)%nat →
  volume_shape image nf nr nc →
  _write_pixels coords angles image base inv_deltas clip_vals = Ok image' →
  surviving coords angles base inv_deltas clip_vals ≠ [] →
  ∃ c, _quant_and_clip_confidence coords angles image' base inv_deltas
         clip_vals = Ok c ∧ (c == 1)%Q.
Proof.
  intros Hlen Hshape Hrun Hsome.
  rewrite write_pixels_surviving in Hrun by done.
  rewrite quant_and_clip_confidence_surviving by done.
  set (l := surviving coords angles base inv_deltas clip_vals) in *.
  destruct (light_loop _ _ _ _ _ _ Hshape Hrun) as (Hshape' & Hin & Hiff).
  assert (Hlit : ∀ p, p ∈ l → volume_get image' p.2 p.1.2 p.1.1 = Ok true).
  { intros [[x y] z] Hp.
    pose proof (proj1 (Forall_forall _ _) Hin _ Hp) as (Hz & Hy & Hx).
    cbn [fst snd] in *.
    apply (volume_get_voxel image' nf nr nc); try done.
    destruct (address nf nr nc (x, y, z)) as [[k j] i] eqn:Ha.
    apply Hiff. right. by exists (x, y, z). }
  assert (Hcount : ∀ k n m, (∀ p, p ∈ k → p ∈ l) →
            for_each k (tally image') (n, m)
            = Ok (n + Z.of_nat (length k), m + Z.of_nat (length k))).
  { induction k as [|[[x y] z] k IH]; intros n m Hk.
    - simpl. do 2 f_equal; lia.
    - change (for_each ((x, y, z) :: k) (tally image') (n, m))
        with (st ← (b ← volume_get image' z y x;
                    Ok (n + 1, m + (if b : bool then 1 else 0)));
              for_each k (tally image') st).
      pose proof (Hlit (x, y, z) (Hk _ ltac:(by left))) as Hl.
      cbn [fst snd] in Hl. rewrite Hl.
      cbn [mbind result_mbind result_bind].
      rewrite IH by (intros p Hp; apply Hk; by right).
      rewrite length_cons. do 2 f_equal; lia. }
  rewrite Hcount by done. cbn [mbind result_mbind result_bind fst snd].
  unfold float_div. rewrite !Z.add_0_l.
  assert (Hpos : 0 < Z.of_nat (length l)) by (destruct l; [done | simpl; lia]).
  rewrite bool_decide_eq_false_2 by lia.
  eexists. split; [reflexivity|].
  apply Qmult_inv_r. unfold Qeq. simpl. lia.
Qed.

Lemma rasterized_reflections_score_one_witness :
  ∃ c, _quant_and_clip_confidence [(1, 0); (7, 0)]%Q [0; 0]%Q
         [[[false; true]]; [[false; false]]]
         (Vec3 0 0 0) (Vec3 1 1 1) (Clip2 2 1) = Ok c ∧ (c == 1)%Q.
Proof.
  apply (rasterized_reflections_score_one [(1, 0); (7, 0)]%Q [0; 0]%Q
           [[[false; false]]; [[false; false]]]
           [[[false; true]]; [[false; false]]]
           (Vec3 0 0 0) (Vec3 1 1 1) (Clip2 2 1) 2 1 2).
  - simpl. lia.
  - repeat constructor.
  - vm_compute. reflexivity.
  - assert (surviving [(1, 0); (7, 0)]%Q [0; 0]%Q (Vec3 0 0 0) (Vec3 1 1 1)
              (Clip2 2 1) = [(1, 0, 0)]) as -> by (vm_compute; reflexivity).
    done.
Defined.

(** ** No clipping on the angle axis *)







(** ** The forward simulation and its cache *)

Lemma np_zeros3_shape nf nr nc : volume_shape (np_zeros3 nf nr nc) nf nr nc.
Proof.
  unfold np_zeros3. split; [apply length_replicate|].
  apply Forall_replicate. split; [apply length_replicate|].
  apply Forall_replicate. apply length_replicate.
Qed.

Lemma write_pixels_shape coords angles image image' base inv clip nf nr nc :
  volume_shape image nf nr nc →
  _write_pixels coords angles image base inv clip = Ok image' →
  volume_shape image' nf nr nc.
Proof.
  intros Hshape. unfold _write_pixels.
  apply (for_each_invariant (λ im, volume_shape im nf nr nc)); [|done].
  intros i im im' Him. unfold _write_pixels_body.
  intros (xy & _ & H)%bind_Ok.
  destruct (clipped _ _); [by injection H as <-|].
  destruct (clipped _ _); [by injection H as <-|].
  apply bind_Ok in H as (ang & _ & H).
  by destruct (volume_set_spec _ _ _ _ _ _ _ _ _ Him H) as (_ & ? & _).
Qed.

Section Simulation.

Context {Distortion PlaneData : Type}.
Variable project :
  list vec3 → mat3 → mat3 → Q → list Q → list Q → list Q →
  option Distortion → list (Q * Q) * list mat3.
Variable makeRotMatOfExpMap : list Q → mat3.
Variable filtered_angles :
  PlaneData → Q → mat3 → list Q → list (Q * Q) → list vec3.

(** The grains [k, k+n) of the simulation loop. *)
Lemma simulate_loop (grain_params : list (list Q))
    (experiment : Experiment Distortion PlaneData) (n k : nat)
    (image image' : volume) (c : Controller) (c' : option Controller) :
  volume_shape image (nframes experiment) (nrows experiment)
    (ncols experiment) →
  for_each (seq k n)
    (simulate_body project makeRotMatOfExpMap filtered_angles grain_params
       experiment) (image, Some c) = Ok (image', c') →
  volume_shape image' (nframes experiment) (nrows experiment)
    (ncols experiment) ∧
  c' = Some (MkController (limits c) (chunk_size c) (process_count c)
               (log c ++ (EvUpdate <$> seq (k + 1) n))).
Proof.
  revert k image c. induction n as [|n IH]; intros k image c Hshape.
  - simpl. intros [= <- <-]. split; [done|]. rewrite app_nil_r.
    by destruct c.
  - cbn [seq for_each]. intros (st & Hbody & Hrun)%bind_Ok.
    unfold simulate_body in Hbody.
    apply bind_Ok in Hbody as (gp & _ & Hbody).
    destruct (project _ _ _ _ _ _ _ _) as [det_xy rMat_ss].
    apply bind_Ok in Hbody as (image1 & Hwrite & Hbody).
    simpl in Hbody. injection Hbody as <-.
    apply write_pixels_shape with (nf := nframes experiment)
      (nr := nrows experiment) (nc := ncols experiment) in Hwrite; [|done].
    destruct (IH _ _ _ Hwrite Hrun) as [Hshape' ->].
    split; [done|]. simpl. rewrite <- app_assoc. simpl.
    by replace (S k + 1)%nat with (S (k + 1)) by lia.
Qed.

End Simulation.

(** X10. A run of [simulate_diffractions] that returns gives an image
    stack of shape (nframes, nrows, ncols), and has told its controller
    [start('simulate diffractions', count)], [update(1)], ...,
    [update(count)] and [finish('simulate diffractions')], with [count]
    the number of grain parameter rows; the controller's limits are as
    before. *)
Theorem simulate_diffractions_shape_and_reports {Distortion PlaneData : Type}
    (project : list vec3 → mat3 → mat3 → Q → list Q → list Q → list Q →
               option Distortion → list (Q * Q) * list mat3)
    (makeRotMatOfExpMap : list Q → mat3)
    (filtered_angles :
       PlaneData → Q → mat3 → list Q → list (Q * Q) → list vec3)
    (grain_params : list (list Q))
    (experiment : Experiment Distortion PlaneData)
    (controller : Controller) (image_stack : volume)
    (controller' : option Controller) :
  simulate_diffractions project makeRotMatOfExpMap filtered_angles
    grain_params experiment (Some controller)
    = Ok (image_stack, controller') →
  volume_shape image_stack (nframes experiment) (nrows experiment)
    (ncols experiment) ∧
  ∃ c', controller' = Some c' ∧
    log c' = log controller
      ++ [EvStart "simulate diffractions" (length grain_params)]
      ++ (EvUpdate <$> seq 1 (length grain_params))
      ++ [EvFinish "simulate diffractions"] ∧
    limits c' = limits controller.
Proof.
  unfold simulate_diffractions. cbn [method mbind result_mbind result_bind].
  intros ([image1 c1] & Hloop & Hfin)%bind_Ok.
  apply simulate_loop in Hloop as [Hshape ->]; [|apply np_zeros3_shape].
  simpl in Hfin. injection Hfin as <- <-.
  split; [done|]. eexists. split; [done|]. simpl.
  by rewrite <- !app_assoc.
Qed.

Lemma simulate_diffractions_shape_and_reports_witness :
  ∃ c', log c' = [EvStart "simulate diffractions" 1; EvUpdate 1;
                  EvFinish "simulate diffractions"].
Proof.
  destruct (simulate_diffractions_shape_and_reports toy_project
              (λ _, []) (λ _ _ _ _ _, [Vec3 0 0 0]) [[0; 0; 0]%Q]
              toy_experiment (MkController ∅ 2 2 []) [[[true]]]
              (Some (MkController ∅ 2 2
                  [EvStart "simulate diffractions" 1; EvUpdate 1;
                   EvFinish "simulate diffractions"])))
    as (_ & c' & _ & Hlog & _).
  - vm_compute. reflexivity.
  - exists c'. exact Hlog.
Defined.

Lemma append_ne (s t : string) : t ≠ ""%string → (s +:+ t)%string ≠ s.
Proof.
  intros Ht H. induction s as [|a s IH]; simpl in H; [done|].
  injection H as H. by apply IH.
Qed.

(** X11. [get_simulate_diffractions] loads the stack from [cache_file]
    and saves it with [np.save], which appends [.npy] to a name that does
    not end in it.  After a call that returns, either the file was there
    and no file has changed, or it was not and the stack is stored under
    the name [np.save] gives it.  When [cache_file] ends in [.npy] or the
    file was there, [cache_file] holds the returned stack, and every later
    call with that cache file returns the same stack without simulating
    and without writing, whatever grain parameters and experiment it is
    given: all it tells the controller is the result [image_stack].
    Otherwise the stack is in [cache_file.npy], [cache_file] still does
    not load, and a later call simulates and saves again. *)
Theorem get_simulate_diffractions_cache_round_trip
    {Distortion PlaneData : Type}
    (project : list vec3 → mat3 → mat3 → Q → list Q → list Q → list Q →
               option Distortion → list (Q * Q) * list mat3)
    (makeRotMatOfExpMap : list Q → mat3)
    (filtered_angles :
       PlaneData → Q → mat3 → list Q → list (Q * Q) → list vec3)
    (fs fs' : files) (grain_params : list (list Q))
    (experiment : Experiment Distortion PlaneData) (cache_file : string)
    (controller controller' : option Controller) (image_stack : volume) :
  get_simulate_diffractions project makeRotMatOfExpMap filtered_angles fs
    grain_params experiment cache_file controller
    = Ok (image_stack, fs', controller') →
  (fs !! cache_file = Some image_stack ∧ fs' = fs ∨
   fs !! cache_file = None ∧ fs' = np_save fs cache_file image_stack) ∧
  (endswith cache_file ".npy" = true ∨ is_Some (fs !! cache_file) →
   fs' !! cache_file = Some image_stack ∧
   (∀ other, other ≠ cache_file → fs' !! other = fs !! other) ∧
   ∀ (grain_params2 : list (list Q))
     (experiment2 : Experiment Distortion PlaneData) (c : Controller),
     get_simulate_diffractions project makeRotMatOfExpMap filtered_angles fs'
       grain_params2 experiment2 cache_file (Some c)
     = Ok (image_stack, fs',
           Some (emit (EvResult "image_stack" (ImageStack image_stack)) c))) ∧
  (endswith cache_file ".npy" = false → fs !! cache_file = None →
   fs' = <[(cache_file +:+ ".npy")%string := image_stack]> fs ∧
   fs' !! cache_file = None ∧
   ∀ (grain_params2 : list (list Q))
     (experiment2 : Experiment Distortion PlaneData)
     (c : option Controller),
     get_simulate_diffractions project makeRotMatOfExpMap filtered_angles fs'
       grain_params2 experiment2 cache_file c
     = ('(image_stack2, c) ←
          simulate_diffractions project makeRotMatOfExpMap filtered_angles
            grain_params2 experiment2 c;
        c ← method c (EvResult "image_stack" (ImageStack image_stack2));
        Ok (image_stack2,
            <[(cache_file +:+ ".npy")%string := image_stack2]> fs', c))).
Proof.
  unfold get_simulate_diffractions, np_load.
  intros ([[image1 fs1] c1] & Hget & Hres)%bind_Ok.
  apply bind_Ok in Hres as (c2 & _ & [= -> -> <-]).
  assert (Hcase : fs !! cache_file = Some image_stack ∧ fs' = fs ∨
                  fs !! cache_file = None ∧
                  fs' = np_save fs cache_file image_stack).
  { destruct (fs !! cache_file) as [v|] eqn:Hfs.
    - injection Hget as -> -> _. by left.
    - apply bind_Ok in Hget as ([image2 c3] & _ & [= -> <- _]). by right. }
  split; [done|]. split.
  - intros Hhit.
    assert (Hfs' : fs' !! cache_file = Some image_stack ∧
                   ∀ other, other ≠ cache_file → fs' !! other = fs !! other).
    { destruct Hcase as [[Hfs ->] | [Hfs ->]]; [done|].
      destruct Hhit as [Hnpy | [v Hv]]; [|congruence].
      unfold np_save. rewrite Hnpy. split; [apply lookup_insert_eq|].
      intros other Hne. by apply lookup_insert_ne. }
    destruct Hfs' as [Hfs' Hother]. split; [done|]. split; [done|].
    intros grain_params2 experiment2 c. by rewrite Hfs'.
  - intros Hnpy Hmiss.
    destruct Hcase as [[Hfs _] | [_ ->]]; [congruence|].
    unfold np_save. rewrite Hnpy.
    assert (Hnone : (<[(cache_file +:+ ".npy")%string := image_stack]> fs)
                      !! cache_file = None).
    { rewrite lookup_insert_ne by (by apply append_ne). done. }
    split; [done|]. split; [done|].
    intros grain_params2 experiment2 c. rewrite Hnone.
    destruct (simulate_diffractions _ _ _ grain_params2 experiment2 c)
      as [[image2 c3]|e]; [|done].
    cbn [mbind result_mbind result_bind].
    by destruct (method c3 _).
Qed.

Lemma get_simulate_diffractions_cache_round_trip_witness :
  get_simulate_diffractions toy_project (λ _, [])
    (λ _ _ _ _ _, [Vec3 0 0 0]) {[ "gold_cubes.npy"%string := toy_volume ]}
    [] toy_experiment "gold_cubes.npy" (Some (MkController ∅ 2 2 []))
  = Ok (toy_volume, {[ "gold_cubes.npy"%string := toy_volume ]},
        Some (emit (EvResult "image_stack" (ImageStack toy_volume))
                (MkController ∅ 2 2 []))).
Proof.
  destruct (get_simulate_diffractions_cache_round_trip toy_project
              (λ _, []) (λ _ _ _ _ _, [Vec3 0 0 0]) ∅
              {[ "gold_cubes.npy"%string := toy_volume ]}
              [[0; 0; 0]%Q] toy_experiment "gold_cubes.npy"
              (Some (MkController ∅ 2 2 []))
              (Some (MkController ∅ 2 2
                 [EvStart "simulate diffractions" 1; EvUpdate 1;
                  EvFinish "simulate diffractions";
                  EvResult "image_stack" (ImageStack toy_volume)]))
              toy_volume) as (_ & Hagain & _).
  - vm_compute. reflexivity.
  - destruct Hagain as (_ & _ & Hagain); [by left|]. apply Hagain.
Defined.

(** ** More on the checking result handler *)

Lemma isclose_refl (a : Q) : isclose a a = true.
Proof.
  unfold isclose. apply Qle_bool_iff.
  assert (H0 : (Qabs (a - a) == 0)%Q).
  { assert (Ha : (a - a == 0)%Q) by ring. rewrite Ha. reflexivity. }
  rewrite H0. pose proof (Qabs_nonneg a) as Hb.
  revert Hb. generalize (Qabs a). intros q Hq.
  assert (H1 : (0 <= (1 # 100000) * q)%Q).
  { apply Qmult_le_0_compat; [done | done]. }
  revert H1. generalize ((1 # 100000) * q)%Q. intros t Ht.
  apply Qle_trans with (0 + t)%Q.
  - rewrite Qplus_0_l. done.
  - apply Qplus_le_l. done.
Qed.

Lemma all2_isclose_refl (r : list Q) : all2 isclose r r = true.
Proof.
  induction r as [|a r IH]; [done|]. simpl. by rewrite isclose_refl, IH.
Qed.

Lemma all_rows_close_refl (w : nat) (l : list (list Q)) :
  all_rows_close w w l l = true.
Proof.
  induction l as [|r l IH]; [done|]. simpl. unfold rows_close.
  rewrite bool_decide_eq_true_2 by done. by rewrite all2_isclose_refl, IH.
Qed.

(** X12. When the produced array and its reference have rows of the same
    width and agree entry for entry on their first [min(len(reference),
    len(value))] rows, the handler logs FULL PASS, or PARTIAL PASS if the
    produced array has more rows than the reference.  So a result checked
    against itself passes, and so does a result that lacks rows of the
    reference, the empty one included: rows that are missing from the
    produced array are not reported. *)
Theorem checker_common_rows_pass
    (reference_results : gmap string array2) (key : string)
    (value reference : array2) :
  key ∉ ["experiment"; "image_stack"]%string →
  reference_results !! key = Some reference →
  width value = width reference →
  take (len reference `min` len value) (rows value)
    = take (len reference `min` len value) (rows reference) →
  handle_result reference_results key value =
    if bool_decide (len reference < len value)%nat then [PARTIAL_PASS]
    else [FULL_PASS].
Proof.
  intros Hkey Href Hw Hrows. unfold handle_result.
  rewrite bool_decide_eq_false_2 by done. rewrite Href. simpl.
  unfold check_against. cbn [mbind result_mbind result_bind].
  set (check_len := (len reference `min` len value)%nat) in *.
  unfold np_allclose, broadcastable. rewrite !len_slice_to. simpl.
  rewrite (bool_decide_eq_true_2 (_ = _)) by (unfold check_len; lia).
  rewrite (bool_decide_eq_true_2 (width value = width reference)) by done.
  simpl. rewrite Hrows, Hw, all_rows_close_refl. simpl.
  case_bool_decide as H1; case_bool_decide as H2; try done;
    unfold check_len in H1; lia.
Qed.

Lemma checker_common_rows_pass_witness :
  handle_result {[ "confidence"%string := MkArray2 2 [[1; 2]; [3; 4]]%Q ]}
    "confidence" (MkArray2 2 []) = [FULL_PASS].
Proof.
  apply (checker_common_rows_pass _ _ (MkArray2 2 [])
           (MkArray2 2 [[1; 2]; [3; 4]]%Q)).
  - intros Hin.
    repeat (apply elem_of_cons in Hin as [Hin|Hin]; [discriminate|]).
    by apply elem_of_nil in Hin.
  - apply lookup_singleton_eq.
  - reflexivity.
  - reflexivity.
Defined.

(** X13. The keys [experiment] and [image_stack] are never checked:
    nothing is logged for them, whatever the reference file holds.  For
    any other key that the reference file lacks, the handler logs the
    KeyError, then that there is no reference result, then a failure to
    check: [len(None)] raises inside the second [try], so a result that
    is not in the reference file gets no FAIL. *)
Theorem checker_unchecked_keys
    (reference_results : gmap string array2) (key : string) (value : array2) :
  (key = "experiment"%string ∨ key = "image_stack"%string →
   handle_result reference_results key value = []) ∧
  (key ≠ "experiment"%string → key ≠ "image_stack"%string →
   reference_results !! key = None →
   handle_result reference_results key value
     = [KeyWarning; NoReference; CheckFailure] ∧
   FAIL ∉ handle_result reference_results key value).
Proof.
  split.
  - intros Hkey. unfold handle_result. rewrite bool_decide_eq_true_2; [done|].
    destruct Hkey as [-> | ->]; [by left | by right; left].
  - intros H1 H2 Hnone.
    assert (Hlog : handle_result reference_results key value
                   = [KeyWarning; NoReference; CheckFailure]).
    { unfold handle_result. rewrite bool_decide_eq_false_2.
      - by rewrite Hnone.
      - rewrite !elem_of_cons, elem_of_nil. tauto. }
    split; [done|]. rewrite Hlog, !elem_of_cons, elem_of_nil.
    intros [H|[H|[H|H]]]; done.
Qed.

Lemma checker_unchecked_keys_witness :
  handle_result ∅ "image_stack" (MkArray2 1 [[0]%Q]) = [] ∧
  handle_result ∅ "grain_params" (MkArray2 1 [[0]%Q])
    = [KeyWarning; NoReference; CheckFailure].
Proof.
  destruct (checker_unchecked_keys ∅ "image_stack" (MkArray2 1 [[0]%Q]))
    as [H1 _].
  destruct (checker_unchecked_keys ∅ "grain_params" (MkArray2 1 [[0]%Q]))
    as [_ H2].
  split.
  - apply H1. by right.
  - apply H2; [done | done | apply lookup_empty].
Defined.

(** ** The [ProcessController] class *)

Lemma pop_app {A} (l : list A) (x : A) : pop (l ++ [x]) = Some (l, x).
Proof.
  unfold pop. rewrite reverse_app. simpl. by rewrite reverse_involutive.
Qed.

Lemma replay_app clock tick (l1 l2 : list event) self :
  replay clock tick (l1 ++ l2) self =
  match replay clock tick l1 self with
  | (self', None) => replay clock (tick + length l1) l2 self'
  | raised => raised
  end.
Proof.
  revert tick self. induction l1 as [|ev l1 IH]; intros tick self; simpl.
  - by rewrite Nat.add_0_r.
  - destruct (dispatch self ev (clock tick)) as [self' [e|]]; [done|].
    rewrite IH. by replace (S tick + length l1)%nat
                      with (tick + S (length l1))%nat by lia.
Qed.

(** X14. On a [ProcessController] that has a progress observer and a
    result handler, a sequence of calls in which every [start] is closed
    by the [finish] of the same name, blocks are nested or follow each
    other, and no count is zero raises nothing; afterwards the timing
    stack and the limit functions are as before, the result handler is
    still there, and the observer has received every [start], [update]
    and [finish] in the order of the calls. *)
Theorem process_controller_nested_calls
    (clock : nat → Q) (calls : list event) (tick : nat)
    (self : process_controller) (observed : list po_call) :
  nested calls →
  po self = Some observed → is_Some (rh self) →
  ∃ self',
    replay clock tick calls self = (self', None) ∧
    timing self' = timing self ∧
    pc_limits self' = pc_limits self ∧
    is_Some (rh self') ∧
    po self' = Some (observed ++ omap po_of calls).
Proof.
  intros Hnested. revert tick self observed.
  induction Hnested as [|value calls _ IH|key value calls _ IH
                        |name count body calls Hcount _ IHbody _ IH];
    intros tick self observed Hpo Hrh.
  - exists self. simpl. by rewrite app_nil_r.
  - simpl. unfold update, observe. rewrite Hpo.
    edestruct (IH (S tick)) as (self' & -> & Ht & Hl & Hr & Hp);
      [reflexivity | exact Hrh |].
    exists self'. simpl in *. by rewrite Hp, <- app_assoc.
  - simpl. unfold pc_handle_result. destruct Hrh as [h Hh].
    simpl. rewrite Hh.
    edestruct (IH (S tick)) as (self' & -> & Ht & Hl & Hr & Hp);
      [exact Hpo | by eexists |].
    exists self'. simpl in *. done.
  - cbn [replay dispatch]. unfold start, observe. rewrite Hpo.
    rewrite replay_app.
    edestruct (IHbody (S tick)) as (self1 & -> & Ht1 & Hl1 & Hr1 & Hp1);
      [reflexivity | exact Hrh |].
    cbn [replay dispatch]. unfold finish, observe. rewrite Hp1.
    cbn [timing po rh pc_limits logging]. rewrite Ht1.
    cbn [timing]. rewrite pop_app. cbn [fst snd].
    rewrite String.eqb_refl. cbn [negb].
    rewrite bool_decide_eq_false_2 by done.
    edestruct (IH (S (S tick + length body)))
      as (self' & -> & Ht & Hl & Hr & Hp); [reflexivity | exact Hr1 |].
    exists self'. simpl in *. split; [done|]. split; [done|].
    split; [congruence|]. split; [done|].
    rewrite Hp, omap_app. simpl. by rewrite <- !app_assoc.
Qed.

Lemma process_controller_nested_calls_witness :
  ∃ self',
    replay (λ n, inject_Z (Z.of_nat n)) 0
      [EvStart "grand_loop" 2; EvUpdate 1; EvUpdate 2; EvFinish "grand_loop";
       EvResult "confidence" (Confidence [])]
      (new_controller (Some ForgetfulResultHandler) (Some []))
    = (self', None) ∧
    timing self' = [] ∧
    po self' = Some [PoStart "grand_loop" 2; PoUpdate 1; PoUpdate 2; PoFinish].
Proof.
  destruct (process_controller_nested_calls (λ n, inject_Z (Z.of_nat n))
              [EvStart "grand_loop" 2; EvUpdate 1; EvUpdate 2;
               EvFinish "grand_loop"; EvResult "confidence" (Confidence [])]
              0 (new_controller (Some ForgetfulResultHandler) (Some [])) [])
    as (self' & Hrun & Ht & _ & _ & Hp).
  - apply (nested_block "grand_loop" 2 [EvUpdate 1; EvUpdate 2]
             [EvResult "confidence" (Confidence [])]); [lia | | ];
      repeat constructor.
  - reflexivity.
  - by eexists.
  - by exists self'.
Defined.

Lemma updates_replay clock tick (values : list nat) self observed :
  po self = Some observed →
  replay clock tick (EvUpdate <$> values) self =
  (MkProcessController (rh self) (Some (observed ++ (PoUpdate <$> values)))
     (pc_limits self) (timing self) (logging self), None).
Proof.
  revert tick self observed.
  induction values as [|v values IH]; intros tick self observed Hpo.
  - simpl. rewrite app_nil_r, <- Hpo. by destruct self.
  - cbn [fmap list_fmap replay dispatch]. unfold update, observe.
    rewrite Hpo. rewrite (IH _ _ (observed ++ [PoUpdate v])) by done.
    simpl. by rewrite <- app_assoc.
Qed.

(** X15. The ways [finish] fails.  After a [start] and the updates of
    its block, [finish] under another name raises AssertionError, and
    [finish] of a block that was started with a count of zero raises
    ZeroDivisionError (the time per item is computed for the log); in
    both cases the observer has been told and the block's entry is off
    the timing stack.  With nothing started, [finish] raises IndexError. *)
Theorem process_controller_finish_failures
    (clock : nat → Q) (tick : nat) (name name' : string) (count : nat)
    (values : list nat) (self : process_controller)
    (observed : list po_call) :
  po self = Some observed →
  (name' ≠ name ∨ count = 0%nat →
   ∃ self',
     replay clock tick
       (EvStart name count :: (EvUpdate <$> values) ++ [EvFinish name']) self
     = (self', Some (if decide (name' = name)
                     then Builtin ZeroDivisionError else AssertionError)) ∧
     timing self' = timing self ∧
     po self' = Some (observed ++ [PoStart name count]
                        ++ (PoUpdate <$> values) ++ [PoFinish])) ∧
  (timing self = [] →
   ∃ self', finish self name (clock tick)
            = (self', Some (Builtin IndexError))).
Proof.
  intros Hpo. split.
  - intros Hbad. cbn [replay dispatch]. unfold start, observe. rewrite Hpo.
    rewrite replay_app.
    rewrite (updates_replay _ _ _ _ (observed ++ [PoStart name count]))
      by done.
    cbn [replay dispatch]. unfold finish, observe.
    cbn [timing po rh pc_limits logging]. rewrite pop_app. cbn [fst snd].
    destruct (decide (name' = name)) as [->|Hne].
    + rewrite String.eqb_refl. cbn [negb].
      destruct Hbad as [Hbad|Hbad]; [done|].
      rewrite bool_decide_eq_true_2 by done.
      eexists. split; [reflexivity|]. simpl. split; [done|].
      by rewrite <- !app_assoc.
    + apply String.eqb_neq in Hne. rewrite Hne. cbn [negb].
      eexists. split; [reflexivity|]. simpl. split; [done|].
      by rewrite <- !app_assoc.
  - intros Hempty. unfold finish, observe. rewrite Hpo.
    cbn [timing]. rewrite Hempty. by eexists.
Qed.

Lemma process_controller_finish_failures_witness :
  ∃ self',
    replay (λ n, inject_Z (Z.of_nat n)) 0
      [EvStart "grand_loop" 0; EvFinish "grand_loop"]
      (new_controller (Some ForgetfulResultHandler) (Some []))
    = (self', Some (Builtin ZeroDivisionError)).
Proof.
  destruct (process_controller_finish_failures
              (λ n, inject_Z (Z.of_nat n)) 0 "grand_loop" "grand_loop" 0 []
              (new_controller (Some ForgetfulResultHandler) (Some [])) [])
    as [H _].
  - reflexivity.
  - destruct H as (self' & Hrun & _); [by right|]. by exists self'.
Defined.

(** X16. [limit] never raises and changes nothing of the controller but
    its log.  After [set_limit(key, f)], [limit(key, value)] is [f(value)]
    when [f] returns and [value] itself when [f] raises, whatever was
    registered under the key before; every other key is limited as it was
    before; and a key that has no limit function leaves the value as it
    is. *)
Theorem process_controller_limit_round_trip
    (self : process_controller) (key key' : string)
    (f : nat → result nat) (value : nat) :
  (pc_limit (set_limit self key f) key' value).2 =
    (if decide (key' = key)
     then match f value with Ok v => v | Raise _ => value end
     else (pc_limit self key' value).2) ∧
  (pc_limits self !! key' = None → pc_limit self key' value = (self, value)) ∧
  let self' := (pc_limit self key' value).1 in
  rh self' = rh self ∧ po self' = po self ∧
  pc_limits self' = pc_limits self ∧ timing self' = timing self.
Proof.
  split; [|split].
  - unfold pc_limit at 1. unfold set_limit. cbn [pc_limits].
    destruct (decide (key' = key)) as [->|Hne].
    + rewrite lookup_insert_eq. destruct (f value) as [v|e]; [done|].
      by destruct e.
    + rewrite lookup_insert_ne by done. unfold pc_limit.
      destruct (pc_limits self !! key') as [g|]; [|done].
      destruct (g value) as [v|e]; [done|]. by destruct e.
  - intros Hnone. unfold pc_limit. by rewrite Hnone.
  - unfold pc_limit. destruct (pc_limits self !! key') as [g|]; [|done].
    destruct (g value) as [v|e]; [done|]. by destruct e.
Qed.

(** X17. The controller [build_controller] returns limits [coords] to
    [min(value, args.limit)] when [--limit] was given and to the value
    itself otherwise, and limits no other key; its timing stack is empty
    and the only thing logged is the warning about [--generate] beside
    [--check]; its result handler is the checking one whenever [--check]
    was given, also beside [--generate]. *)
Theorem build_controller_limits_coords
    (reference_files : gmap string (gmap string array2)) (args : Args)
    (controller : process_controller) :
  build_controller reference_files args = Ok controller →
  (∀ value, pc_limit controller "coords" value =
            (controller, match args_limit args with
                         | Some n => (value `min` n)%nat
                         | None => value
                         end)) ∧
  (∀ key value, key ≠ "coords"%string →
                pc_limit controller key value = (controller, value)) ∧
  logging controller = match check args, generate args with
                       | Some _, Some _ => [GenerateAndCheck]
                       | _, _ => []
                       end ∧
  timing controller = [] ∧
  (∀ filename, check args = Some filename →
     ∃ reference_results,
       reference_files !! filename = Some reference_results ∧
       rh controller = Some (CheckingResultHandler reference_results)).
Proof.
  unfold build_controller. intros (h & Hh & Hc)%bind_Ok.
  assert (Hrh : rh controller = Some h ∧
                logging controller = match check args, generate args with
                                     | Some _, Some _ => [GenerateAndCheck]
                                     | _, _ => []
                                     end ∧
                timing controller = [] ∧
                pc_limits controller =
                  match args_limit args with
                  | Some n => {[ "coords"%string :=
                                   λ x : nat, Ok (x `min` n)%nat ]}
                  | None => ∅
                  end).
  { destruct (args_limit args) as [n|]; injection Hc as <-; simpl.
    - unfold set_limit, new_controller. simpl.
      rewrite bool_decide_eq_false_2; [by rewrite app_nil_r|].
      rewrite lookup_empty. by intros [? ?].
    - by rewrite app_nil_r. }
  destruct Hrh as (Hrh & Hlog & Htim & Hlim).
  split; [|split; [|split; [done|split; [done|]]]].
  - intros value. unfold pc_limit. rewrite Hlim.
    destruct (args_limit args) as [n|].
    + by rewrite lookup_singleton_eq.
    + by rewrite lookup_empty.
  - intros key value Hkey. unfold pc_limit. rewrite Hlim.
    destruct (args_limit args) as [n|].
    + by rewrite lookup_singleton_ne.
    + by rewrite lookup_empty.
  - intros filename Hcheck. rewrite Hcheck in Hh.
    unfold checking_result_handler in Hh.
    destruct (reference_files !! filename) as [refs|]; [|done].
    injection Hh as <-. by exists refs.
Qed.

Lemma build_controller_limits_coords_witness :
  ∃ controller,
    build_controller ∅ (MkArgs None None None (Some 150%nat)) = Ok controller ∧
    (pc_limit controller "coords" 500).2 = 150%nat ∧
    (pc_limit controller "coords" 7).2 = 7%nat.
Proof.
  eexists. split; [reflexivity|].
  edestruct (build_controller_limits_coords ∅
              (MkArgs None None None (Some 150%nat))) as (H & _).
  - reflexivity.
  - rewrite !H. split; reflexivity.
Defined.

(** ** The first grand loop and the precomputing one *)

Lemma for_each_fmap {A B St} (f : A → B) (l : list A)
    (g : B → St → result St) (s : St) :
  for_each (f <$> l) g s = for_each l (λ a, g (f a)) s.
Proof.
  revert s. induction l as [|a l IH]; intros s; simpl; [done|].
  destruct (g (f a) s); simpl; [apply IH | done].
Qed.

Section GrandLoops.

Context {Distortion PlaneData : Type}.
Variable project :
  list vec3 → mat3 → mat3 → Q → list Q → list Q → list Q →
  option Distortion → list (Q * Q) * list mat3.
Variable image : volume.
Variable angles : list (list vec3).
Variable coords : list (list Q).
Variable experiment : Experiment Distortion PlaneData.

(** The nested loops of [_grand_loop] visit the cells in the order of
    [it.product(range(n_coords), range(n_grains))]. *)
Lemma grand_loop_cells (n_grains k n : nat) (m : matrix) (c : Controller) :
  for_each (seq k n)
    (_grand_loop_body project image angles coords experiment n_grains) (m, c)
  = m' ← for_each (list_prod (seq k n) (seq 0 n_grains))
            (λ p, _grand_loop_cell project image angles coords experiment
                    p.1 p.2) m;
    Ok (m', foldl (λ c i, emit (EvUpdate (i * n_grains)) c) c (seq k n)).
Proof.
  revert k m c. induction n as [|n IH]; intros k m c; [done|].
  cbn [seq for_each list_prod foldl]. rewrite for_each_app.
  change (map (λ y : nat, (k, y)) (seq 0 n_grains))
    with ((λ y : nat, (k, y)) <$> seq 0 n_grains).
  rewrite for_each_fmap.
  change (for_each (seq 0 n_grains) _ m)
    with (for_each (seq 0 n_grains)
            (_grand_loop_cell project image angles coords experiment k) m).
  change (_grand_loop_body project image angles coords experiment n_grains
            k (m, c))
    with (confidence ← for_each (seq 0 n_grains)
             (_grand_loop_cell project image angles coords experiment k) m;
          Ok (confidence, emit (EvUpdate (k * n_grains)) c)).
  destruct (for_each (seq 0 n_grains)
              (_grand_loop_cell project image angles coords experiment k) m)
    as [m1|e]; cbn [mbind result_mbind result_bind]; [|done].
  apply IH.
Qed.

End GrandLoops.

(** One cell: quantize, then test the neighbourhoods on the raw image,
    is the fused kernel on the dilated image. *)
Lemma grand_loop_cell_is_inner_body {Distortion PlaneData : Type}
    (project : list vec3 → mat3 → mat3 → Q → list Q → list Q → list Q →
               option Distortion → list (Q * Q) * list mat3)
    (image dilated : volume) (angles : list (list vec3))
    (coords : list (list Q)) (experiment : Experiment Distortion PlaneData)
    (nf icrd igrn : nat) (m : matrix) :
  volume_shape image nf (nrows experiment) (ncols experiment) →
  volume_shape dilated nf (nrows experiment) (ncols experiment) →
  dilation_of (Z.of_nat (row_dilation experiment))
    (Z.of_nat (col_dilation experiment)) image dilated →
  c0 (clip_vals experiment) ≤ Z.of_nat (ncols experiment) →
  c1 (clip_vals experiment) ≤ Z.of_nat (nrows experiment) →
  (∀ angs rD rC chi tD crd tS d,
     length (project angs rD rC chi tD crd tS d).1 = length angs) →
  (∀ igrn angs rC crd,
     angles !! igrn = Some angs →
     Forall (λ p, as_int32 p = p ∧ - Z.of_nat nf ≤ p.2 < Z.of_nat nf)
       (surviving
          (project angs (rMat_d experiment) rC (chi experiment)
             (tVec_d experiment) crd (tVec_s experiment)
             (distortion experiment)).1
          (v2 <$> angs) (base experiment) (inv_deltas experiment)
          (clip_vals experiment))) →
  _grand_loop_cell project image angles coords experiment icrd igrn m =
  _grand_loop_inner_body project dilated angles coords experiment
    (icrd, igrn) m.
Proof.
  intros Himg Hdil Hd Hc0 Hc1 Hlen Hfit.
  unfold _grand_loop_cell, _grand_loop_inner_body, cell_score.
  destruct (getitem angles igrn) as [angs|e] eqn:Ha; [|done].
  destruct (getitem (rMat_c experiment) igrn) as [rC|e]; [|done].
  destruct (getitem coords icrd) as [crd|e]; [|done].
  cbn [mbind result_mbind result_bind].
  apply getitem_Ok_lookup in Ha.
  specialize (Hfit igrn angs rC crd Ha).
  specialize (Hlen angs (rMat_d experiment) rC (chi experiment)
                (tVec_d experiment) crd (tVec_s experiment)
                (distortion experiment)).
  destruct (project angs _ _ _ _ _ _ _) as [det_xy rMat_ss].
  cbn [fst] in Hfit, Hlen.
  assert (Hle : (length det_xy ≤ length (v2 <$> angs))%nat)
    by (rewrite length_fmap; lia).
  rewrite quant_and_clip_surviving by done.
  rewrite fmap_as_int32_id
    by (eapply Forall_impl; [exact Hfit | by intros p [? _]]).
  cbn [mbind result_mbind result_bind].
  rewrite quant_and_clip_confidence_surviving by done.
  rewrite <- dilated_check_is_tally.
  set (l := surviving det_xy (v2 <$> angs) (base experiment)
              (inv_deltas experiment) (clip_vals experiment)).
  assert (Hin : ∀ p, p ∈ l → 0 ≤ p.1.1 < Z.of_nat (ncols experiment) ∧
                              0 ≤ p.1.2 < Z.of_nat (nrows experiment)).
  { intros p Hp. apply surviving_in_clip in Hp. lia. }
  f_equal. unfold _confidence_check, _confidence_check_dilated. f_equal.
  apply for_each_ext. intros i acc _.
  eapply confidence_check_body_is_lookup; try done; try lia.
  - apply Forall_fmap. eapply Forall_impl; [exact Hfit|].
    by intros p [_ ?].
  - apply Forall_fmap, Forall_forall. intros p Hp. simpl.
    by apply Hin.
  - apply Forall_fmap, Forall_forall. intros p Hp. simpl.
    by apply Hin.
Qed.

(** X18. The first grand loop on the raw image stack and the serial chunk
    loop of the precomputing one on the dilated stack fill the same
    confidence matrix (or neither returns one), when the dilated stack is
    the dilation of the raw one by the experiment's window, the clip
    values are inside the frame, there is one angle table per grain, the
    projection returns one point per angle, the indices fit [int32] and
    the frame index of every point that survives the clipping is a valid
    index of the stacks, in [-nf, nf): both loops then read the stacks
    inside their bounds only. *)
Theorem grand_loop_is_precomputed_grand_loop {Distortion PlaneData : Type}
    (project : list vec3 → mat3 → mat3 → Q → list Q → list Q → list Q →
               option Distortion → list (Q * Q) * list mat3)
    (sched : list nat → list nat) (junk : nat → nat → Q)
    (image dilated : volume) (angles : list (list vec3))
    (coords : list (list Q)) (experiment : Experiment Distortion PlaneData)
    (controller : Controller) (nf : nat) (m : matrix) :
  volume_shape image nf (nrows experiment) (ncols experiment) →
  volume_shape dilated nf (nrows experiment) (ncols experiment) →
  dilation_of (Z.of_nat (row_dilation experiment))
    (Z.of_nat (col_dilation experiment)) image dilated →
  c0 (clip_vals experiment) ≤ Z.of_nat (ncols experiment) →
  c1 (clip_vals experiment) ≤ Z.of_nat (nrows experiment) →
  (∀ angs rD rC chi tD crd tS d,
     length (project angs rD rC chi tD crd tS d).1 = length angs) →
  (∀ igrn angs rC crd,
     angles !! igrn = Some angs →
     Forall (λ p, as_int32 p = p ∧ - Z.of_nat nf ≤ p.2 < Z.of_nat nf)
       (surviving
          (project angs (rMat_d experiment) rC (chi experiment)
             (tVec_d experiment) crd (tVec_s experiment)
             (distortion experiment)).1
          (v2 <$> angs) (base experiment) (inv_deltas experiment)
          (clip_vals experiment))) →
  n_grains experiment = length angles →
  chunk_size controller ≠ 0%nat →
  (process_count controller ≤ 1)%nat →
  (∃ c, _grand_loop project junk image angles coords experiment controller
        = Ok (m, c)) ↔
  (∃ c, chunk_loop project sched junk dilated angles coords experiment
          controller = Ok (m, c)).
Proof.
  intros Himg Hdil Hd Hc0 Hc1 Hlen Hfit Hgrains Hcs Hcpu.
  rewrite chunk_loop_serial_Ok by done. cbv zeta.
  unfold _grand_loop. unfold range. rewrite grand_loop_cells.
  set (n := limit controller "coords" (length coords)).
  set (m0 := np_empty junk (n_grains experiment) n).
  pose proof (xrange_step_Ok n (chunk_size controller) ltac:(lia)) as Hchunks.
  set (chunks := (λ k, k * chunk_size controller)%nat <$> _) in Hchunks.
  assert (Hcells :
    concat (cells_serial angles n (chunk_size controller) <$> chunks)
    = list_prod (seq 0 n) (seq 0 (n_grains experiment))).
  { unfold cells_serial.
    rewrite (list_prod_concat (chunk_range_serial n (chunk_size controller))).
    rewrite (serial_ranges_concat _ _ _ Hchunks). unfold xrange.
    by rewrite Nat.sub_0_r, Hgrains. }
  rewrite (for_each_ext _ _
             (_grand_loop_inner_body project dilated angles coords experiment)).
  2:{ intros [icrd igrn] s _. cbn [fst snd].
      by eapply grand_loop_cell_is_inner_body. }
  split.
  - intros (c & Hrun). exists chunks. split; [done|]. rewrite Hcells.
    destruct (for_each _ _ m0) as [m'|e]; [|done].
    simpl in Hrun. by injection Hrun as -> _.
  - intros (chunks' & Hx & Hrun).
    assert (chunks' = chunks) as -> by congruence.
    rewrite Hcells in Hrun. rewrite Hrun. simpl. by eexists.
Qed.

Lemma grand_loop_is_precomputed_grand_loop_witness :
  (∃ c, _grand_loop toy_project (λ _ _, 0%Q) toy_volume toy_angles
          (replicate 3 [0; 0; 0]%Q) toy_experiment (MkController ∅ 2 1 [])
        = Ok ([[1; 1; 1]%Q], c)) ↔
  (∃ c, chunk_loop toy_project id (λ _ _, 0%Q) toy_volume toy_angles
          (replicate 3 [0; 0; 0]%Q) toy_experiment (MkController ∅ 2 1 [])
        = Ok ([[1; 1; 1]%Q], c)).
Proof.
  apply (grand_loop_is_precomputed_grand_loop toy_project id (λ _ _, 0%Q)
           toy_volume toy_volume toy_angles (replicate 3 [0; 0; 0]%Q)
           toy_experiment (MkController ∅ 2 1 []) 1 [[1; 1; 1]%Q]).
  - repeat constructor.
  - repeat constructor.
  - split; [reflexivity|].
    intros k j i fr row b Hk Hj Hi Hb.
    destruct k as [|k]; [|done]. injection Hk as <-.
    destruct j as [|j]; [|done]. injection Hj as <-.
    destruct i as [|i]; [|simpl in Hi; lia]. injection Hb as <-.
    split; [intros _ | done].
    exists 0%nat, 0%nat. simpl. split; [lia|]. split; [lia | done].
  - simpl. lia.
  - simpl. lia.
  - intros. unfold toy_project. simpl. apply length_fmap.
  - intros igrn angs rC crd Hangs.
    destruct igrn as [|igrn]; [|done]. injection Hangs as <-.
    assert (surviving
              (toy_project [Vec3 0 0 0] (rMat_d toy_experiment) rC
                 (chi toy_experiment) (tVec_d toy_experiment) crd
                 (tVec_s toy_experiment) (distortion toy_experiment)).1
              (v2 <$> [Vec3 0 0 0]) (base toy_experiment)
              (inv_deltas toy_experiment) (clip_vals toy_experiment)
            = [(0, 0, 0)]) as -> by (vm_compute; reflexivity).
    constructor; [split; [reflexivity | simpl; lia] | constructor].
  - reflexivity.
  - simpl. lia.
  - simpl. lia.
Defined.

(** ** [xf_numba]: the row-wise helpers *)

Section XfNumbaProps.

Variable float : Type.

Lemma fmat_get_Ok (m : list (list float)) (i j : nat) (x : float) :
  fcell m i j = Some x → fmat_get float m i j = Ok x.
Proof.
  unfold fcell, fmat_get. destruct (m !! i) as [r|] eqn:Hr; [|done].
  simpl. intros Hx. rewrite (getitem_Some _ _ _ Hr). simpl.
  by apply getitem_Some.
Qed.

Lemma fmat_set_Ok (m : list (list float)) (i j : nat) (r : list float) (x : float) :
  m !! i = Some r → (j < length r)%nat →
  fmat_set float m i j x = Ok (<[i := <[j := x]> r]> m).
Proof.
  intros Hr Hj. unfold fmat_set. rewrite (getitem_Some _ _ _ Hr). simpl.
  by rewrite bool_decide_eq_true_2.
Qed.

Lemma np_empty_f_lookup (junk : nat → nat → float) (n_rows n_cols i : nat) :
  (i < n_rows)%nat →
  np_empty_f float junk n_rows n_cols !! i = Some (junk i <$> seq 0 n_cols).
Proof.
  intros Hi. unfold np_empty_f. rewrite list_lookup_fmap.
  by rewrite lookup_seq_lt.
Qed.

Lemma np_empty_f_shape (junk : nat → nat → float) (n_rows n_cols : nat) :
  fshape (np_empty_f float junk n_rows n_cols) n_rows n_cols.
Proof.
  unfold np_empty_f. split.
  - by rewrite length_fmap, length_seq.
  - apply Forall_fmap, Forall_forall. intros i _. simpl.
    by rewrite length_fmap, length_seq.
Qed.

Lemma fshape_cell (m : list (list float)) (n dim i j : nat) :
  fshape m n dim → (i < n)%nat → (j < dim)%nat →
  ∃ r x, m !! i = Some r ∧ length r = dim ∧ r !! j = Some x ∧
         fcell m i j = Some x.
Proof.
  intros [Hn Hall] Hi Hj.
  destruct (lookup_lt_is_Some_2 m i) as [r Hr]; [lia|].
  pose proof (proj1 (Forall_lookup _ _) Hall _ _ Hr) as Hlen. simpl in Hlen.
  destruct (lookup_lt_is_Some_2 r j) as [x Hx]; [lia|].
  exists r, x. unfold fcell. rewrite Hr. simpl. done.
Qed.

(** A loop that computes one row of three entries from the first two
    entries of the same row of [angs]. *)
Lemma row3_loop (f0 f1 f2 : float → float → float)
    (angs : list (list float)) (n dim : nat) (out0 : list (list float)) (k : nat) :
  fshape angs n dim → (2 ≤ dim)%nat →
  Forall (λ r : list float, length r = 3%nat) out0 →
  (k ≤ n)%nat → (k ≤ length out0)%nat →
  ∃ out : list (list float),
    for_each (seq 0 k)
      (λ i out,
         a0 ← fmat_get float angs i 0;
         a1 ← fmat_get float angs i 1;
         out ← fmat_set float out i 0 (f0 a0 a1);
         out ← fmat_set float out i 1 (f1 a0 a1);
         fmat_set float out i 2 (f2 a0 a1)) out0 = Ok out ∧
    length out = length out0 ∧
    Forall (λ r : list float, length r = 3%nat) out ∧
    (∀ i a0 a1, (i < k)%nat →
       fcell angs i 0 = Some a0 → fcell angs i 1 = Some a1 →
       out !! i = Some [f0 a0 a1; f1 a0 a1; f2 a0 a1]) ∧
    (∀ i, (k ≤ i)%nat → out !! i = out0 !! i).
Proof.
  intros Hangs Hdim Hrows. induction k as [|k IH]; intros Hk Hout.
  - exists out0. simpl. repeat split; try done. intros i a0 a1 Hi. lia.
  - destruct IH as (out & Hrun & Hlen & Hall & Hlow & Hhigh); [lia | lia |].
    rewrite seq_S, for_each_app, Hrun. cbn [mbind result_mbind result_bind].
    cbn [for_each Nat.add].
    destruct (fshape_cell angs n dim k 0 Hangs) as (r0 & a0 & _ & _ & _ & Ha0);
      [lia | lia |].
    destruct (fshape_cell angs n dim k 1 Hangs) as (r1 & a1 & _ & _ & _ & Ha1);
      [lia | lia |].
    rewrite (fmat_get_Ok _ _ _ _ Ha0), (fmat_get_Ok _ _ _ _ Ha1).
    cbn [mbind result_mbind result_bind].
    destruct (lookup_lt_is_Some_2 out k) as [r Hr]; [lia|].
    pose proof (proj1 (Forall_lookup _ _) Hall _ _ Hr) as Hr3. simpl in Hr3.
    destruct r as [|x [|y [|z [|? ?]]]]; try done.
    rewrite (fmat_set_Ok _ _ _ _ _ Hr) by (simpl; lia).
    cbn [mbind result_mbind result_bind].
    rewrite (fmat_set_Ok _ _ _ (<[0%nat := f0 a0 a1]> [x; y; z]));
      [|apply list_lookup_insert_eq; lia | simpl; lia].
    cbn [mbind result_mbind result_bind].
    rewrite (fmat_set_Ok _ _ _
               (<[1%nat := f1 a0 a1]> (<[0%nat := f0 a0 a1]> [x; y; z])));
      [|apply list_lookup_insert_eq; rewrite length_insert; lia
       |simpl; lia].
    cbn [mbind result_mbind result_bind]. rewrite !list_insert_insert_eq.
    eexists. split; [reflexivity|]. split; [by rewrite length_insert|].
    split; [by apply Forall_insert|]. split.
    + intros i b0 b1 Hi Hb0 Hb1. destruct (decide (i = k)) as [->|Hne].
      * rewrite list_lookup_insert_eq by lia. simpl. congruence.
      * rewrite list_lookup_insert_ne by done. apply Hlow; [lia | done | done].
    + intros i Hi. rewrite list_lookup_insert_ne by lia. apply Hhigh. lia.
Qed.

End XfNumbaProps.

(** With no more rows than columns the row loop fills the first rows of
    the [dim] x 3 array, and every store is inside it. *)
Lemma row3_returns {float : Type} (f0 f1 f2 : float → float → float)
    (junk : nat → nat → float) (angs : list (list float)) (n dim : nat) :
  fshape angs n dim → (2 ≤ dim)%nat → (n ≤ dim)%nat →
  ∃ out : list (list float),
    for_each (range n)
      (λ i out,
         a0 ← fmat_get float angs i 0;
         a1 ← fmat_get float angs i 1;
         out ← fmat_set float out i 0 (f0 a0 a1);
         out ← fmat_set float out i 1 (f1 a0 a1);
         fmat_set float out i 2 (f2 a0 a1))
      (np_empty_f float junk dim 3) = Ok out ∧
    length out = dim ∧
    (∀ i a0 a1, (i < n)%nat →
       fcell angs i 0 = Some a0 → fcell angs i 1 = Some a1 →
       out !! i = Some [f0 a0 a1; f1 a0 a1; f2 a0 a1]) ∧
    (∀ i, (n ≤ i < dim)%nat → out !! i = Some (junk i <$> seq 0 3)).
Proof.
  intros Hangs Hdim Hn.
  destruct (np_empty_f_shape float junk dim 3) as [Hlen0 Hrows0].
  destruct (row3_loop float f0 f1 f2 angs n dim (np_empty_f float junk dim 3)
              n Hangs Hdim Hrows0) as (out & Hrun & Hlen & _ & Hlow & Hhigh);
    [lia | lia |].
  exists out. split; [done|]. split; [lia|]. split; [done|].
  intros i Hi. rewrite Hhigh by lia. apply np_empty_f_lookup. lia.
Qed.

(** X19. [_angles_to_gvec_helper] and [_angles_to_dvec_helper] allocate
    their output with as many rows as [angs] has columns, not rows.  For
    an [angs] of shape (n, dim) with at least two columns and n <= dim,
    so that every store is inside the output, the result has [dim] rows:
    the first n hold the vectors of the n angle pairs and the others what
    the allocation left there. *)
Theorem angles_helpers_allocate_by_columns
    (float : Type) (fmul : float → float → float)
    (fneg fcos fsin : float → float) (half : float)
    (junk : nat → nat → float) (angs : ndarray2 float) :
  let n := shape0 float angs in
  let dim := shape1 float angs in
  fshape (items float angs) n dim → (2 ≤ dim)%nat → (n ≤ dim)%nat →
  (∃ out : list (list float),
     _angles_to_gvec_helper float fmul fcos fsin half junk angs None
       = Ok out ∧
     length out = dim ∧
     (∀ i a0 a1, (i < n)%nat →
        fcell (items float angs) i 0 = Some a0 →
        fcell (items float angs) i 1 = Some a1 →
        out !! i = Some [fmul (fcos (fmul half a0)) (fcos a1);
                         fmul (fcos (fmul half a0)) (fsin a1);
                         fsin (fmul half a0)]) ∧
     (∀ i, (n ≤ i < dim)%nat → out !! i = Some (junk i <$> seq 0 3))) ∧
  (∃ out : list (list float),
     _angles_to_dvec_helper float fmul fneg fcos fsin junk angs None
       = Ok out ∧
     length out = dim ∧
     (∀ i a0 a1, (i < n)%nat →
        fcell (items float angs) i 0 = Some a0 →
        fcell (items float angs) i 1 = Some a1 →
        out !! i = Some [fmul (fsin a0) (fcos a1);
                         fmul (fsin a0) (fsin a1);
                         fneg (fcos a0)]) ∧
     (∀ i, (n ≤ i < dim)%nat → out !! i = Some (junk i <$> seq 0 3))).
Proof.
  intros n dim Hangs Hdim Hn. split.
  - apply (row3_returns
             (λ a0 a1, fmul (fcos (fmul half a0)) (fcos a1))
             (λ a0 a1, fmul (fcos (fmul half a0)) (fsin a1))
             (λ a0 _, fsin (fmul half a0)) junk _ n dim); done.
  - apply (row3_returns
             (λ a0 a1, fmul (fsin a0) (fcos a1))
             (λ a0 a1, fmul (fsin a0) (fsin a1))
             (λ a0 _, fneg (fcos a0)) junk _ n dim); done.
Qed.

Lemma angles_helpers_allocate_by_columns_witness :
  ∃ out : list (list Q),
    _angles_to_gvec_helper Q Qmult (λ x, x) (λ x, x) (1 # 2)%Q (λ _ _, 7%Q)
      (NdArray2 Q 1 2 [[0; 0]]%Q) None = Ok out ∧
    length out = 2%nat ∧
    out !! 1%nat = Some [7; 7; 7]%Q.
Proof.
  destruct (angles_helpers_allocate_by_columns Q Qmult Qopp (λ x, x)
              (λ x, x) (1 # 2)%Q (λ _ _, 7%Q) (NdArray2 Q 1 2 [[0; 0]]%Q))
    as [(out & Hrun & Hlen & _ & Hjunk) _].
  - repeat constructor.
  - simpl. lia.
  - simpl. lia.
  - exists out. split; [exact Hrun|]. split; [exact Hlen|].
    apply (Hjunk 1%nat). simpl. lia.
Defined.

Section UnitVectorProps.

Variable float : Type.
Variables fadd fmul : float → float → float.
Variable fsqrt : float → float.
Variable fdiv : float → float → result float.
Variable fgt : float → float → bool.
Variables epsf fzero : float.

Lemma np_empty_f_cell (junk : nat → nat → float) (n_rows n_cols i j : nat) :
  (i < n_rows)%nat → (j < n_cols)%nat →
  fcell (np_empty_f float junk n_rows n_cols) i j = Some (junk i j).
Proof.
  intros Hi Hj. unfold fcell. rewrite np_empty_f_lookup by done. simpl.
  rewrite list_lookup_fmap. by rewrite lookup_seq_lt.
Qed.

(** The inner loop over the columns sums the squares of the row. *)
Lemma sum_squares_loop (a : list (list float)) (dim i : nat)
    (row : list float) (s0 : float) :
  a !! i = Some row → length row = dim →
  for_each (range dim)
    (λ j nrm, x ← fmat_get float a i j; Ok (fadd nrm (fmul x x))) s0
  = Ok (foldl (λ s x, fadd s (fmul x x)) s0 row).
Proof.
  intros Hrow <-.
  rewrite (for_each_range_lookup row _ (λ x s, Ok (fadd s (fmul x x)))).
  - clear Hrow. revert s0. induction row as [|x row IH]; intros s0; [done|].
    simpl. apply IH.
  - intros j x s Hx. rewrite (fmat_get_Ok float a i j x); [done|].
    unfold fcell. by rewrite Hrow.
Qed.

(** A loop over the rows that stores [g(a[i, j0])] into [b[i, j0]]. *)
Lemma column_loop (g : float → result float) (a b0 : list (list float))
    (n dim j0 k : nat) :
  fshape a n dim → fshape b0 n dim → (j0 < dim)%nat → (k ≤ n)%nat →
  (∀ x, ∃ q, g x = Ok q) →
  ∃ b : list (list float),
    for_each (seq 0 k)
      (λ i b, j ← load (Some j0); x ← fmat_get float a i j; q ← g x;
              fmat_set float b i j q) b0 = Ok b ∧
    fshape b n dim ∧
    (∀ i x, (i < k)%nat → fcell a i j0 = Some x →
       ∃ q, g x = Ok q ∧ fcell b i j0 = Some q) ∧
    (∀ i j, j ≠ j0 ∨ (k ≤ i)%nat → fcell b i j = fcell b0 i j).
Proof.
  intros Ha Hb0 Hj0 Hk Hg. induction k as [|k IH].
  - exists b0. simpl. repeat split; try done; try apply Hb0.
    intros i x Hi. lia.
  - destruct IH as (b & Hrun & Hb & Hcol & Hrest); [lia|].
    rewrite seq_S, for_each_app, Hrun.
    cbn [mbind result_mbind result_bind for_each Nat.add load].
    destruct (fshape_cell float a n dim k j0 Ha) as (ra & x & _ & _ & _ & Hx);
      [lia | lia |].
    rewrite (fmat_get_Ok float _ _ _ _ Hx).
    cbn [mbind result_mbind result_bind].
    destruct (Hg x) as [q Hq]. rewrite Hq.
    cbn [mbind result_mbind result_bind].
    destruct (fshape_cell float b n dim k j0 Hb) as (rb & y & Hrb & Hlen & _ & _);
      [lia | lia |].
    rewrite (fmat_set_Ok float _ _ _ _ _ Hrb) by lia.
    cbn [mbind result_mbind result_bind].
    eexists. split; [reflexivity|]. split; [|split].
    + destruct Hb as [Hn Hall]. split; [by rewrite length_insert|].
      apply Forall_insert; [done|]. by rewrite length_insert.
    + intros i x' Hi Hx'. unfold fcell.
      destruct (decide (i = k)) as [->|Hne].
      * rewrite list_lookup_insert_eq by (destruct Hb; lia). simpl.
        rewrite list_lookup_insert_eq by lia.
        exists q. split; [congruence | done].
      * rewrite list_lookup_insert_ne by done. apply Hcol; [lia | done].
    + intros i j Hij. rewrite <- Hrest by (destruct Hij; [by left | right; lia]).
      unfold fcell. destruct (decide (i = k)) as [->|Hne].
      * rewrite list_lookup_insert_eq by (destruct Hb; lia). rewrite Hrb.
        simpl. apply list_lookup_insert_ne. destruct Hij; [done | lia].
      * by rewrite list_lookup_insert_ne.
Qed.

(** One iteration of the outer loop of [_unit_vector_multi]: the whole
    last column is written, from the norm of row [i]. *)
Lemma unit_vector_multi_body_spec (a b0 : list (list float))
    (n dim i : nat) (row : list float) :
  fshape a n dim → fshape b0 n dim → (1 ≤ dim)%nat →
  (∀ x y, fgt y epsf = true → ∃ q, fdiv x y = Ok q) →
  a !! i = Some row →
  let nrm := fsqrt (foldl (λ s x, fadd s (fmul x x)) fzero row) in
  ∃ b : list (list float),
    _unit_vector_multi_body float fadd fmul fsqrt fdiv fgt epsf fzero
      a n dim i b0 = Ok b ∧
    fshape b n dim ∧
    (∀ i' x, (i' < n)%nat → fcell a i' (dim - 1) = Some x →
       ∃ q, fcell b i' (dim - 1) = Some q ∧
            (if fgt nrm epsf then fdiv x nrm = Ok q else q = x)) ∧
    (∀ i' j, j ≠ (dim - 1)%nat → fcell b i' j = fcell b0 i' j).
Proof.
  intros Ha Hb0 Hdim Hdiv Hrow nrm.
  assert (Hlen : length row = dim).
  { destruct Ha as [_ Hall].
    exact (proj1 (Forall_lookup _ _) Hall _ _ Hrow). }
  unfold _unit_vector_multi_body.
  rewrite (sum_squares_loop a dim i row fzero Hrow Hlen).
  cbn [mbind result_mbind result_bind]. fold nrm.
  rewrite bool_decide_eq_false_2 by lia. unfold range.
  destruct (fgt nrm epsf) eqn:Hgt.
  - destruct (column_loop (λ x, fdiv x nrm) a b0 n dim (dim - 1) n)
      as (b & Hrun & Hb & Hcol & Hrest); try done; try lia.
    { intros x. by apply Hdiv. }
    exists b. split; [exact Hrun|]. split; [done|]. split.
    + intros i' x Hi' Hx. destruct (Hcol i' x Hi' Hx) as (q & Hq & Hc).
      by exists q.
    + intros i' j Hj. apply Hrest. by left.
  - destruct (column_loop (λ x, Ok x) a b0 n dim (dim - 1) n)
      as (b & Hrun & Hb & Hcol & Hrest); try done; try lia.
    { intros x. by exists x. }
    exists b. split; [exact Hrun|]. split; [done|]. split.
    + intros i' x Hi' Hx. destruct (Hcol i' x Hi' Hx) as (q & [= <-] & Hc).
      by exists x.
    + intros i' j Hj. apply Hrest. by left.
Qed.

(** The outer loop: after [k >= 1] iterations the last column is the one
    the last iteration wrote, and nothing else has changed. *)
Lemma unit_vector_multi_loop (a b0 : list (list float)) (n dim k : nat) :
  fshape a n dim → fshape b0 n dim → (1 ≤ dim)%nat → (k ≤ n)%nat →
  (∀ x y, fgt y epsf = true → ∃ q, fdiv x y = Ok q) →
  ∃ b : list (list float),
    for_each (seq 0 k)
      (_unit_vector_multi_body float fadd fmul fsqrt fdiv fgt epsf fzero
         a n dim) b0 = Ok b ∧
    fshape b n dim ∧
    (∀ i' j, j ≠ (dim - 1)%nat → fcell b i' j = fcell b0 i' j) ∧
    (∀ row, (1 ≤ k)%nat → a !! (k - 1)%nat = Some row →
       let nrm := fsqrt (foldl (λ s x, fadd s (fmul x x)) fzero row) in
       ∀ i' x, (i' < n)%nat → fcell a i' (dim - 1) = Some x →
         ∃ q, fcell b i' (dim - 1) = Some q ∧
              (if fgt nrm epsf then fdiv x nrm = Ok q else q = x)).
Proof.
  intros Ha Hb0 Hdim Hk Hdiv. induction k as [|k IH].
  - exists b0. simpl. repeat split; try done; try apply Hb0.
    intros row Hk0. lia.
  - destruct IH as (b & Hrun & Hb & Hrest & _); [lia|].
    rewrite seq_S, for_each_app, Hrun.
    cbn [mbind result_mbind result_bind for_each Nat.add].
    destruct (lookup_lt_is_Some_2 a k) as [row Hrow];
      [destruct Ha; lia|].
    destruct (unit_vector_multi_body_spec a b n dim k row Ha Hb Hdim Hdiv Hrow)
      as (b' & Hbody & Hb' & Hcol & Hrest').
    rewrite Hbody. cbn [mbind result_mbind result_bind].
    exists b'. split; [done|]. split; [done|]. split.
    + intros i' j Hj. rewrite Hrest' by done. by apply Hrest.
    + intros row' _ Hrow'. replace (S k - 1)%nat with k in Hrow' by lia.
      assert (row' = row) as -> by congruence. exact Hcol.
Qed.

End UnitVectorProps.

(** X20. On a two-dimensional array of shape (n, dim), n and dim at least
    1, [unit_vector] returns an array of the same shape in which only the
    last column has been written: every other entry is what
    [np.empty_like] found in memory.  The last column holds the last
    column of the input divided by the norm of the last row (or copied,
    when that norm is not above [epsf]): the inner loops of
    [_unit_vector_multi] reuse [i] and the [j] that the norm loop left,
    so each pass overwrites the same column.  No division raises, since it
    is guarded by [nrm > epsf]. *)
Theorem unit_vector_2d_writes_last_column_only
    (float : Type) (fadd fmul : float → float → float)
    (fsqrt : float → float) (fdiv : float → float → result float)
    (fgt : float → float → bool) (epsf fzero : float)
    (junk1 : nat → float) (junk2 : nat → nat → float)
    (a : ndarray2 float) (last : list float) :
  let n := shape0 float a in
  let dim := shape1 float a in
  fshape (items float a) n dim → (1 ≤ n)%nat → (1 ≤ dim)%nat →
  (∀ x y, fgt y epsf = true → ∃ q, fdiv x y = Ok q) →
  items float a !! (n - 1)%nat = Some last →
  let nrm := fsqrt (foldl (λ s x, fadd s (fmul x x)) fzero last) in
  ∃ r : list (list float),
    unit_vector float fadd fmul fsqrt fdiv fgt epsf fzero junk1 junk2
      (Arr2 float a) = Ok (Arr2 float (NdArray2 float n dim r)) ∧
    fshape r n dim ∧
    (∀ i j, (i < n)%nat → (j < dim)%nat → j ≠ (dim - 1)%nat →
       fcell r i j = Some (junk2 i j)) ∧
    (∀ i x, (i < n)%nat → fcell (items float a) i (dim - 1) = Some x →
       ∃ q, fcell r i (dim - 1) = Some q ∧
            (if fgt nrm epsf then fdiv x nrm = Ok q else q = x)).
Proof.
  intros n dim Ha Hn Hdim Hdiv Hlast nrm.
  destruct (unit_vector_multi_loop float fadd fmul fsqrt fdiv fgt epsf fzero
              (items float a) (np_empty_f float junk2 n dim) n dim n)
    as (r & Hrun & Hr & Hrest & Hcol); try done.
  { apply np_empty_f_shape. }
  exists r. split; [|split; [done|split]].
  - unfold unit_vector, _unit_vector_multi, range. fold n dim.
    by rewrite Hrun.
  - intros i j Hi Hj Hne. rewrite Hrest by done.
    by apply np_empty_f_cell.
  - intros i x Hi Hx. by apply (Hcol last Hn Hlast).
Qed.

Lemma unit_vector_2d_writes_last_column_only_witness :
  ∃ r : list (list Q),
    unit_vector Q Qplus Qmult (λ x, x)
      (λ x y, if Qeq_bool y 0 then Raise ZeroDivisionError else Ok (x / y)%Q)
      (λ x y, negb (Qle_bool x y)) 0%Q 0%Q (λ _, 7%Q) (λ _ _, 7%Q)
      (Arr2 Q (NdArray2 Q 2 2 [[3; 4]; [0; 2]]%Q))
    = Ok (Arr2 Q (NdArray2 Q 2 2 r)) ∧
    fcell r 0 0 = Some 7%Q.
Proof.
  destruct (unit_vector_2d_writes_last_column_only Q Qplus Qmult (λ x, x)
              (λ x y, if Qeq_bool y 0 then Raise ZeroDivisionError
                      else Ok (x / y)%Q)
              (λ x y, negb (Qle_bool x y)) 0%Q 0%Q (λ _, 7%Q) (λ _ _, 7%Q)
              (NdArray2 Q 2 2 [[3; 4]; [0; 2]]%Q) [0; 2]%Q)
    as (r & Hrun & _ & Hjunk & _).
  - repeat constructor.
  - simpl. lia.
  - simpl. lia.
  - intros x y Hgt. destruct (Qeq_bool y 0) eqn:Hy; [|by eexists].
    apply Qeq_bool_iff in Hy. apply negb_true_iff in Hgt.
    assert (Qle_bool y 0 = true) as Hle; [|congruence].
    apply Qle_bool_iff. rewrite Hy. apply Qle_refl.
  - reflexivity.
  - exists r. split; [exact Hrun|]. apply Hjunk; simpl; lia.
Defined.

(** ** The worker pool on a limited run *)

Lemma for_each_raises_inv {A St} (I : St → Prop) (g : A → St → result St)
    (l : list A) (q : A) (s : St) :
  (∀ x s s', I s → g x s = Ok s' → I s') →
  (∀ s, I s → ∃ e, g q s = Raise e) →
  q ∈ l → I s → ∃ e, for_each l g s = Raise e.
Proof.
  intros Hinv Hq. revert s. induction l as [|x l IH]; intros s Hin Hs.
  - by apply elem_of_nil in Hin.
  - simpl. destruct (g x s) as [s'|e] eqn:Hg; simpl; [|by exists e].
    apply elem_of_cons in Hin as [<-|Hin].
    + destruct (Hq s Hs) as [e He]. congruence.
    + apply IH; [done | by eapply Hinv].
Qed.

Lemma elem_of_concat_fmap {A B} (f : A → list B) (l : list A) (c : A)
    (x : B) :
  x ∈ f c → c ∈ l → x ∈ concat (f <$> l).
Proof.
  intros Hx. induction l as [|a l IH]; intros Hc.
  - by apply elem_of_nil in Hc.
  - cbn [fmap list_fmap concat]. apply elem_of_app.
    apply elem_of_cons in Hc as [<-|Hc]; [by left | right; by apply IH].
Qed.

(** X22. Whenever the [coords] limit cuts the run short of the test
    coordinates at a point that is not a multiple of the chunk size (and
    there is an angle table), the worker-pool branch of
    [_grand_loop_precomp] does not return: [multiproc_inner_loop] takes
    the end of the last chunk against [len(coords)] instead of the
    limited count, and the store into column [n_coords] of the
    [n_coords]-column matrix is out of bounds.  This holds for every
    completion order of the pool. *)
Theorem pool_overshoots_limited_run {Distortion PlaneData : Type}
    (project : list vec3 → mat3 → mat3 → Q → list Q → list Q → list Q →
               option Distortion → list (Q * Q) * list mat3)
    (sched : list nat → list nat) (junk : nat → nat → Q)
    (image : volume) (angles : list (list vec3)) (coords : list (list Q))
    (experiment : Experiment Distortion PlaneData) (controller : Controller) :
  (∀ l, sched l ≡ₚ l) →
  (1 < process_count controller)%nat →
  (limit controller "coords" (length coords) < length coords)%nat →
  (limit controller "coords" (length coords) `mod` chunk_size controller)%nat
    ≠ 0%nat →
  (1 ≤ length angles)%nat →
  ∃ e, chunk_loop project sched junk image angles coords experiment
         controller = Raise e.
Proof.
  intros Hsched Hcpu Hlim Hmod Hangles. unfold chunk_loop.
  set (n := limit controller "coords" (length coords)) in *.
  set (cs := chunk_size controller) in *.
  destruct (decide (cs = 0%nat)) as [Hcs|Hcs].
  { exists ValueError. unfold xrange_step.
    rewrite (bool_decide_eq_true_2 (cs = 0%nat)) by done. reflexivity. }
  rewrite xrange_step_Ok by lia. cbn [mbind result_mbind result_bind].
  rewrite bool_decide_eq_true_2 by done.
  set (chunks := (λ k, k * cs)%nat <$> seq 0 ((n + cs - 1) / cs)).
  rewrite parallel_loop_cells.
  set (cells := concat (cells_parallel angles coords cs <$> sched chunks)).
  pose proof (Nat.div_mod n cs Hcs) as Hdm.
  pose proof (Nat.mod_upper_bound n cs Hcs) as Hub.
  assert (Hcell : (n, 0%nat) ∈ cells).
  { unfold cells. apply (elem_of_concat_fmap _ _ (n / cs * cs)%nat).
    - unfold cells_parallel, chunk_range_parallel, xrange.
      apply list_elem_of_In, in_prod; apply list_elem_of_In, elem_of_seq; lia.
    - rewrite (Hsched chunks). unfold chunks.
      apply list_elem_of_fmap. exists (n / cs)%nat. split; [done|].
      apply elem_of_seq. split; [lia|]. simpl.
      apply Nat.lt_le_trans with (n / cs + 1)%nat; [lia|].
      apply Nat.div_le_lower_bound; [done | lia]. }
  destruct (for_each_raises_inv
              (λ m : matrix, Forall (λ r : list Q, length r = n) m)
              (_grand_loop_inner_body project image angles coords experiment)
              cells (n, 0%nat) (shared_array (n_grains experiment) n))
    as [e He]; try done.
  - intros [icrd igrn] m m' Hm. unfold _grand_loop_inner_body.
    intros (c & _ & Hset)%bind_Ok.
    apply matrix_set_Ok in Hset as (row & Hrow & Hj & ->).
    apply Forall_insert; [done|]. rewrite length_insert.
    exact (proj1 (Forall_lookup _ _) Hm _ _ Hrow).
  - intros m Hm. unfold _grand_loop_inner_body.
    destruct (cell_score _ _ _ _ _ _ _) as [c|e];
      cbn [mbind result_mbind result_bind]; [|by exists e].
    destruct (matrix_set m 0 n c) as [m'|e] eqn:Hset; [|by exists e].
    apply matrix_set_Ok in Hset as (row & Hrow & Hj & _).
    pose proof (proj1 (Forall_lookup _ _) Hm _ _ Hrow) as Hlen.
    simpl in Hlen. lia.
  - unfold shared_array. apply Forall_replicate, length_replicate.
  - exists e. by rewrite He.
Qed.

Lemma pool_overshoots_limited_run_witness :
  ∃ e, chunk_loop toy_project reverse (λ _ _, 0%Q) toy_volume toy_angles
         (replicate 5 [0; 0; 0]%Q) toy_experiment
         (MkController {[ "coords"%string := λ x : nat, (x `min` 3)%nat ]}
            2 8 []) = Raise e.
Proof.
  apply pool_overshoots_limited_run.
  - intros l. apply reverse_Permutation.
  - simpl. lia.
  - apply Nat.ltb_lt. vm_compute. reflexivity.
  - intros H. vm_compute in H. discriminate.
  - simpl. lia.
Defined.

(** ** [unit_vector] on a vector *)

(** A loop that stores [g(a[i])] into [b[i]]. *)
Lemma vector_loop {float : Type} (g : float → result float)
    (a b0 : list float) (k : nat) :
  length b0 = length a → (k ≤ length a)%nat →
  (∀ x, ∃ q, g x = Ok q) →
  ∃ b : list float,
    for_each (seq 0 k)
      (λ i b, x ← getitem a i; q ← g x; fvec_set float b i q) b0 = Ok b ∧
    length b = length a ∧
    (∀ i x, (i < k)%nat → a !! i = Some x →
       ∃ q, g x = Ok q ∧ b !! i = Some q) ∧
    (∀ i, (k ≤ i)%nat → b !! i = b0 !! i).
Proof.
  intros Hlen Hk Hg. induction k as [|k IH].
  - exists b0. simpl. repeat split; try done. intros i x Hi. lia.
  - destruct IH as (b & Hrun & Hb & Hlow & Hhigh); [lia|].
    rewrite seq_S, for_each_app, Hrun.
    cbn [mbind result_mbind result_bind for_each Nat.add].
    destruct (lookup_lt_is_Some_2 a k) as [x Hx]; [lia|].
    rewrite (getitem_Some _ _ _ Hx). cbn [mbind result_mbind result_bind].
    destruct (Hg x) as [q Hq]. rewrite Hq.
    cbn [mbind result_mbind result_bind]. unfold fvec_set.
    rewrite bool_decide_eq_true_2 by lia.
    eexists. split; [reflexivity|]. split; [by rewrite length_insert|].
    split.
    + intros i x' Hi Hx'. destruct (decide (i = k)) as [->|Hne].
      * rewrite list_lookup_insert_eq by lia. exists q.
        split; [congruence | done].
      * rewrite list_lookup_insert_ne by done. apply Hlow; [lia | done].
    + intros i Hi. rewrite list_lookup_insert_ne by lia. apply Hhigh. lia.
Qed.

(** X23. On a one-dimensional array [unit_vector] returns an array of the
    same length in which every entry has been written: entry [i] is
    [a[i]] divided by the norm of [a], or [a[i]] itself when the norm is
    not above [epsf]; nothing of what [np.empty_like] found in memory is
    left.  Any other number of dimensions than 1 or 2 is a ValueError. *)
Theorem unit_vector_1d_normalises_every_entry
    (float : Type) (fadd fmul : float → float → float)
    (fsqrt : float → float) (fdiv : float → float → result float)
    (fgt : float → float → bool) (epsf fzero : float)
    (junk1 : nat → float) (junk2 : nat → nat → float)
    (a : list float) (ndim : nat) :
  (∀ x y, fgt y epsf = true → ∃ q, fdiv x y = Ok q) →
  let nrm := fsqrt (foldl (λ s x, fadd s (fmul x x)) fzero a) in
  (∃ r : list float,
     unit_vector float fadd fmul fsqrt fdiv fgt epsf fzero junk1 junk2
       (Arr1 float a) = Ok (Arr1 float r) ∧
     length r = length a ∧
     ∀ i x, a !! i = Some x →
       ∃ q, r !! i = Some q ∧
            (if fgt nrm epsf then fdiv x nrm = Ok q else q = x)) ∧
  unit_vector float fadd fmul fsqrt fdiv fgt epsf fzero junk1 junk2
    (ArrN float ndim) = Raise ValueError.
Proof.
  intros Hdiv nrm. split; [|done].
  unfold unit_vector, _unit_vector_single.
  rewrite (for_each_range_lookup a _ (λ x s, Ok (fadd s (fmul x x))))
    by (intros i x s Hx; by rewrite (getitem_Some _ _ _ Hx)).
  assert (Hsum : ∀ l s0, for_each l (λ x s, Ok (fadd s (fmul x x))) s0
                         = Ok (foldl (λ s x, fadd s (fmul x x)) s0 l)).
  { induction l as [|x l IH]; intros s0; [done|]. simpl. apply IH. }
  rewrite Hsum. cbn [mbind result_mbind result_bind]. fold nrm.
  unfold range.
  assert (Hlen0 : length (junk1 <$> seq 0 (length a)) = length a)
    by (by rewrite length_fmap, length_seq).
  destruct (fgt nrm epsf) eqn:Hgt.
  - destruct (vector_loop (λ x, fdiv x nrm) a (junk1 <$> seq 0 (length a))
                (length a) Hlen0)
      as (r & Hrun & Hr & Hlow & _); [lia | intros x; by apply Hdiv |].
    rewrite Hrun. exists r. split; [done|]. split; [done|].
    intros i x Hx. pose proof (lookup_lt_Some _ _ _ Hx) as Hi.
    destruct (Hlow i x Hi Hx) as (q & Hq & Hri). by exists q.
  - destruct (vector_loop (λ x, Ok x) a (junk1 <$> seq 0 (length a))
                (length a) Hlen0)
      as (r & Hrun & Hr & Hlow & _); [lia | intros x; by exists x |].
    change (for_each (seq 0 (length a))
              (λ i b, x ← getitem a i; fvec_set float b i x)
              (junk1 <$> seq 0 (length a)))
      with (for_each (seq 0 (length a))
              (λ i b, x ← getitem a i; q ← Ok x; fvec_set float b i q)
              (junk1 <$> seq 0 (length a))).
    rewrite Hrun. exists r. split; [done|]. split; [done|].
    intros i x Hx. pose proof (lookup_lt_Some _ _ _ Hx) as Hi.
    destruct (Hlow i x Hi Hx) as (q & [= <-] & Hri). by exists x.
Qed.

Lemma unit_vector_1d_normalises_every_entry_witness :
  ∃ r : list Q,
    unit_vector Q Qplus Qmult (λ x, x)
      (λ x y, if Qeq_bool y 0 then Raise ZeroDivisionError else Ok (x / y)%Q)
      (λ x y, negb (Qle_bool x y)) 0%Q 0%Q (λ _, 7%Q) (λ _ _, 7%Q)
      (Arr1 Q [3; 4]%Q)
    = Ok (Arr1 Q r) ∧ length r = 2%nat.
Proof.
  destruct (unit_vector_1d_normalises_every_entry Q Qplus Qmult (λ x, x)
              (λ x y, if Qeq_bool y 0 then Raise ZeroDivisionError
                      else Ok (x / y)%Q)
              (λ x y, negb (Qle_bool x y)) 0%Q 0%Q (λ _, 7%Q) (λ _ _, 7%Q)
              [3; 4]%Q 3) as [(r & Hrun & Hlen & _) _].
  - intros x y Hgt. destruct (Qeq_bool y 0) eqn:Hy; [|by eexists].
    apply Qeq_bool_iff in Hy. apply negb_true_iff in Hgt.
    assert (Qle_bool y 0 = true) as Hle; [|congruence].
    apply Qle_bool_iff. rewrite Hy. apply Qle_refl.
  - by exists r.
Defined.
